(** * StarkFleet Clash: Merkle commitment and game state machine

    A shallow embedding of
    - [contracts/src/merkle_verifier.cairo] (the on-chain verifier),
    - the TypeScript Merkle library of the frontend ([buildMerkleTree],
      [generateProof]), and
    - the [StarkFleetClash] contract (game creation, commitment, attack and
      reveal, victory and timeout claims),
    together with the properties of the commitment scheme and of the state
    machine.

    Conventions.  [felt252], [ContractAddress] and the unsigned integers
    [u8], [u32], [u64], [u256] are all modelled as [Z]; Cairo's integer
    arithmetic is checked (it panics on overflow instead of wrapping), which
    is written out in [u8_add], [u64_add], [u64_sub], [u256_add], [u256_sub]
    and [u256_mul].  JavaScript [number]s used as array indices are [nat]. *)

From Stdlib Require Import ZArith List String Bool Lia.
From stdpp Require Import gmap list strings.

Import ListNotations.
Local Open Scope string_scope.
Local Open Scope Z_scope.

(** ** Results of a fallible computation *)

(** [Ok a] is a normal return; [Panic msg] is a Cairo panic (a failed
    [assert], or a checked arithmetic operation out of range) carrying the
    short string of the source. *)
Inductive Result (A : Type) : Type :=
| Ok (a : A)
| Panic (msg : string).
Arguments Ok {A} a.
Arguments Panic {A} msg.

Section WithPedersen.

(** The Pedersen hash is a builtin of the platform ([core::pedersen::pedersen]
    in Cairo, [pedersen] of [@scure/starknet] in TypeScript); both sides call
    the same function on field elements. *)
Variable pedersen : Z -> Z -> Z.

(** ** merkle_verifier.cairo *)

Definition compute_leaf (x y cell_value : Z) (salt : Z) : Z :=
  let h1 := pedersen x y in
  let h2 := pedersen h1 cell_value in
  pedersen h2 salt.

(** The body of the [for sibling in proof] loop of [verify_proof], iterated
    over the proof; returns the final [current_hash]. *)
Fixpoint verify_fold (current_hash : Z) (index : Z) (proof : list Z) : Z :=
  match proof with
  | [] => current_hash
  | sibling :: rest =>
      let current_hash' :=
        if index mod 2 =? 0
        then pedersen current_hash sibling
        else pedersen sibling current_hash in
      verify_fold current_hash' (index / 2) rest
  end.

Definition verify_proof (root leaf : Z) (proof : list Z) (leaf_index : Z) : bool :=
  verify_fold leaf leaf_index proof =? root.

Definition coords_to_index (x y : Z) : Z := (y * 10) + x.

(** ** The TypeScript Merkle library *)

Record MerkleProof := mkMerkleProof {
  mp_leaf : Z;
  mp_proof : list Z;
  mp_leafIndex : nat
}.

Record MerkleTreeResult := mkMerkleTreeResult {
  mt_root : Z;
  mt_leaves : list Z;
  mt_tree : list (list Z)
}.

Definition computeLeaf (x y : nat) (cellValue : Z) (salt : Z) : Z :=
  let h1 := pedersen (Z.of_nat x) (Z.of_nat y) in
  let h2 := pedersen h1 cellValue in
  pedersen h2 salt.

Definition coordsToIndex (x y : nat) : nat := (y * 10 + x)%nat.

Definition indexToCoords (index : nat) : nat * nat :=
  ((index mod 10)%nat, (index / 10)%nat).

(** [board[y][x]]; [None] where JavaScript reads [undefined]. *)
Definition board_cell (board : list (list Z)) (x y : nat) : option Z :=
  row ← board !! y; row !! x.

(** The two nested [for] loops that push the 100 leaves, row by row.  A cell
    that is [undefined] makes the hash wrapper throw; this is [None]. *)
Definition board_leaves (board : list (list Z)) (salt : Z) : option (list Z) :=
  mapM (fun y =>
          mapM (fun x => cellValue ← board_cell board x y;
                         Some (computeLeaf x y cellValue salt))
               (seq 0 10))
       (seq 0 10)
  ≫= fun rows => Some (concat rows).

(** [while (paddedLeaves.length < 128) paddedLeaves.push(0n)] *)
Definition pad_leaves (leaves : list Z) : list Z :=
  leaves ++ replicate (128 - length leaves)%nat 0.

(** One pass of the inner [for (i = 0; i < currentLevel.length; i += 2)]
    loop.  On a level of odd length the last [right] is [undefined] and the
    hash wrapper throws: [None]. *)
Fixpoint next_level (currentLevel : list Z) : option (list Z) :=
  match currentLevel with
  | [] => Some []
  | [_] => None
  | left_ :: right_ :: rest =>
      nextLevel ← next_level rest;
      Some (pedersen left_ right_ :: nextLevel)
  end.

(** The [while (currentLevel.length > 1)] loop; returns the levels pushed
    onto [tree] after [currentLevel].  [fuel] bounds the number of
    iterations; [build_levels_total] shows that the length of the level is
    always enough. *)
Fixpoint build_levels (fuel : nat) (currentLevel : list Z) : option (list (list Z)) :=
  if (length currentLevel <=? 1)%nat then Some []
  else match fuel with
       | O => None
       | S fuel' =>
           nextLevel ← next_level currentLevel;
           rest ← build_levels fuel' nextLevel;
           Some (nextLevel :: rest)
       end.

(** [None] is a thrown [Error]: the board is not 10x10, or a level cannot be
    hashed. *)
Definition buildMerkleTree (board : list (list Z)) (salt : Z) : option MerkleTreeResult :=
  if negb ((length board =? 10)%nat && forallb (fun row => (length row =? 10)%nat) board)
  then None
  else
    leaves ← board_leaves board salt;
    let paddedLeaves := pad_leaves leaves in
    upper ← build_levels (length paddedLeaves) paddedLeaves;
    let tree := paddedLeaves :: upper in
    root ← (last tree ≫= head);
    Some {| mt_root := root; mt_leaves := leaves; mt_tree := tree |}.

(** The [for (level = 0; level < tree.length - 1; level++)] loop of
    [generateProof], by recursion on the levels that remain; the last level
    (the root) contributes no sibling.  A sibling that is [undefined] makes
    the result no list of field elements: [None]. *)
Fixpoint proof_siblings (levels : list (list Z)) (index : nat) : option (list Z) :=
  match levels with
  | [] => Some []
  | [_] => Some []
  | level :: upper =>
      let isLeft := (index mod 2 =? 0)%nat in
      let siblingIndex := if isLeft then (index + 1)%nat else (index - 1)%nat in
      sibling ← level !! siblingIndex;
      rest ← proof_siblings upper (index / 2)%nat;
      Some (sibling :: rest)
  end.

(** [None] where the leaf or one of the siblings is [undefined]. *)
Definition generateProof (tree : list (list Z)) (x y : nat) : option MerkleProof :=
  let leafIndex := coordsToIndex x y in
  leaf ← (tree !! 0%nat ≫= fun level0 => level0 !! leafIndex);
  proof ← proof_siblings tree leafIndex;
  Some {| mp_leaf := leaf; mp_proof := proof; mp_leafIndex := leafIndex |}.

(** ** The contract: types *)

Inductive GameStatus : Type :=
| WaitingForOpponent
| WaitingForCommitments
| InProgress
| Finished
| Forfeited.

#[global] Instance GameStatus_eq_dec : EqDecision GameStatus.
Proof. solve_decision. Defined.

Record Game := mkGame {
  id : Z;
  player1 : Z;
  player2 : Z;
  player1_root : Z;
  player2_root : Z;
  stake_amount : Z;
  current_turn : Z;
  player1_hits : Z;
  player2_hits : Z;
  last_move_time : Z;
  status : GameStatus;
  winner : Z;
  pending_attack_x : Z;
  pending_attack_y : Z;
  has_pending_attack : bool
}.

(** What a read of a storage slot that was never written returns: every
    field zero, the status the [#[default]] variant. *)
Definition default_game : Game :=
  {| id := 0; player1 := 0; player2 := 0; player1_root := 0; player2_root := 0;
     stake_amount := 0; current_turn := 0; player1_hits := 0; player2_hits := 0;
     last_move_time := 0; status := WaitingForOpponent; winner := 0;
     pending_attack_x := 0; pending_attack_y := 0; has_pending_attack := false |}.

(** Field assignments [game.f = v] on the local copy of the record. *)
Definition set_player2 (g : Game) (v : Z) : Game :=
  mkGame (id g) (player1 g) v (player1_root g) (player2_root g) (stake_amount g)
         (current_turn g) (player1_hits g) (player2_hits g) (last_move_time g)
         (status g) (winner g) (pending_attack_x g) (pending_attack_y g)
         (has_pending_attack g).
Definition set_player1_root (g : Game) (v : Z) : Game :=
  mkGame (id g) (player1 g) (player2 g) v (player2_root g) (stake_amount g)
         (current_turn g) (player1_hits g) (player2_hits g) (last_move_time g)
         (status g) (winner g) (pending_attack_x g) (pending_attack_y g)
         (has_pending_attack g).
Definition set_player2_root (g : Game) (v : Z) : Game :=
  mkGame (id g) (player1 g) (player2 g) (player1_root g) v (stake_amount g)
         (current_turn g) (player1_hits g) (player2_hits g) (last_move_time g)
         (status g) (winner g) (pending_attack_x g) (pending_attack_y g)
         (has_pending_attack g).
Definition set_current_turn (g : Game) (v : Z) : Game :=
  mkGame (id g) (player1 g) (player2 g) (player1_root g) (player2_root g)
         (stake_amount g) v (player1_hits g) (player2_hits g) (last_move_time g)
         (status g) (winner g) (pending_attack_x g) (pending_attack_y g)
         (has_pending_attack g).
Definition set_player1_hits (g : Game) (v : Z) : Game :=
  mkGame (id g) (player1 g) (player2 g) (player1_root g) (player2_root g)
         (stake_amount g) (current_turn g) v (player2_hits g) (last_move_time g)
         (status g) (winner g) (pending_attack_x g) (pending_attack_y g)
         (has_pending_attack g).
Definition set_player2_hits (g : Game) (v : Z) : Game :=
  mkGame (id g) (player1 g) (player2 g) (player1_root g) (player2_root g)
         (stake_amount g) (current_turn g) (player1_hits g) v (last_move_time g)
         (status g) (winner g) (pending_attack_x g) (pending_attack_y g)
         (has_pending_attack g).
Definition set_last_move_time (g : Game) (v : Z) : Game :=
  mkGame (id g) (player1 g) (player2 g) (player1_root g) (player2_root g)
         (stake_amount g) (current_turn g) (player1_hits g) (player2_hits g) v
         (status g) (winner g) (pending_attack_x g) (pending_attack_y g)
         (has_pending_attack g).
Definition set_status (g : Game) (v : GameStatus) : Game :=
  mkGame (id g) (player1 g) (player2 g) (player1_root g) (player2_root g)
         (stake_amount g) (current_turn g) (player1_hits g) (player2_hits g)
         (last_move_time g) v (winner g) (pending_attack_x g) (pending_attack_y g)
         (has_pending_attack g).
Definition set_winner (g : Game) (v : Z) : Game :=
  mkGame (id g) (player1 g) (player2 g) (player1_root g) (player2_root g)
         (stake_amount g) (current_turn g) (player1_hits g) (player2_hits g)
         (last_move_time g) (status g) v (pending_attack_x g) (pending_attack_y g)
         (has_pending_attack g).
Definition set_pending_attack_x (g : Game) (v : Z) : Game :=
  mkGame (id g) (player1 g) (player2 g) (player1_root g) (player2_root g)
         (stake_amount g) (current_turn g) (player1_hits g) (player2_hits g)
         (last_move_time g) (status g) (winner g) v (pending_attack_y g)
         (has_pending_attack g).
Definition set_pending_attack_y (g : Game) (v : Z) : Game :=
  mkGame (id g) (player1 g) (player2 g) (player1_root g) (player2_root g)
         (stake_amount g) (current_turn g) (player1_hits g) (player2_hits g)
         (last_move_time g) (status g) (winner g) (pending_attack_x g) v
         (has_pending_attack g).
Definition set_has_pending_attack (g : Game) (v : bool) : Game :=
  mkGame (id g) (player1 g) (player2 g) (player1_root g) (player2_root g)
         (stake_amount g) (current_turn g) (player1_hits g) (player2_hits g)
         (last_move_time g) (status g) (winner g) (pending_attack_x g)
         (pending_attack_y g) v.

Inductive Event : Type :=
| GameCreated (game_id player1 stake_amount : Z)
| GameJoined (game_id player2 : Z)
| BoardCommitted (game_id player : Z)
| AttackMade (game_id attacker x y : Z)
| CellRevealed (game_id x y : Z) (is_hit : bool)
| GameWon (game_id winner total_pot : Z)
| GameForfeited (game_id winner : Z) (reason : string)
| HouseFeeCollected (game_id amount : Z)
| HouseFundsWithdrawn (to amount : Z)
| OwnershipTransferred (previous_owner new_owner : Z).

(** A call to the STRK token, the external ERC-20 contract. *)
Inductive TokenCall : Type :=
| TransferFrom (sender recipient amount : Z)
| Transfer (recipient amount : Z).

(** The contract's storage, and what it leaves outside of it: the token
    transfers it has caused and the events it has emitted (both most recent
    first). *)
Record World := mkWorld {
  game_count : Z;
  games : gmap Z Game;
  revealed_cells : gmap (Z * Z * Z) bool;
  owner : Z;
  house_balance : Z;
  token_transfers : list TokenCall;
  events : list Event
}.

(** What the platform gives to one call: [get_caller_address],
    [get_block_timestamp], [get_contract_address], and the answer of the STRK
    token to a transfer request (it is an external collaborator: nothing is
    assumed about when it accepts). *)
Record Env := mkEnv {
  caller_address : Z;
  block_timestamp : Z;
  contract_address : Z;
  strk_accepts : TokenCall -> bool
}.

(** ** Constants *)

Definition BOARD_SIZE : Z := 10.
Definition HITS_TO_WIN : Z := 7.
Definition DEFAULT_TIMEOUT : Z := 86400.
Definition MIN_STAKE : Z := 1000000000000000000.
Definition HOUSE_FEE_BPS : Z := 100.

(** ** Checked integer arithmetic *)

Definition checked (bits : Z) (msg : string) (v : Z) : Result Z :=
  if (0 <=? v) && (v <? 2 ^ bits) then Ok v else Panic msg.

Definition u8_add (a b : Z) : Result Z := checked 8 "u8_add Overflow" (a + b).
Definition u64_add (a b : Z) : Result Z := checked 64 "u64_add Overflow" (a + b).
Definition u64_sub (a b : Z) : Result Z := checked 64 "u64_sub Overflow" (a - b).
Definition u256_add (a b : Z) : Result Z := checked 256 "u256_add Overflow" (a + b).
Definition u256_sub (a b : Z) : Result Z := checked 256 "u256_sub Overflow" (a - b).
Definition u256_mul (a b : Z) : Result Z := checked 256 "u256_mul Overflow" (a * b).

(** ** The execution monad: state with panics

    A computation runs on a world and returns a result and the world as it
    is at that point: the writes made before a panic are still visible in
    the returned world.  [execute] below is what a transaction does with
    it. *)

Definition Exec (A : Type) : Type := World -> Result A * World.

#[global] Instance Exec_ret : MRet Exec := fun A a w => (Ok a, w).

#[global] Instance Exec_bind : MBind Exec := fun A B f m w =>
  match m w with
  | (Ok a, w') => f a w'
  | (Panic msg, w') => (Panic msg, w')
  end.

Definition panic {A : Type} (msg : string) : Exec A := fun w => (Panic msg, w).

Definition assert (cond : bool) (msg : string) : Exec unit :=
  if cond then mret tt else panic msg.

Definition lift {A : Type} (r : Result A) : Exec A :=
  match r with
  | Ok a => mret a
  | Panic msg => panic msg
  end.

(** A panic reverts the transaction: the world is as before the call. *)
Definition execute {A : Type} (call : Exec A) (w : World) : Result A * World :=
  match call w with
  | (Ok a, w') => (Ok a, w')
  | (Panic msg, _) => (Panic msg, w)
  end.

(** ** Storage accesses *)

Definition games_read (w : World) (game_id : Z) : Game :=
  default default_game (games w !! game_id).

Definition revealed_read (w : World) (key : Z * Z * Z) : bool :=
  default false (revealed_cells w !! key).

Definition read_game (game_id : Z) : Exec Game := fun w => (Ok (games_read w game_id), w).

Definition write_game (game_id : Z) (game : Game) : Exec unit := fun w =>
  (Ok tt, mkWorld (game_count w) (<[game_id := game]> (games w)) (revealed_cells w)
                  (owner w) (house_balance w) (token_transfers w) (events w)).

Definition read_game_count : Exec Z := fun w => (Ok (game_count w), w).

Definition write_game_count (v : Z) : Exec unit := fun w =>
  (Ok tt, mkWorld v (games w) (revealed_cells w) (owner w) (house_balance w)
                  (token_transfers w) (events w)).

Definition read_revealed (key : Z * Z * Z) : Exec bool := fun w => (Ok (revealed_read w key), w).

Definition write_revealed (key : Z * Z * Z) (v : bool) : Exec unit := fun w =>
  (Ok tt, mkWorld (game_count w) (games w) (<[key := v]> (revealed_cells w))
                  (owner w) (house_balance w) (token_transfers w) (events w)).

Definition read_owner : Exec Z := fun w => (Ok (owner w), w).

Definition write_owner (v : Z) : Exec unit := fun w =>
  (Ok tt, mkWorld (game_count w) (games w) (revealed_cells w) v (house_balance w)
                  (token_transfers w) (events w)).

Definition read_house_balance : Exec Z := fun w => (Ok (house_balance w), w).

Definition write_house_balance (v : Z) : Exec unit := fun w =>
  (Ok tt, mkWorld (game_count w) (games w) (revealed_cells w) (owner w) v
                  (token_transfers w) (events w)).

Definition emit (e : Event) : Exec unit := fun w =>
  (Ok tt, mkWorld (game_count w) (games w) (revealed_cells w) (owner w)
                  (house_balance w) (token_transfers w) (e :: events w)).

(** [strk.transfer_from(..)] and [strk.transfer(..)]: the token answers; a
    transfer it accepts has taken place. *)
Definition strk_call (env : Env) (c : TokenCall) : Exec bool := fun w =>
  if strk_accepts env c
  then (Ok true, mkWorld (game_count w) (games w) (revealed_cells w) (owner w)
                         (house_balance w) (c :: token_transfers w) (events w))
  else (Ok false, w).

(** ** The contract: entry points *)

Definition create_game (env : Env) (stake_amount : Z) : Exec Z :=
  let caller := caller_address env in
  assert (MIN_STAKE <=? stake_amount) "Stake too low";;
  success ← strk_call env (TransferFrom caller (contract_address env) stake_amount);
  assert success "STRK transfer failed";;
  count ← read_game_count;
  game_id ← lift (u64_add count 1);
  write_game_count game_id;;
  let zero_addr := 0 in
  let game :=
    {| id := game_id; player1 := caller; player2 := zero_addr;
       player1_root := 0; player2_root := 0; stake_amount := stake_amount;
       current_turn := zero_addr; player1_hits := 0; player2_hits := 0;
       last_move_time := block_timestamp env; status := WaitingForOpponent;
       winner := zero_addr; pending_attack_x := 0; pending_attack_y := 0;
       has_pending_attack := false |} in
  write_game game_id game;;
  emit (GameCreated game_id caller stake_amount);;
  mret game_id.

Definition join_game (env : Env) (game_id : Z) : Exec unit :=
  let caller := caller_address env in
  game ← read_game game_id;
  assert (negb (id game =? 0)) "Game does not exist";;
  assert (bool_decide (status game = WaitingForOpponent)) "Game not joinable";;
  assert (negb (caller =? player1 game)) "Cannot join own game";;
  success ← strk_call env (TransferFrom caller (contract_address env) (stake_amount game));
  assert success "STRK transfer failed";;
  let game := set_player2 game caller in
  let game := set_status game WaitingForCommitments in
  let game := set_last_move_time game (block_timestamp env) in
  write_game game_id game;;
  emit (GameJoined game_id caller).

Definition commit_board (env : Env) (game_id : Z) (merkle_root : Z) : Exec unit :=
  let caller := caller_address env in
  game ← read_game game_id;
  assert (negb (id game =? 0)) "Game does not exist";;
  assert (bool_decide (status game = WaitingForCommitments)) "Not in commitment phase";;
  let is_player1 := caller =? player1 game in
  let is_player2 := caller =? player2 game in
  assert (is_player1 || is_player2) "Not a player";;
  game ← (if is_player1
          then assert (player1_root game =? 0) "Already committed";;
               mret (set_player1_root game merkle_root)
          else assert (player2_root game =? 0) "Already committed";;
               mret (set_player2_root game merkle_root));
  let game :=
    if negb (player1_root game =? 0) && negb (player2_root game =? 0)
    then let game := set_status game InProgress in
         if block_timestamp env mod 2 =? 1
         then set_current_turn game (player1 game)
         else set_current_turn game (player2 game)
    else game in
  let game := set_last_move_time game (block_timestamp env) in
  write_game game_id game;;
  emit (BoardCommitted game_id caller).

Definition attack (env : Env) (game_id : Z) (x y : Z) : Exec unit :=
  let caller := caller_address env in
  game ← read_game game_id;
  assert (negb (id game =? 0)) "Game does not exist";;
  assert (bool_decide (status game = InProgress)) "Game not in progress";;
  assert (negb (has_pending_attack game)) "Pending attack exists";;
  assert (caller =? current_turn game) "Not your turn";;
  assert (x <? BOARD_SIZE) "X out of bounds";;
  assert (y <? BOARD_SIZE) "Y out of bounds";;
  let defender := if caller =? player1 game then player2 game else player1 game in
  let cell_index := coords_to_index x y in
  already_revealed ← read_revealed (game_id, defender, cell_index);
  assert (negb already_revealed) "Cell already attacked";;
  let game := set_pending_attack_x game x in
  let game := set_pending_attack_y game y in
  let game := set_has_pending_attack game true in
  let game := set_current_turn game defender in
  let game := set_last_move_time game (block_timestamp env) in
  write_game game_id game;;
  emit (AttackMade game_id caller x y).

Definition reveal (env : Env) (game_id : Z) (x y : Z) (is_hit : bool) (salt : Z)
    (proof : list Z) : Exec unit :=
  let caller := caller_address env in
  game ← read_game game_id;
  assert (negb (id game =? 0)) "Game does not exist";;
  assert (bool_decide (status game = InProgress)) "Game not in progress";;
  assert (has_pending_attack game) "No pending attack";;
  assert (caller =? current_turn game) "Not your turn";;
  assert (x =? pending_attack_x game) "Wrong X coordinate";;
  assert (y =? pending_attack_y game) "Wrong Y coordinate";;
  let root := if caller =? player1 game then player1_root game else player2_root game in
  let cell_value := if is_hit then 1 else 0 in
  let leaf := compute_leaf x y cell_value salt in
  let leaf_index := coords_to_index x y in
  let valid := verify_proof root leaf proof leaf_index in
  assert valid "Invalid Merkle proof";;
  write_revealed (game_id, caller, leaf_index) true;;
  let attacker := if caller =? player1 game then player2 game else player1 game in
  game ← (if is_hit
          then if attacker =? player1 game
               then hits ← lift (u8_add (player1_hits game) 1);
                    mret (set_player1_hits game hits)
               else hits ← lift (u8_add (player2_hits game) 1);
                    mret (set_player2_hits game hits)
          else mret game);
  let game := set_has_pending_attack game false in
  let game := set_current_turn game caller in
  let game := set_last_move_time game (block_timestamp env) in
  write_game game_id game;;
  emit (CellRevealed game_id x y is_hit).

Definition claim_victory (env : Env) (game_id : Z) : Exec unit :=
  let caller := caller_address env in
  game ← read_game game_id;
  assert (negb (id game =? 0)) "Game does not exist";;
  assert (bool_decide (status game = InProgress)) "Game not in progress";;
  let is_player1 := caller =? player1 game in
  let is_player2 := caller =? player2 game in
  assert (is_player1 || is_player2) "Not a player";;
  let hits := if is_player1 then player1_hits game else player2_hits game in
  assert (HITS_TO_WIN <=? hits) "Not enough hits to win";;
  total_pot ← lift (u256_mul (stake_amount game) 2);
  scaled ← lift (u256_mul total_pot HOUSE_FEE_BPS);
  let house_fee := scaled / 10000 in
  winner_payout ← lift (u256_sub total_pot house_fee);
  let game := set_status game Finished in
  let game := set_winner game caller in
  write_game game_id game;;
  current_balance ← read_house_balance;
  new_balance ← lift (u256_add current_balance house_fee);
  write_house_balance new_balance;;
  success ← strk_call env (Transfer caller winner_payout);
  assert success "Prize transfer failed";;
  emit (HouseFeeCollected game_id house_fee);;
  emit (GameWon game_id caller winner_payout).

(** The [timed_out_player] expression of [claim_timeout]: the party whose
    deadline the caller may claim, or the zero address. *)
Definition timed_out_player (game : Game) (caller : Z) : Z :=
  let is_player1 := caller =? player1 game in
  let is_player2 := caller =? player2 game in
  let zero_addr := 0 in
  if bool_decide (status game = WaitingForCommitments)
  then if is_player1 && (player2_root game =? 0) && negb (player2 game =? zero_addr)
       then player2 game
       else if is_player2 && (player1_root game =? 0)
            then player1 game
            else zero_addr
  else if negb (current_turn game =? caller)
       then current_turn game
       else zero_addr.

Definition claim_timeout (env : Env) (game_id : Z) : Exec unit :=
  let caller := caller_address env in
  game ← read_game game_id;
  assert (negb (id game =? 0)) "Game does not exist";;
  assert (bool_decide (status game = WaitingForCommitments)
          || bool_decide (status game = InProgress)) "Game not active";;
  let is_player1 := caller =? player1 game in
  let is_player2 := caller =? player2 game in
  assert (is_player1 || is_player2) "Not a player";;
  let zero_addr := 0 in
  assert (negb (timed_out_player game caller =? zero_addr)) "No timeout to claim";;
  let current_time := block_timestamp env in
  elapsed ← lift (u64_sub current_time (last_move_time game));
  assert (DEFAULT_TIMEOUT <=? elapsed) "Timeout not reached";;
  total_pot ← (if bool_decide (status game = WaitingForCommitments)
                  && (player2 game =? zero_addr)
               then mret (stake_amount game)
               else lift (u256_mul (stake_amount game) 2));
  let game := set_status game Forfeited in
  let game := set_winner game caller in
  write_game game_id game;;
  success ← strk_call env (Transfer caller total_pot);
  assert success "Prize transfer failed";;
  emit (GameForfeited game_id caller "timeout").

Definition get_game (game_id : Z) : Exec Game := read_game game_id.
Definition get_game_count : Exec Z := read_game_count.
Definition get_timeout_duration : Exec Z := mret DEFAULT_TIMEOUT.
Definition get_house_balance : Exec Z := read_house_balance.
Definition get_house_fee_bps : Exec Z := mret HOUSE_FEE_BPS.
Definition get_owner : Exec Z := read_owner.

Definition withdraw_house_funds (env : Env) (amount : Z) : Exec unit :=
  let caller := caller_address env in
  owner ← read_owner;
  assert (caller =? owner) "Only owner can withdraw";;
  balance ← read_house_balance;
  assert (amount <=? balance) "Insufficient house balance";;
  new_balance ← lift (u256_sub balance amount);
  write_house_balance new_balance;;
  success ← strk_call env (Transfer caller amount);
  assert success "Withdrawal transfer failed";;
  emit (HouseFundsWithdrawn caller amount).

Definition transfer_ownership (env : Env) (new_owner : Z) : Exec unit :=
  let caller := caller_address env in
  current_owner ← read_owner;
  assert (caller =? current_owner) "Only owner can transfer";;
  assert (negb (new_owner =? 0)) "Invalid new owner";;
  write_owner new_owner;;
  emit (OwnershipTransferred current_owner new_owner).

(** The constructor: empty storage, the owner set. *)
Definition constructor (owner : Z) : World :=
  {| game_count := 0; games := ∅; revealed_cells := ∅; owner := owner;
     house_balance := 0; token_transfers := []; events := [] |}.

(** ** Transactions *)

(** The external calls that change state.  ([upgrade] replaces the code of
    the contract itself and is outside of this model: what follows is about
    the contract as long as this class is the one deployed.) *)
Inductive Call : Type :=
| CreateGame (stake_amount : Z)
| JoinGame (game_id : Z)
| CommitBoard (game_id merkle_root : Z)
| Attack (game_id x y : Z)
| Reveal (game_id x y : Z) (is_hit : bool) (salt : Z) (proof : list Z)
| ClaimVictory (game_id : Z)
| ClaimTimeout (game_id : Z)
| WithdrawHouseFunds (amount : Z)
| TransferOwnership (new_owner : Z).

Definition entry_point (env : Env) (c : Call) : Exec unit :=
  match c with
  | CreateGame stake_amount => create_game env stake_amount;; mret tt
  | JoinGame game_id => join_game env game_id
  | CommitBoard game_id merkle_root => commit_board env game_id merkle_root
  | Attack game_id x y => attack env game_id x y
  | Reveal game_id x y is_hit salt proof => reveal env game_id x y is_hit salt proof
  | ClaimVictory game_id => claim_victory env game_id
  | ClaimTimeout game_id => claim_timeout env game_id
  | WithdrawHouseFunds amount => withdraw_house_funds env amount
  | TransferOwnership new_owner => transfer_ownership env new_owner
  end.

(** What the types of the source guarantee about a call: coordinates are
    [u8]; and the caller of an external call is an account, never the zero
    address. *)
Definition well_typed (env : Env) (c : Call) : Prop :=
  caller_address env <> 0 /\
  match c with
  | Attack _ x y | Reveal _ x y _ _ _ => 0 <= x < 2 ^ 8 /\ 0 <= y < 2 ^ 8
  | _ => True
  end.

(** The worlds that the contract can be in: deployed, then any number of
    transactions that did not revert. *)
Inductive reachable : World -> Prop :=
| reachable_deployed (owner : Z) : reachable (constructor owner)
| reachable_call (w w' : World) (env : Env) (c : Call) :
    reachable w -> well_typed env c ->
    execute (entry_point env c) w = (Ok tt, w') ->
    reachable w'.

(** ** Well-formed games *)

(** What holds of the record stored under [key] when [count] games have been
    created: it is either the never-written record, or a game created under
    that very key. *)
Definition game_inv (count key : Z) (g : Game) : Prop :=
  g = default_game \/
  (id g = key /\ 1 <= key <= count /\ player1 g <> 0 /\
   (status g = WaitingForOpponent -> player2 g = 0 /\ has_pending_attack g = false) /\
   (status g <> WaitingForOpponent -> player2 g <> 0 /\ player2 g <> player1 g) /\
   (status g = WaitingForCommitments -> has_pending_attack g = false) /\
   (status g = InProgress ->
      (current_turn g = player1 g \/ current_turn g = player2 g) /\
      player1_root g <> 0 /\ player2_root g <> 0) /\
   (has_pending_attack g = true ->
      0 <= pending_attack_x g < BOARD_SIZE /\ 0 <= pending_attack_y g < BOARD_SIZE)).

Definition valid_game (w : World) (game_id : Z) : Prop :=
  game_inv (game_count w) game_id (games_read w game_id).

Definition world_inv (w : World) : Prop :=
  0 <= game_count w /\ forall key, valid_game w key.

End WithPedersen.

(** ** Vocabulary for the statements *)

(** A board as [buildMerkleTree] accepts it, with cells water (0) or
    ship (1). *)
Definition is_board (board : list (list Z)) : Prop :=
  length board = 10%nat /\ Forall (fun row => length row = 10%nat) board.

Definition binary_cells (board : list (list Z)) : Prop :=
  Forall (Forall (fun cell => cell = 0 \/ cell = 1)) board.

(** The [hits] expression of [claim_victory]: the counter of [caller]. *)
Definition hits_of (game : Game) (caller : Z) : Z :=
  if caller =? player1 game then player1_hits game else player2_hits game.

(** The [defender] expression of [attack], which is the [attacker] expression
    of [reveal]: the other player. *)
Definition opponent_of (game : Game) (caller : Z) : Z :=
  if caller =? player1 game then player2 game else player1 game.

(** The [root] expression of [reveal]: the commitment of [caller]. *)
Definition root_of (game : Game) (caller : Z) : Z :=
  if caller =? player1 game then player1_root game else player2_root game.

(** The [house_fee] and [winner_payout] of [claim_victory], as numbers. *)
Definition house_fee_of (game : Game) : Z :=
  stake_amount game * 2 * HOUSE_FEE_BPS / 10000.

Definition winner_payout_of (game : Game) : Z :=
  stake_amount game * 2 - house_fee_of game.

(** The pot arithmetic of [claim_victory] stays within [u256] and the token
    carries out the payout. *)
Definition victory_payable (w : World) (env : Env) (game : Game) : Prop :=
  0 <= stake_amount game /\ stake_amount game * 2 * HOUSE_FEE_BPS < 2 ^ 256 /\
  0 <= house_balance w /\ house_balance w + house_fee_of game < 2 ^ 256 /\
  strk_accepts env (Transfer (caller_address env) (winner_payout_of game)) = true.

(** The world after a [claim_victory] that goes through. *)
Definition after_claim_victory (w : World) (env : Env) (game_id : Z) : World :=
  let game := games_read w game_id in
  let caller := caller_address env in
  {| game_count := game_count w;
     games := <[game_id := set_winner (set_status game Finished) caller]> (games w);
     revealed_cells := revealed_cells w;
     owner := owner w;
     house_balance := house_balance w + house_fee_of game;
     token_transfers := Transfer caller (winner_payout_of game) :: token_transfers w;
     events := GameWon game_id caller (winner_payout_of game)
               :: HouseFeeCollected game_id (house_fee_of game) :: events w |}.

(** The [total_pot] expression of [claim_timeout], as a number. *)
Definition timeout_pot (game : Game) : Z :=
  if bool_decide (status game = WaitingForCommitments) && (player2 game =? 0)
  then stake_amount game
  else stake_amount game * 2.

(** The world after a [claim_timeout] that goes through. *)
Definition after_claim_timeout (w : World) (env : Env) (game_id : Z) : World :=
  let game := games_read w game_id in
  let caller := caller_address env in
  {| game_count := game_count w;
     games := <[game_id := set_winner (set_status game Forfeited) caller]> (games w);
     revealed_cells := revealed_cells w;
     owner := owner w;
     house_balance := house_balance w;
     token_transfers := Transfer caller (timeout_pot game) :: token_transfers w;
     events := GameForfeited game_id caller "timeout" :: events w |}.



(** The game that a call is about. *)
Definition game_of_call (c : Call) : option Z :=
  match c with
  | JoinGame game_id | CommitBoard game_id _ | Attack game_id _ _
  | Reveal game_id _ _ _ _ _ | ClaimVictory game_id | ClaimTimeout game_id => Some game_id
  | CreateGame _ | WithdrawHouseFunds _ | TransferOwnership _ => None
  end.

(** A sequence of transactions, none of which reverts. *)
Fixpoint run_calls (pedersen : Z -> Z -> Z) (w : World) (calls : list (Env * Call))
    : option World :=
  match calls with
  | [] => Some w
  | (env, c) :: rest =>
      match execute (entry_point pedersen env c) w with
      | (Ok _, w') => run_calls pedersen w' rest
      | (Panic _, _) => None
      end
  end.

(** ** Further vocabulary *)

(** The two final phases. *)
Definition terminal (s : GameStatus) : Prop := s = Finished \/ s = Forfeited.

(** What a token transfer does to the contract's holdings: the entry points
    only ever pull tokens into the contract ([transfer_from]) and push
    tokens out of it ([transfer]). *)
Definition token_flow (c : TokenCall) : Z :=
  match c with
  | TransferFrom _ _ amount => amount
  | Transfer _ amount => - amount
  end.

Definition sum_list (l : list Z) : Z := fold_right Z.add 0 l.

(** The tokens that the contract has received, less those it has paid. *)
Definition holdings (w : World) : Z := sum_list (map token_flow (token_transfers w)).

(** The stakes that a game holds: one before the opponent joins, two while
    the game is live, none once it has been paid out. *)
Definition escrow_of (g : Game) : Z :=
  match status g with
  | WaitingForOpponent => stake_amount g
  | WaitingForCommitments | InProgress => stake_amount g * 2
  | Finished | Forfeited => 0
  end.

Definition total_escrow (w : World) : Z :=
  sum_list (map (fun k => escrow_of (games_read w (Z.of_nat k)))
                (seq 1 (Z.to_nat (game_count w)))).

(** The number of cells of [board_owner]'s board in game [game_id] that
    have been revealed. *)
Definition revealed_count (w : World) (game_id board_owner : Z) : Z :=
  sum_list (map (fun i => if revealed_read w (game_id, board_owner, Z.of_nat i)
                          then 1 else 0)
                (seq 0 100)).

(** Further facts kept of the record stored under [k]: ids are dense, a
    winner is recorded exactly in the two final phases and is a player, no
    hit is counted before the game is in progress, each hit counter is at most the number of revealed cells of the opponent's
    board, and the cell of a pending attack has not been revealed. *)
Definition game_inv2 (w : World) (k : Z) : Prop :=
  let g := games_read w k in
  (1 <= k <= game_count w -> id g = k) /\
  ((status g = Finished \/ status g = Forfeited) <-> winner g <> 0) /\
  (winner g <> 0 -> winner g = player1 g \/ winner g = player2 g) /\
  (status g = WaitingForOpponent \/ status g = WaitingForCommitments ->
   player1_hits g = 0 /\ player2_hits g = 0) /\
  0 <= player1_hits g <= revealed_count w k (player2 g) /\
  0 <= player2_hits g <= revealed_count w k (player1 g) /\
  (has_pending_attack g = true -> status g = InProgress ->
   revealed_read w (k, current_turn g,
                    coords_to_index (pending_attack_x g) (pending_attack_y g)) = false).

Section FrontendVerifier.
Variable pedersen : Z -> Z -> Z.

(** [verifyProof] of the TypeScript library: the [for (const sibling of
    proof)] loop, then the comparison with the root. *)
Fixpoint verifyProof_loop (currentHash : Z) (index : nat) (proof : list Z) : Z :=
  match proof with
  | [] => currentHash
  | sibling :: rest =>
      let currentHash' :=
        if (index mod 2 =? 0)%nat
        then pedersen currentHash sibling
        else pedersen sibling currentHash in
      verifyProof_loop currentHash' (index / 2)%nat rest
  end.

Definition verifyProof (root leaf : Z) (proof : list Z) (leafIndex : nat) : bool :=
  verifyProof_loop leaf leafIndex proof =? root.

(** Two different inputs with the same hash. *)
Definition collision : Prop :=
  exists a b c d, (a <> c \/ b <> d) /\ pedersen a b = pedersen c d.

End FrontendVerifier.

(** The widths of the levels above a level of [2 ^ d] nodes. *)
Fixpoint widths_above (d : nat) : list nat :=
  match d with
  | O => []
  | S d' => (2 ^ d')%nat :: widths_above d'
  end.

Section Frontend.
Variable pedersen : Z -> Z -> Z.

(** The arguments that [handleRevealAttack] of the game screen passes to
    [onReveal] for the pending attack at [(x, y)]: whether the cell is a
    ship, the salt, and the siblings of [generateProof] on the tree built
    again from the board (their encoding as hexadecimal strings is left
    out).  [None] where it throws, and the handler reports 'Reveal
    failed'. *)
Definition handleRevealAttack (myBoard : list (list Z)) (salt : Z) (x y : nat)
    : option (nat * nat * bool * Z * list Z) :=
  row ← myBoard !! y;
  let isHit := match row !! x with
               | Some 1 => true
               | _ => false
               end in
  t ← buildMerkleTree pedersen myBoard salt;
  merkleProof ← generateProof (mt_tree t) x y;
  Some (x, y, isHit, salt, mp_proof merkleProof).

End Frontend.

(** ** The placement of the fleet (frontend/src/lib/board.ts) *)

(** [interface Ship]; the fields are prefixed, numbers are integers. *)
Record Ship := mkShip {
  ship_id : string;
  ship_name : string;
  ship_length : Z;
  ship_x : Z;
  ship_y : Z;
  ship_horizontal : bool;
  ship_placed : bool
}.



(** How a call on a board ends: it returns; it throws a [TypeError], on
    reading a cell of a row that the board does not have; or it has written
    past the end of a row, where JavaScript grows the row and leaves holes
    in it, which a list of numbers cannot hold: the model does not follow
    the call further. *)
Inductive Outcome (A : Type) : Type :=
  | Returns (a : A)
  | Throws
  | RowGrown.
Arguments Returns {A} a.
Arguments Throws {A}.
Arguments RowGrown {A}.

(** [arr[i]] for a number [i]: [undefined], here [None], outside the array. *)
Definition at_index {A : Type} (arr : list A) (i : Z) : option A :=
  if i <? 0 then None else arr !! Z.to_nat i.

(** [BOARD_SIZE] of board.ts is 10 as in the contract. *)
Definition createEmptyBoard : list (list Z) :=
  replicate (Z.to_nat BOARD_SIZE) (replicate (Z.to_nat BOARD_SIZE) 0).

Definition getShipCells (ship : Ship) : list (Z * Z) :=
  map (fun i => if ship_horizontal ship
                then (ship_x ship + i, ship_y ship)
                else (ship_x ship, ship_y ship + i))
      (seqZ 0 (ship_length ship)).

(** The test of the first loop of [isValidPlacement]. *)
Definition out_of_board (cell : Z * Z) : bool :=
  let '(x, y) := cell in
  (x <? 0) || (x >=? BOARD_SIZE) || (y <? 0) || (y >=? BOARD_SIZE).

(** The second loop: [board[y][x] !== 0] returns [false]; a row that is
    missing throws. *)
Fixpoint cells_free (board : list (list Z)) (cells : list (Z * Z)) : Outcome bool :=
  match cells with
  | [] => Returns true
  | (x, y) :: rest =>
      match at_index board y with
      | None => Throws
      | Some row =>
          match at_index row x with
          | Some 0 => cells_free board rest
          | _ => Returns false
          end
      end
  end.

(** The innermost loop: [(nx, ny)] is a cell of a ship of [existingShips]
    with another id. *)
Definition belongs_to_other (ship : Ship) (existingShips : list Ship) (nx ny : Z) : bool :=
  existsb (fun other =>
             negb (String.eqb (ship_id other) (ship_id ship)) &&
             existsb (fun '(ox, oy) => (ox =? nx) && (oy =? ny)) (getShipCells other))
          existingShips.

(** The loops over [dx] and [dy] for one cell of the ship. *)
Definition neighbours_clear (ship : Ship) (existingShips : list Ship) (cell : Z * Z) : bool :=
  let '(x, y) := cell in
  forallb (fun dx =>
    forallb (fun dy =>
      if (dx =? 0) && (dy =? 0) then true
      else
        let nx := x + dx in
        let ny := y + dy in
        if (nx >=? 0) && (nx <? BOARD_SIZE) && (ny >=? 0) && (ny <? BOARD_SIZE)
        then negb (belongs_to_other ship existingShips nx ny)
        else true)
      [-1; 0; 1])
    [-1; 0; 1].

Definition isValidPlacement (ship : Ship) (board : list (list Z)) (existingShips : list Ship)
    : Outcome bool :=
  let cells := getShipCells ship in
  if existsb out_of_board cells then Returns false
  else
    match cells_free board cells with
    | Returns true => Returns (forallb (neighbours_clear ship existingShips) cells)
    | other => other
    end.

(** [newBoard[y][x] = value]: a [TypeError] where the row is missing; a
    negative [x] sets a property and no element; an [x] past the end grows
    the row. *)
Definition write_cell (value : Z) (board : list (list Z)) (cell : Z * Z)
    : Outcome (list (list Z)) :=
  let '(x, y) := cell in
  match at_index board y with
  | None => Throws
  | Some row =>
      if x <? 0 then Returns board
      else if x <? Z.of_nat (length row)
      then Returns (<[Z.to_nat y := <[Z.to_nat x := value]> row]> board)
      else RowGrown
  end.

Fixpoint write_cells (value : Z) (board : list (list Z)) (cells : list (Z * Z))
    : Outcome (list (list Z)) :=
  match cells with
  | [] => Returns board
  | cell :: rest =>
      match write_cell value board cell with
      | Returns newBoard => write_cells value newBoard rest
      | other => other
      end
  end.

(** [placeShip] and [removeShip] work on a copy of the board, here the
    board itself. *)
Definition placeShip (board : list (list Z)) (ship : Ship) : Outcome (list (list Z)) :=
  write_cells 1 board (getShipCells ship).

Definition removeShip (board : list (list Z)) (ship : Ship) : Outcome (list (list Z)) :=
  write_cells 0 board (getShipCells ship).

Definition countShipCells (board : list (list Z)) : Z :=
  Z.of_nat (length (List.filter (fun cell => cell =? 1) (concat board))).



(** *** The placement screen (the [ShipPlacement] component) *)











(** *** Vocabulary for the placement *)

(** The cell at integer coordinates. *)
Definition cell_at (board : list (list Z)) (x y : Z) : option Z :=
  row ← at_index board y; at_index row x.

Definition on_board (x y : Z) : Prop := 0 <= x < 10 /\ 0 <= y < 10.

(** The number of cells of a row that hold a ship. *)
Definition ones (l : list Z) : nat := length (List.filter (fun cell => cell =? 1) l).








(** [generateSalt] of the Merkle library, on the bytes that
    [crypto.getRandomValues] has put into the array of 31. *)
Definition generateSalt (bytes : list Z) : Z :=
  fold_left (fun salt byte => Z.lor (Z.shiftl salt 8) byte) bytes 0.

(** The same transaction context with another caller. *)
Definition as_caller (env : Env) (caller : Z) : Env :=
  {| caller_address := caller; block_timestamp := block_timestamp env;
     contract_address := contract_address env; strk_accepts := strk_accepts env |}.

(** Before the game is in progress, a commitment is missing: both while the
    game waits for an opponent, one at least while it waits for the
    commitments. *)
Definition roots_inv (g : Game) : Prop :=
  (status g = WaitingForOpponent -> player1_root g = 0 /\ player2_root g = 0) /\
  (status g = WaitingForCommitments -> player1_root g = 0 \/ player2_root g = 0).

(** ** A game played out

    A concrete hash, board and sequence of transactions on which the
    definitions above can be run: Alice creates game 1 with a stake of 1
    STRK, Bob joins, both commit the roots that [buildMerkleTree] gives for
    their boards, and they play the rounds below with the proofs that
    [generateProof] gives. *)

Definition toy_hash (a b : Z) : Z := (a * 31 + b * 17 + 7) mod 1009.

Definition demo_board : list (list Z) :=
  [ [1; 1; 1; 1; 1; 0; 0; 0; 0; 0];
    [0; 0; 0; 0; 0; 0; 0; 0; 0; 0];
    [1; 1; 1; 1; 0; 0; 0; 0; 0; 0];
    [0; 0; 0; 0; 0; 0; 0; 0; 0; 0];
    [1; 1; 1; 0; 0; 1; 1; 1; 0; 0];
    [0; 0; 0; 0; 0; 0; 0; 0; 0; 0];
    [1; 1; 1; 0; 0; 0; 0; 0; 0; 0];
    [0; 0; 0; 0; 0; 0; 0; 0; 0; 0];
    [1; 1; 0; 0; 0; 0; 0; 0; 0; 0];
    [0; 0; 0; 0; 0; 0; 0; 0; 0; 0] ].

Definition alice : Z := 11.
Definition bob : Z := 22.
Definition alice_salt : Z := 12345.
Definition bob_salt : Z := 67890.

Definition demo_root (salt : Z) : Z :=
  match buildMerkleTree toy_hash demo_board salt with
  | Some t => mt_root t
  | None => 0
  end.

Definition demo_proof (salt : Z) (x y : nat) : list Z :=
  match t ← buildMerkleTree toy_hash demo_board salt; generateProof (mt_tree t) x y with
  | Some p => mp_proof p
  | None => []
  end.

Definition demo_cell (x y : nat) : bool :=
  match board_cell demo_board x y with
  | Some 1 => true
  | _ => false
  end.

Definition demo_env (caller now : Z) : Env :=
  {| caller_address := caller; block_timestamp := now; contract_address := 999;
     strk_accepts := fun _ => true |}.


Definition demo_attack (caller now : Z) (x y : nat) : Env * Call :=
  (demo_env caller now, Attack 1 (Z.of_nat x) (Z.of_nat y)).

Definition demo_reveal (caller now salt : Z) (x y : nat) : Env * Call :=
  (demo_env caller now,
   Reveal 1 (Z.of_nat x) (Z.of_nat y) (demo_cell x y) salt (demo_proof salt x y)).

(** One round: Alice attacks [(x, y)] and Bob reveals it, then Bob attacks
    [(x', y')] and Alice reveals it. *)
Definition demo_round (now : Z) (x y x' y' : nat) : list (Env * Call) :=
  [ demo_attack alice now x y; demo_reveal bob (now + 1) bob_salt x y;
    demo_attack bob (now + 2) x' y'; demo_reveal alice (now + 3) alice_salt x' y' ].

Definition demo_setup : list (Env * Call) :=
  [ (demo_env alice 100, CreateGame 1000000000000000000);
    (demo_env bob 101, JoinGame 1);
    (demo_env alice 102, CommitBoard 1 (demo_root alice_salt));
    (demo_env bob 103, CommitBoard 1 (demo_root bob_salt)) ].

Definition demo_rounds : list (Env * Call) :=
  demo_round 110 0 0 0 1 ++ demo_round 120 1 0 1 1 ++ demo_round 130 2 0 2 1 ++
  demo_round 140 3 0 3 1 ++ demo_round 150 4 0 4 1 ++ demo_round 160 0 2 5 1.

(** Alice's seventh hit, and Bob's next attack, which Alice has not yet
    revealed. *)
Definition demo_last_moves : list (Env * Call) :=
  [ demo_attack alice 170 1 2; demo_reveal bob 171 bob_salt 1 2;
    demo_attack bob 172 6 1 ].

Definition world_of (calls : list (Env * Call)) : World :=
  default (constructor 99) (run_calls toy_hash (constructor 99) calls).

Definition demo_created : World := world_of (take 1 demo_setup).
Definition demo_joined : World := world_of (take 2 demo_setup).
Definition demo_one_root : World := world_of (take 3 demo_setup).
Definition demo_started : World := world_of demo_setup.
Definition demo_attacked : World := world_of (demo_setup ++ [demo_attack alice 110 0 0]).
Definition demo_revealed : World :=
  world_of (demo_setup ++ [demo_attack alice 110 0 0; demo_reveal bob 111 bob_salt 0 0]).
Definition demo_six_hits : World :=
  world_of (demo_setup ++ demo_rounds ++ [demo_attack alice 170 1 2]).
Definition demo_seven_hits : World := world_of (demo_setup ++ demo_rounds ++ demo_last_moves).

(** The two-leaf tree of [test_simple_merkle_proof]. *)
Definition simple_leaf0 : Z := compute_leaf toy_hash 0 0 0 703710.
Definition simple_leaf1 : Z := compute_leaf toy_hash 1 0 1 703710.
Definition simple_root : Z := toy_hash simple_leaf0 simple_leaf1.



(** Alice claims the prize, and Bob opens a second game. *)
Definition demo_finished : World :=
  world_of (demo_setup ++ demo_rounds ++ demo_last_moves ++
            [(demo_env alice 173, ClaimVictory 1)]).

Definition demo_second_game : World :=
  world_of (demo_setup ++ demo_rounds ++ demo_last_moves ++
            [(demo_env alice 173, ClaimVictory 1);
             (demo_env bob 174, CreateGame 2000000000000000000)]).

(** The first round played to its end. *)
Definition demo_round_one : World := world_of (demo_setup ++ demo_round 110 0 0 0 1).

(** The tree of [demo_board]. *)
Definition demo_tree (salt : Z) : MerkleTreeResult :=
  default {| mt_root := 0; mt_leaves := []; mt_tree := [] |}
          (buildMerkleTree toy_hash demo_board salt).

Definition demo_carrier : Ship := mkShip "carrier" "Carrier" 5 0 0 true true.

(** A defender who prepares a second answer for the cell (1, 0), which
    holds a ship: Bob commits the root of the board built with a salt that
    is the leaf of a miss at that cell, and Alice attacks the cell. *)
Definition cheat_salt : Z := compute_leaf toy_hash 1 0 0 777.

Definition cheat_tree : MerkleTreeResult :=
  default {| mt_root := 0; mt_leaves := []; mt_tree := [] |}
          (buildMerkleTree toy_hash demo_board cheat_salt).

Definition cheat_calls : list (Env * Call) :=
  [ (demo_env alice 100, CreateGame 1000000000000000000);
    (demo_env bob 101, JoinGame 1);
    (demo_env alice 102, CommitBoard 1 (demo_root alice_salt));
    (demo_env bob 103, CommitBoard 1 (mt_root cheat_tree));
    demo_attack alice 110 1 0 ].

Definition cheat_attacked : World := world_of cheat_calls.

(** * Properties *)

(** ** The commitment scheme *)

Section MerkleProperties.
Variable pedersen : Z -> Z -> Z.

(** *** Levels of the tree *)

Lemma next_level_length (l nl : list Z) :
  next_level pedersen l = Some nl -> length l = (2 * length nl)%nat.
Proof.
  revert nl. induction l as [l IH] using (induction_ltof1 _ (@length Z)).
  unfold ltof in IH. intros nl H.
  destruct l as [|a [|b rest]]; simpl in H; simplify_eq; [reflexivity|].
  destruct (next_level pedersen rest) as [nr|] eqn:E; simpl in H; simplify_eq.
  simpl. rewrite (IH rest) with (nl := nr); [lia | simpl; lia | assumption].
Qed.

Lemma next_level_even (l : list Z) (n : nat) :
  length l = (2 * n)%nat -> exists nl, next_level pedersen l = Some nl /\ length nl = n.
Proof.
  revert l. induction n as [|n IH]; intros l Hl.
  - destruct l; [|simpl in Hl; lia]. exists []. split; reflexivity.
  - destruct l as [|a [|b rest]]; simpl in Hl; try lia.
    destruct (IH rest) as (nr & Hnr & Hlen); [lia|].
    exists (pedersen a b :: nr). simpl. rewrite Hnr. simpl. split; [reflexivity | lia].
Qed.

(** The parent of the pair that contains position [i]. *)
Lemma next_level_lookup (l nl : list Z) (i : nat) :
  next_level pedersen l = Some nl -> (i < length l)%nat ->
  exists a b, l !! (2 * (i / 2))%nat = Some a /\ l !! (2 * (i / 2) + 1)%nat = Some b /\
              nl !! (i / 2)%nat = Some (pedersen a b).
Proof.
  revert nl i. induction l as [l IH] using (induction_ltof1 _ (@length Z)).
  unfold ltof in IH. intros nl i H Hi.
  destruct l as [|a [|b rest]]; simpl in H, Hi; simplify_eq; [lia|].
  destruct (next_level pedersen rest) as [nr|] eqn:E; simpl in H; simplify_eq.
  destruct i as [|[|i]].
  - exists a, b. repeat split.
  - exists a, b. repeat split.
  - destruct (IH rest ltac:(simpl; lia) nr i E ltac:(lia)) as (a' & b' & Ha & Hb & Hn).
    exists a', b'.
    replace (S (S i) / 2)%nat with (S (i / 2)).
    2:{ replace (S (S i)) with (i + 1 * 2)%nat by lia.
        rewrite Nat.div_add by lia. lia. }
    replace (2 * S (i / 2))%nat with (S (S (2 * (i / 2)))) by lia.
    simpl in *. repeat split; assumption.
Qed.

Lemma of_nat_parity (i : nat) : (Z.of_nat i mod 2 =? 0) = (i mod 2 =? 0)%nat.
Proof.
  change 2 with (Z.of_nat 2). rewrite <- Nat2Z.inj_mod.
  destruct (Nat.eqb_spec (i mod 2) 0) as [E|E].
  - rewrite E. reflexivity.
  - apply Z.eqb_neq. lia.
Qed.

Lemma of_nat_half (i : nat) : Z.of_nat i / 2 = Z.of_nat (i / 2).
Proof. change 2 with (Z.of_nat 2). symmetry. apply Nat2Z.inj_div. Qed.


Lemma proof_siblings_step (level next : list Z) (upper : list (list Z)) (i : nat)
    (sibling : Z) (rest : list Z) :
  level !! (if (i mod 2 =? 0)%nat then (i + 1)%nat else (i - 1)%nat) = Some sibling ->
  proof_siblings (next :: upper) (i / 2)%nat = Some rest ->
  proof_siblings (level :: next :: upper) i = Some (sibling :: rest).
Proof.
  intros Hs Hr.
  change (proof_siblings (level :: next :: upper) i) with
    (s ← level !! (if (i mod 2 =? 0)%nat then (i + 1)%nat else (i - 1)%nat);
     r ← proof_siblings (next :: upper) (i / 2)%nat;
     Some (s :: r)).
  rewrite Hs. cbn [mbind option_bind]. rewrite Hr. reflexivity.
Qed.

Lemma verify_fold_step (current_hash index sibling : Z) (rest : list Z) :
  verify_fold pedersen current_hash index (sibling :: rest) =
  verify_fold pedersen
    (if index mod 2 =? 0 then pedersen current_hash sibling
     else pedersen sibling current_hash) (index / 2) rest.
Proof. reflexivity. Qed.

(** Replaying the siblings that [proof_siblings] collects, by the parity
    rule of the verifier, leads from any leaf of the bottom level to the
    single node of the top level. *)
Lemma proof_replay (fuel : nat) :
  forall (l : list Z) (upper : list (list Z)) (i : nat) (leaf : Z),
    build_levels pedersen fuel l = Some upper ->
    l !! i = Some leaf ->
    exists proof root,
      proof_siblings (l :: upper) i = Some proof /\
      last (l :: upper) ≫= head = Some root /\
      verify_fold pedersen leaf (Z.of_nat i) proof = root /\
      length proof = length upper.
Proof.
  induction fuel as [|fuel IH]; intros l upper i leaf Hb Hi.
  - simpl in Hb. destruct (Nat.leb_spec (length l) 1) as [Hl|Hl]; [|discriminate].
    simplify_eq. apply lookup_lt_Some in Hi as Hlt.
    assert (i = 0%nat) by lia. subst i.
    exists [], leaf. simpl. destruct l; simpl in *; simplify_eq. auto.
  - simpl in Hb. destruct (Nat.leb_spec (length l) 1) as [Hl|Hl].
    + simplify_eq. apply lookup_lt_Some in Hi as Hlt.
      assert (i = 0%nat) by lia. subst i.
      exists [], leaf. simpl. destruct l; simpl in *; simplify_eq. auto.
    + destruct (next_level pedersen l) as [nl|] eqn:Hn; simpl in Hb; [|discriminate].
      destruct (build_levels pedersen fuel nl) as [rest|] eqn:Hr; simpl in Hb; [|discriminate].
      simplify_eq.
      apply lookup_lt_Some in Hi as Hlt.
      destruct (next_level_lookup l nl i Hn Hlt) as (a & b & Ha & Hb' & Hp).
      destruct (IH nl rest (i / 2)%nat (pedersen a b) Hr Hp) as (proof & root & Hs & Hroot & Hv & Hlen).
      pose proof (Nat.div_mod_eq i 2) as Hdm.
      assert (Hcases : (i mod 2 = 0 \/ i mod 2 = 1)%nat).
      { pose proof (Nat.mod_upper_bound i 2). lia. }
      destruct Hcases as [Hm|Hm].
      * exists (b :: proof), root.
        assert (Hi0 : i = (2 * (i / 2))%nat) by lia.
        rewrite <- Hi0 in Ha. rewrite Hi in Ha. simplify_eq.
        split; [|split; [exact Hroot|split]].
        -- apply proof_siblings_step; [|exact Hs].
           rewrite Hm. simpl. rewrite <- Hb'. f_equal. lia.
        -- rewrite verify_fold_step, of_nat_parity, Hm, of_nat_half. reflexivity.
        -- simpl. lia.
      * exists (a :: proof), root.
        assert (Hi0 : i = (2 * (i / 2) + 1)%nat) by lia.
        rewrite <- Hi0 in Hb'. rewrite Hi in Hb'. simplify_eq.
        split; [|split; [exact Hroot|split]].
        -- apply proof_siblings_step; [|exact Hs].
           rewrite Hm. simpl. rewrite <- Ha. f_equal. lia.
        -- rewrite verify_fold_step, of_nat_parity, Hm, of_nat_half. reflexivity.
        -- simpl. lia.
Qed.

(** The [while] loop ends: on a level of [2^d] nodes it runs [d] times, and
    the length of the level is fuel enough. *)
Lemma build_levels_total (d : nat) :
  forall (fuel : nat) (l : list Z),
    length l = (2 ^ d)%nat -> (d <= fuel)%nat ->
    exists upper, build_levels pedersen fuel l = Some upper /\ length upper = d.
Proof.
  induction d as [|d IH]; intros fuel l Hl Hf.
  - exists []. destruct fuel; simpl; rewrite Hl; simpl; auto.
  - destruct fuel as [|fuel]; [lia|].
    assert (Hgt : (1 < length l)%nat).
    { rewrite Hl. simpl. pose proof (Nat.pow_nonzero 2 d). lia. }
    simpl. destruct (Nat.leb_spec (length l) 1) as [Hle|_]; [lia|].
    destruct (next_level_even l (2 ^ d)) as (nl & Hn & Hnl); [rewrite Hl; simpl; lia|].
    destruct (IH fuel nl Hnl ltac:(lia)) as (rest & Hr & Hlen).
    exists (nl :: rest). rewrite Hn. simpl. rewrite Hr. simpl. split; [reflexivity | lia].
Qed.

(** *** The leaves of a board *)

Lemma mapM_seq {A : Type} (f : nat -> option A) (g : nat -> A) (n : nat) :
  forall a : nat,
    (forall x, (x < n)%nat -> f (a + x)%nat = Some (g (a + x)%nat)) ->
    mapM f (seq a n) = Some (map g (seq a n)).
Proof.
  induction n as [|n IH]; intros a Hf; [reflexivity|].
  cbn [seq map mapM]. cbn.
  pose proof (Hf 0%nat ltac:(lia)) as H0. rewrite Nat.add_0_r in H0. rewrite H0. cbn.
  rewrite (IH (S a)).
  - reflexivity.
  - intros x Hx. replace (S a + x)%nat with (a + S x)%nat by lia. apply Hf. lia.
Qed.

Lemma concat_lookup_uniform {A : Type} (m : nat) (rows : list (list A)) :
  forall (y x : nat) (row : list A) (v : A),
    Forall (fun r => length r = m) rows ->
    rows !! y = Some row -> row !! x = Some v ->
    concat rows !! (y * m + x)%nat = Some v.
Proof.
  induction rows as [|r rows IH]; intros y x row v Hall Hy Hx; [discriminate|].
  apply Forall_cons in Hall as [Hr Hrest].
  destruct y as [|y]; simpl in Hy.
  - simplify_eq. simpl. apply lookup_app_l_Some. exact Hx.
  - simpl concat. rewrite lookup_app_r by (rewrite Hr; lia).
    replace (S y * m + x - length r)%nat with (y * m + x)%nat by lia.
    eapply IH; eauto.
Qed.

Lemma concat_length_uniform {A : Type} (m : nat) (rows : list (list A)) :
  Forall (fun r => length r = m) rows -> length (concat rows) = (length rows * m)%nat.
Proof.
  induction 1 as [|r rows Hr _ IH]; [reflexivity|].
  simpl. rewrite length_app, IH, Hr. reflexivity.
Qed.

Lemma is_board_cell (board : list (list Z)) (x y : nat) :
  is_board board -> (x < 10)%nat -> (y < 10)%nat ->
  exists c, board_cell board x y = Some c.
Proof.
  intros [Hlen Hrows] Hx Hy. unfold board_cell.
  destruct (lookup_lt_is_Some_2 board y ltac:(lia)) as [row Hrow].
  rewrite Hrow. cbn.
  assert (Hr : length row = 10%nat).
  { rewrite Forall_forall in Hrows. apply Hrows. eapply list_elem_of_lookup_2. exact Hrow. }
  destruct (lookup_lt_is_Some_2 row x ltac:(lia)) as [c Hc]. eauto.
Qed.

(** The 100 leaves, in the order [index = y * 10 + x]. *)
Lemma board_leaves_spec (board : list (list Z)) (salt : Z) :
  is_board board ->
  exists leaves,
    board_leaves pedersen board salt = Some leaves /\
    length leaves = 100%nat /\
    forall x y c, (x < 10)%nat -> (y < 10)%nat -> board_cell board x y = Some c ->
                  leaves !! coordsToIndex x y = Some (computeLeaf pedersen x y c salt).
Proof.
  intros Hb.
  set (cell := fun x y => default 0 (board_cell board x y)).
  set (rowf := fun y => map (fun x => computeLeaf pedersen x y (cell x y) salt) (seq 0 10)).
  assert (Hrows : mapM (fun y =>
            mapM (fun x => cellValue ← board_cell board x y;
                           Some (computeLeaf pedersen x y cellValue salt)) (seq 0 10))
            (seq 0 10) = Some (map rowf (seq 0 10))).
  { apply mapM_seq. intros y Hy. change (0 + y)%nat with y. cbv beta. unfold rowf.
    apply mapM_seq. intros x Hx. change (0 + x)%nat with x. cbv beta.
    destruct (is_board_cell board x y Hb Hx Hy) as [c Hc].
    unfold cell. rewrite Hc. reflexivity. }
  exists (concat (map rowf (seq 0 10))).
  assert (Hall : Forall (fun r => length r = 10%nat) (map rowf (seq 0 10))).
  { apply Forall_forall. intros r Hr. apply list_elem_of_fmap in Hr as (y & -> & _).
    unfold rowf. rewrite length_map, length_seq. reflexivity. }
  split; [|split].
  - unfold board_leaves. rewrite Hrows. reflexivity.
  - rewrite (concat_length_uniform 10) by exact Hall.
    rewrite length_map, length_seq. reflexivity.
  - intros x y c Hx Hy Hc. unfold coordsToIndex.
    apply (concat_lookup_uniform 10) with (row := rowf y); [exact Hall| |].
    + change (map rowf (seq 0 10)) with (rowf <$> seq 0 10).
      rewrite list_lookup_fmap, lookup_seq_lt by lia. reflexivity.
    + unfold rowf.
      change (map ?f (seq 0 10)) with (f <$> seq 0 10).
      rewrite list_lookup_fmap, lookup_seq_lt by lia. simpl.
      unfold cell. rewrite Hc. reflexivity.
Qed.

Lemma pad_leaves_spec (leaves : list Z) :
  length leaves = 100%nat ->
  length (pad_leaves leaves) = 128%nat /\
  forall i v, leaves !! i = Some v -> pad_leaves leaves !! i = Some v.
Proof.
  intros Hl. unfold pad_leaves. split.
  - rewrite length_app, length_replicate, Hl. reflexivity.
  - intros i v Hi. apply lookup_app_l_Some. exact Hi.
Qed.

Lemma computeLeaf_compute_leaf (x y : nat) (c salt : Z) :
  computeLeaf pedersen x y c salt = compute_leaf pedersen (Z.of_nat x) (Z.of_nat y) c salt.
Proof. reflexivity. Qed.

Lemma coordsToIndex_coords_to_index (x y : nat) :
  Z.of_nat (coordsToIndex x y) = coords_to_index (Z.of_nat x) (Z.of_nat y).
Proof. unfold coordsToIndex, coords_to_index. lia. Qed.

Lemma indexToCoords_spec (index : nat) :
  (index < 100)%nat ->
  (fst (indexToCoords index) < 10)%nat /\ (snd (indexToCoords index) < 10)%nat /\
  coordsToIndex (fst (indexToCoords index)) (snd (indexToCoords index)) = index.
Proof.
  intros H. unfold indexToCoords, coordsToIndex. cbn [fst snd].
  pose proof (Nat.mod_upper_bound index 10 ltac:(lia)).
  pose proof (Nat.div_mod_eq index 10).
  assert (index / 10 < 10)%nat by (apply Nat.Div0.div_lt_upper_bound; lia).
  lia.
Qed.

(** What [buildMerkleTree] and [generateProof] return on a 10x10 board. *)
Lemma build_and_prove (board : list (list Z)) (salt : Z) (x y : nat) :
  is_board board -> (x < 10)%nat -> (y < 10)%nat ->
  exists t p c,
    buildMerkleTree pedersen board salt = Some t /\
    generateProof (mt_tree t) x y = Some p /\
    board_cell board x y = Some c /\
    mp_leafIndex p = coordsToIndex x y /\
    mp_leaf p = computeLeaf pedersen x y c salt /\
    length (mp_proof p) = 7%nat /\
    verify_fold pedersen (mp_leaf p) (Z.of_nat (coordsToIndex x y)) (mp_proof p) = mt_root t.
Proof.
  intros Hb Hx Hy.
  destruct (board_leaves_spec board salt Hb) as (leaves & Hleaves & Hlen & Hlook).
  destruct (pad_leaves_spec leaves Hlen) as (Hplen & Hplook).
  destruct (is_board_cell board x y Hb Hx Hy) as [c Hc].
  specialize (Hlook x y c Hx Hy Hc). apply Hplook in Hlook.
  destruct (build_levels_total 7 (length (pad_leaves leaves)) (pad_leaves leaves))
    as (upper & Hupper & Hulen); [rewrite Hplen; reflexivity | rewrite Hplen; lia|].
  destruct (proof_replay _ _ _ _ _ Hupper Hlook) as (proof & root & Hs & Hroot & Hv & Hpl).
  exists {| mt_root := root; mt_leaves := leaves; mt_tree := pad_leaves leaves :: upper |},
         {| mp_leaf := computeLeaf pedersen x y c salt; mp_proof := proof;
            mp_leafIndex := coordsToIndex x y |}, c.
  split; [|split; [|repeat split; simpl; try assumption; lia]].
  - unfold buildMerkleTree.
    destruct Hb as [Hbl Hbr].
    assert (Hchk : (length board =? 10)%nat && forallb (fun row => (length row =? 10)%nat) board = true).
    { apply andb_true_intro. split; [apply Nat.eqb_eq; exact Hbl|].
      apply forallb_forall. intros r Hr. apply Nat.eqb_eq.
      rewrite Forall_forall in Hbr. apply Hbr. apply list_elem_of_In. exact Hr. }
    rewrite Hchk. simpl negb. cbv iota.
    rewrite Hleaves. cbn [mbind option_bind]. rewrite Hupper. cbn [mbind option_bind].
    rewrite Hroot. reflexivity.
  - unfold generateProof. simpl mt_tree.
    change ((pad_leaves leaves :: upper) !! 0%nat) with (Some (pad_leaves leaves)).
    cbn [mbind option_bind]. rewrite Hlook. cbn [mbind option_bind].
    rewrite Hs. reflexivity.
Qed.

Lemma binary_cells_cell (board : list (list Z)) (x y : nat) (c : Z) :
  binary_cells board -> board_cell board x y = Some c -> c = 0 \/ c = 1.
Proof.
  unfold binary_cells, board_cell. intros Hb Hc.
  destruct (board !! y) as [row|] eqn:Hrow; [|discriminate]. simpl in Hc.
  rewrite Forall_forall in Hb.
  specialize (Hb row (list_elem_of_lookup_2 _ _ _ Hrow)).
  rewrite Forall_forall in Hb. apply Hb. eapply list_elem_of_lookup_2. exact Hc.
Qed.

(** C2.  Round trip of the commitment scheme: for every 10x10 board with
    cells in {0, 1}, every salt and every index below 100,
    [buildMerkleTree] returns a tree, [generateProof] returns a proof for
    the cell of that index, the leaf it returns is the leaf that the
    contract computes for that cell, and [verify_proof] accepts it against
    the root of the tree at that index. *)
Theorem merkle_roundtrip (board : list (list Z)) (salt : Z) (index : nat) :
  is_board board -> binary_cells board -> (index < 100)%nat ->
  exists t p cell,
    buildMerkleTree pedersen board salt = Some t /\
    generateProof (mt_tree t) (fst (indexToCoords index)) (snd (indexToCoords index)) = Some p /\
    board_cell board (fst (indexToCoords index)) (snd (indexToCoords index)) = Some cell /\
    (cell = 0 \/ cell = 1) /\
    mp_leafIndex p = index /\
    Z.of_nat index = coords_to_index (Z.of_nat (fst (indexToCoords index)))
                                     (Z.of_nat (snd (indexToCoords index))) /\
    mp_leaf p = compute_leaf pedersen (Z.of_nat (fst (indexToCoords index)))
                             (Z.of_nat (snd (indexToCoords index))) cell salt /\
    length (mp_proof p) = 7%nat /\
    verify_proof pedersen (mt_root t) (mp_leaf p) (mp_proof p) (Z.of_nat index) = true.
Proof.
  intros Hb Hbin Hi.
  destruct (indexToCoords_spec index Hi) as (Hx & Hy & Hidx).
  destruct (build_and_prove board salt _ _ Hb Hx Hy)
    as (t & p & c & Ht & Hp & Hc & Hli & Hleaf & Hlen & Hv).
  exists t, p, c. rewrite Hidx in Hli, Hv.
  split; [exact Ht|]. split; [exact Hp|]. split; [exact Hc|].
  split; [exact (binary_cells_cell _ _ _ _ Hbin Hc)|].
  split; [exact Hli|].
  split; [rewrite <- coordsToIndex_coords_to_index, Hidx; reflexivity|].
  split; [exact Hleaf|]. split; [exact Hlen|].
  unfold verify_proof. rewrite Hv. apply Z.eqb_refl.
Qed.

End MerkleProperties.


(** ** The state machine *)

(** *** Proof automation for the entry points *)

(** Unfold an entry point in [H] down to its chain of conditionals. *)
Ltac unfold_exec_in H :=
  cbv beta iota zeta delta
    [execute entry_point create_game join_game commit_board attack reveal
     claim_victory claim_timeout withdraw_house_funds transfer_ownership
     read_game write_game read_game_count write_game_count read_revealed
     write_revealed read_owner write_owner read_house_balance
     write_house_balance emit strk_call assert lift panic
     u8_add u64_add u64_sub u256_add u256_sub u256_mul checked
     mbind mret Exec_bind Exec_ret] in H.

Ltac innermost_cond b :=
  lazymatch b with
  | context [if ?c then _ else _] => innermost_cond c
  | _ => b
  end.

(** Split on the first condition that the computation in [H] tests. *)
Ltac split_cond_in H :=
  match type of H with
  | context [if ?b then _ else _] =>
      let c := innermost_cond b in
      destruct c eqn:?; cbv beta iota in H
  end.

(** Turn the boolean facts collected by the splits into propositions. *)
Ltac bool_facts :=
  repeat match goal with
  | H : negb _ = true |- _ => apply negb_true_iff in H
  | H : negb _ = false |- _ => apply negb_false_iff in H
  | H : _ && _ = true |- _ => apply andb_true_iff in H; destruct H
  | H : _ || _ = false |- _ => apply orb_false_iff in H; destruct H
  | H : _ && _ = false |- _ => apply andb_false_iff in H; destruct H
  | H : _ || _ = true |- _ => apply orb_true_iff in H; destruct H
  | H : (_ =? _) = true |- _ => apply Z.eqb_eq in H
  | H : (_ =? _) = false |- _ => apply Z.eqb_neq in H
  | H : (_ <? _) = true |- _ => apply Z.ltb_lt in H
  | H : (_ <? _) = false |- _ => apply Z.ltb_ge in H
  | H : (_ <=? _) = true |- _ => apply Z.leb_le in H
  | H : (_ <=? _) = false |- _ => apply Z.leb_gt in H
  | H : bool_decide _ = true |- _ => apply bool_decide_eq_true in H
  | H : bool_decide _ = false |- _ => apply bool_decide_eq_false in H
  end.

Ltac world_fields :=
  cbn [game_count games revealed_cells owner house_balance token_transfers events
       id player1 player2 player1_root player2_root stake_amount current_turn
       player1_hits player2_hits last_move_time status winner pending_attack_x
       pending_attack_y has_pending_attack
       set_player2 set_player1_root set_player2_root set_current_turn
       set_player1_hits set_player2_hits set_last_move_time set_status set_winner
       set_pending_attack_x set_pending_attack_y set_has_pending_attack] in *.

Ltac constants_in H :=
  unfold HITS_TO_WIN, HOUSE_FEE_BPS, DEFAULT_TIMEOUT, BOARD_SIZE, MIN_STAKE in H.

(** All the runs of the entry point in [E], one goal for each. *)
Ltac run_exec E :=
  unfold_exec_in E; constants_in E;
  repeat split_cond_in E; simplify_eq; world_fields; bool_facts.

(** Close a run whose collected facts contradict the hypotheses. *)
Ltac contra :=
  try discriminate; try congruence; try lia; try tauto;
  try (Z.to_euclidean_division_equations; lia).

Ltac zeqb_cases :=
  repeat match goal with
         | |- context [?a =? ?b] => destruct (Z.eqb_spec a b)
         | H : context [?a =? ?b] |- _ => destruct (Z.eqb_spec a b)
         end.

(** *** Reading what was written *)

Lemma games_read_insert (w : World) (k k' : Z) (g : Game) c r o h t e :
  games_read (mkWorld c (<[k := g]> (games w)) r o h t e) k' =
  if decide (k = k') then g else games_read w k'.
Proof.
  unfold games_read. simpl. rewrite lookup_insert. destruct (decide (k = k')); reflexivity.
Qed.

Lemma revealed_read_insert (w : World) (k : Z * Z * Z) (v : bool) c g o h t e :
  revealed_read (mkWorld c g (<[k := v]> (revealed_cells w)) o h t e) k = v.
Proof. unfold revealed_read. simpl. rewrite lookup_insert_eq. reflexivity. Qed.

Ltac read_written :=
  world_fields; repeat rewrite games_read_insert;
  repeat rewrite decide_True by reflexivity; world_fields.

(** *** Well-formed games *)


Lemma game_inv_count_mono (count count' key : Z) (g : Game) :
  count <= count' -> game_inv count key g -> game_inv count' key g.
Proof.
  intros Hle [Hd|(Hid & Hk & Hrest)]; [left; exact Hd|].
  right. split; [exact Hid|]. split; [lia | exact Hrest].
Qed.

(** A stored game that has left [WaitingForOpponent] exists, and has been
    joined by a second player. *)
Lemma valid_game_exists (w : World) (game_id : Z) :
  valid_game w game_id ->
  status (games_read w game_id) <> WaitingForOpponent ->
  id (games_read w game_id) <> 0.
Proof.
  intros [Hd|(Hid & Hk & _)] Hs.
  - rewrite Hd in Hs. simpl in Hs. congruence.
  - lia.
Qed.

Lemma valid_game_joined (w : World) (game_id : Z) :
  valid_game w game_id ->
  status (games_read w game_id) <> WaitingForOpponent ->
  player2 (games_read w game_id) <> 0 /\
  player2 (games_read w game_id) <> player1 (games_read w game_id).
Proof.
  intros [Hd|(_ & _ & _ & _ & Hj & _)] Hs.
  - rewrite Hd in Hs. simpl in Hs. congruence.
  - apply Hj. exact Hs.
Qed.

(** *** claim_victory *)

Lemma claim_victory_success (w : World) (env : Env) (game_id : Z) (game : Game) :
  games_read w game_id = game ->
  id game <> 0 ->
  status game = InProgress ->
  caller_address env = player1 game \/ caller_address env = player2 game ->
  HITS_TO_WIN <= hits_of game (caller_address env) ->
  victory_payable w env game ->
  execute (claim_victory env game_id) w = (Ok tt, after_claim_victory w env game_id).
Proof.
  intros <- Hid Hst Hplayer Hhits (Hs0 & Hs1 & Hh0 & Hh1 & Hacc).
  unfold after_claim_victory, hits_of, winner_payout_of, house_fee_of in *.
  constants_in Hhits. constants_in Hs1. constants_in Hh1. constants_in Hacc.
  unfold HOUSE_FEE_BPS.
  destruct (execute (claim_victory env game_id) w) as [r w'] eqn:E.
  run_exec E; contra.
  all: exfalso; destruct Hplayer; contra.
Qed.

Lemma claim_victory_below_threshold (w : World) (env : Env) (game_id : Z) (game : Game) :
  games_read w game_id = game ->
  id game <> 0 ->
  status game = InProgress ->
  caller_address env = player1 game \/ caller_address env = player2 game ->
  hits_of game (caller_address env) < HITS_TO_WIN ->
  execute (claim_victory env game_id) w = (Panic "Not enough hits to win", w).
Proof.
  intros <- Hid Hst Hplayer Hhits.
  unfold hits_of in Hhits. constants_in Hhits.
  destruct (execute (claim_victory env game_id) w) as [r w'] eqn:E.
  run_exec E; contra.
  all: exfalso; destruct Hplayer; contra.
Qed.

(** C6.  For an [InProgress] game and a caller who is one of its players,
    [claim_victory] fails with ['Not enough hits to win'] when the caller's
    hit counter is [HITS_TO_WIN - 1], and, when it is exactly [HITS_TO_WIN]
    (and the payout can be made), succeeds and leaves the game [Finished]
    with the caller as winner; [HITS_TO_WIN] is 7. *)
Theorem claim_victory_threshold (w : World) (env : Env) (game_id : Z) (game : Game) :
  games_read w game_id = game ->
  valid_game w game_id ->
  status game = InProgress ->
  caller_address env = player1 game \/ caller_address env = player2 game ->
  HITS_TO_WIN = 7 /\
  (hits_of game (caller_address env) = HITS_TO_WIN - 1 ->
   execute (claim_victory env game_id) w = (Panic "Not enough hits to win", w)) /\
  (hits_of game (caller_address env) = HITS_TO_WIN -> victory_payable w env game ->
   exists w', execute (claim_victory env game_id) w = (Ok tt, w') /\
              status (games_read w' game_id) = Finished /\
              winner (games_read w' game_id) = caller_address env).
Proof.
  intros Hg Hvalid Hst Hplayer.
  assert (Hid : id game <> 0).
  { subst game. apply valid_game_exists; [exact Hvalid | congruence]. }
  split; [reflexivity|]. split.
  - intros Hhits. apply claim_victory_below_threshold with (game := game); try assumption.
    rewrite Hhits. lia.
  - intros Hhits Hpay. exists (after_claim_victory w env game_id). split.
    + apply claim_victory_success with (game := game); try assumption.
      rewrite Hhits. lia.
    + unfold after_claim_victory. rewrite games_read_insert, decide_True by reflexivity.
      split; reflexivity.
Qed.

(** C7.  Payout arithmetic, concrete case: with a stake of 10^18 from each
    player and the fee of 100 basis points, a [claim_victory] that goes
    through computes the pot 2 * 10^18 and the fee 2 * 10^16, has the token
    pay exactly 1.98 * 10^18 to the winner, and adds exactly 2 * 10^16 to the
    house balance. *)
Theorem claim_victory_payout (w : World) (env : Env) (game_id : Z) (game : Game) :
  games_read w game_id = game ->
  valid_game w game_id ->
  status game = InProgress ->
  caller_address env = player1 game \/ caller_address env = player2 game ->
  HITS_TO_WIN <= hits_of game (caller_address env) ->
  stake_amount game = 1000000000000000000 ->
  0 <= house_balance w -> house_balance w + 20000000000000000 < 2 ^ 256 ->
  strk_accepts env (Transfer (caller_address env) 1980000000000000000) = true ->
  HOUSE_FEE_BPS = 100 /\
  u256_mul (stake_amount game) 2 = Ok 2000000000000000000 /\
  house_fee_of game = 20000000000000000 /\
  winner_payout_of game = 1980000000000000000 /\
  exists w', execute (claim_victory env game_id) w = (Ok tt, w') /\
             token_transfers w' =
               Transfer (caller_address env) 1980000000000000000 :: token_transfers w /\
             house_balance w' = house_balance w + 20000000000000000 /\
             status (games_read w' game_id) = Finished /\
             winner (games_read w' game_id) = caller_address env.
Proof.
  intros Hg Hvalid Hst Hplayer Hhits Hstake Hh0 Hh1 Hacc.
  assert (Hid : id game <> 0).
  { subst game. apply valid_game_exists; [exact Hvalid | congruence]. }
  assert (Hfee : house_fee_of game = 20000000000000000).
  { unfold house_fee_of. rewrite Hstake. reflexivity. }
  assert (Hpay : winner_payout_of game = 1980000000000000000).
  { unfold winner_payout_of. rewrite Hfee, Hstake. reflexivity. }
  split; [reflexivity|]. split; [rewrite Hstake; reflexivity|].
  split; [exact Hfee|]. split; [exact Hpay|].
  exists (after_claim_victory w env game_id). split.
  - apply claim_victory_success with (game := game); try assumption.
    unfold victory_payable. rewrite Hfee, Hpay, Hstake.
    repeat split; try assumption; try lia.
  - unfold after_claim_victory. rewrite Hg, Hfee, Hpay.
    cbn [token_transfers house_balance].
    rewrite games_read_insert, decide_True by reflexivity.
    repeat split; reflexivity.
Qed.

(** *** claim_timeout *)

Lemma claim_timeout_success (w : World) (env : Env) (game_id : Z) (game : Game) :
  games_read w game_id = game ->
  id game <> 0 ->
  status game = WaitingForCommitments \/ status game = InProgress ->
  caller_address env = player1 game \/ caller_address env = player2 game ->
  timed_out_player game (caller_address env) <> 0 ->
  DEFAULT_TIMEOUT <= block_timestamp env - last_move_time game < 2 ^ 64 ->
  0 <= stake_amount game * 2 < 2 ^ 256 ->
  strk_accepts env (Transfer (caller_address env) (timeout_pot game)) = true ->
  execute (claim_timeout env game_id) w = (Ok tt, after_claim_timeout w env game_id).
Proof.
  intros <- Hid Hst Hplayer Hto Hel Hstake Hacc.
  unfold after_claim_timeout, timeout_pot in *. constants_in Hel.
  destruct (execute (claim_timeout env game_id) w) as [r w'] eqn:E.
  run_exec E; contra.
  all: exfalso; destruct Hplayer; destruct Hst; contra.
Qed.

Lemma claim_timeout_early (w : World) (env : Env) (game_id : Z) (game : Game) :
  games_read w game_id = game ->
  id game <> 0 ->
  status game = WaitingForCommitments \/ status game = InProgress ->
  caller_address env = player1 game \/ caller_address env = player2 game ->
  timed_out_player game (caller_address env) <> 0 ->
  block_timestamp env - last_move_time game < DEFAULT_TIMEOUT ->
  execute (claim_timeout env game_id) w =
    (Panic (if 0 <=? block_timestamp env - last_move_time game
            then "Timeout not reached" else "u64_sub Overflow"), w).
Proof.
  intros <- Hid Hst Hplayer Hto Hel. constants_in Hel.
  destruct (execute (claim_timeout env game_id) w) as [r w'] eqn:E.
  run_exec E; contra.
  all: try (destruct (Z.leb_spec 0 (block_timestamp env - last_move_time (games_read w' game_id)));
            contra; reflexivity).
  all: exfalso; destruct Hplayer; destruct Hst; contra.
Qed.

Lemma timeout_pot_joined (game : Game) :
  player2 game <> 0 -> timeout_pot game = stake_amount game * 2.
Proof.
  intros H. unfold timeout_pot. apply Z.eqb_neq in H. rewrite H, andb_false_r. reflexivity.
Qed.

(** C8.  The timeout boundary is inclusive.  For a game in the commitment
    phase or in progress, a caller who is one of its players and a
    counterparty that has timed out ([timed_out_player] is not zero):
    [claim_timeout] fails whenever [now - last_move_time] is below
    [DEFAULT_TIMEOUT] (with ['Timeout not reached'] when the clock has not
    gone backwards), and succeeds when it equals [DEFAULT_TIMEOUT] exactly
    (and the payout can be made). *)
Theorem claim_timeout_boundary (w : World) (env : Env) (game_id : Z) (game : Game) :
  games_read w game_id = game ->
  valid_game w game_id ->
  status game = WaitingForCommitments \/ status game = InProgress ->
  caller_address env = player1 game \/ caller_address env = player2 game ->
  timed_out_player game (caller_address env) <> 0 ->
  DEFAULT_TIMEOUT = 86400 /\
  (block_timestamp env - last_move_time game < DEFAULT_TIMEOUT ->
   exists msg, execute (claim_timeout env game_id) w = (Panic msg, w) /\
               (last_move_time game <= block_timestamp env -> msg = "Timeout not reached")) /\
  (block_timestamp env - last_move_time game = DEFAULT_TIMEOUT ->
   0 <= stake_amount game * 2 < 2 ^ 256 ->
   strk_accepts env (Transfer (caller_address env) (stake_amount game * 2)) = true ->
   exists w', execute (claim_timeout env game_id) w = (Ok tt, w') /\
              status (games_read w' game_id) = Forfeited /\
              winner (games_read w' game_id) = caller_address env /\
              token_transfers w' =
                Transfer (caller_address env) (stake_amount game * 2) :: token_transfers w).
Proof.
  intros Hg Hvalid Hst Hplayer Hto.
  assert (Hnw : status game <> WaitingForOpponent) by (destruct Hst; congruence).
  assert (Hid : id game <> 0) by (subst game; apply valid_game_exists; assumption).
  assert (Hp2 : player2 game <> 0) by (subst game; apply valid_game_joined; assumption).
  split; [reflexivity|]. split.
  - intros Hel. eexists. split; [apply claim_timeout_early with (game := game); assumption|].
    intros H0. assert (H1 : 0 <= block_timestamp env - last_move_time game) by lia.
    apply Z.leb_le in H1. rewrite H1. reflexivity.
  - intros Hel Hstake Hacc. exists (after_claim_timeout w env game_id). split.
    + apply claim_timeout_success with (game := game); try assumption.
      * rewrite Hel. unfold DEFAULT_TIMEOUT. lia.
      * rewrite timeout_pot_joined by assumption. exact Hacc.
    + unfold after_claim_timeout. rewrite Hg.
      rewrite games_read_insert, decide_True by reflexivity.
      rewrite timeout_pot_joined by assumption. repeat split; reflexivity.
Qed.

(** *** commit_board *)

(** C3.  For a game in [WaitingForCommitments] and a caller who is one of
    its players: when the caller's root is still zero, [commit_board]
    records the root, and the game is [InProgress] afterwards exactly when
    both roots are then non-zero (it stays [WaitingForCommitments]
    otherwise); when the caller's root is already non-zero, [commit_board]
    fails with ['Already committed'] and nothing changes. *)
Theorem commit_board_once (w : World) (env : Env) (game_id merkle_root : Z) (game : Game) :
  games_read w game_id = game ->
  valid_game w game_id ->
  status game = WaitingForCommitments ->
  caller_address env = player1 game \/ caller_address env = player2 game ->
  (root_of game (caller_address env) = 0 ->
   exists w', execute (commit_board env game_id merkle_root) w = (Ok tt, w') /\
     root_of (games_read w' game_id) (caller_address env) = merkle_root /\
     root_of (games_read w' game_id) (opponent_of game (caller_address env)) =
       root_of game (opponent_of game (caller_address env)) /\
     (status (games_read w' game_id) = InProgress <->
        player1_root (games_read w' game_id) <> 0 /\
        player2_root (games_read w' game_id) <> 0) /\
     (status (games_read w' game_id) <> InProgress ->
        status (games_read w' game_id) = WaitingForCommitments)) /\
  (root_of game (caller_address env) <> 0 ->
   execute (commit_board env game_id merkle_root) w = (Panic "Already committed", w)).
Proof.
  intros <- Hvalid Hst Hplayer.
  assert (Hid : id (games_read w game_id) <> 0).
  { apply valid_game_exists; [exact Hvalid | congruence]. }
  assert (Hne : player2 (games_read w game_id) <> player1 (games_read w game_id)).
  { apply valid_game_joined; [exact Hvalid | congruence]. }
  unfold root_of, opponent_of. split.
  - intros Hroot.
    destruct (execute (commit_board env game_id merkle_root) w) as [r w'] eqn:E.
    run_exec E; contra.
    all: try (eexists; split; [reflexivity|]; read_written; zeqb_cases;
              intuition (try discriminate; try congruence; try lia); fail).
    all: try (exfalso; destruct Hplayer; zeqb_cases; contra).
  - intros Hroot.
    destruct (execute (commit_board env game_id merkle_root) w) as [r w'] eqn:E.
    run_exec E; contra.
    all: try (exfalso; destruct Hplayer; zeqb_cases; contra).
Qed.

(** *** The invariant of the stored games *)

Section Contract.

Variable pedersen : Z -> Z -> Z.

(** One of the six calls on a game: the record it writes is well formed. *)
Ltac game_case H Hinv w game_id :=
  repeat split_cond_in H; simplify_eq; bool_facts;
  let Hc := fresh "Hc" in let Hg := fresh "Hg" in let Hold := fresh "Hold" in
  let key := fresh "key" in
  destruct Hinv as [Hc Hg]; pose proof (Hg game_id) as Hold; unfold valid_game in Hold;
  (split; [world_fields; lia|]);
  intros key; unfold valid_game; world_fields;
  repeat rewrite games_read_insert;
  (destruct (decide (game_id = key)) as [<-|?]; [|apply Hg]);
  (destruct Hold as [Hold|Hold];
   [rewrite Hold in *; world_fields; simpl in *; congruence|]);
  right; world_fields;
  destruct (status (games_read w game_id)) eqn:?; try discriminate;
  unfold BOARD_SIZE in *;
  intuition (try discriminate; try congruence; try lia).

Lemma world_inv_step (w w' : World) (env : Env) (c : Call) :
  world_inv w -> well_typed env c ->
  execute (entry_point pedersen env c) w = (Ok tt, w') ->
  world_inv w'.
Proof.
  intros Hinv [Hcaller Htyped] H.
  destruct c; unfold_exec_in H.
  - repeat split_cond_in H; simplify_eq. bool_facts.
    destruct Hinv as [Hc Hg].
    split; [world_fields; lia|].
    intros key. unfold valid_game. world_fields. rewrite games_read_insert.
    destruct (decide (game_count w + 1 = key)) as [<-|Hne].
    + right. world_fields. repeat split; intros; try lia; try congruence.
    + apply game_inv_count_mono with (count := game_count w); [lia|]. apply Hg.
  - game_case H Hinv w game_id.
  - game_case H Hinv w game_id.
  - game_case H Hinv w game_id.
  - game_case H Hinv w game_id.
  - game_case H Hinv w game_id.
  - game_case H Hinv w game_id.
  - repeat split_cond_in H; simplify_eq. exact Hinv.
  - repeat split_cond_in H; simplify_eq. exact Hinv.
Qed.

(** Every world that the contract can be in satisfies the invariant. *)
Lemma reachable_world_inv (w : World) : reachable pedersen w -> world_inv w.
Proof.
  induction 1 as [o|w w' env c _ IH Hty Hex].
  - split; [simpl; lia|]. intros key. left. reflexivity.
  - eapply world_inv_step; eauto.
Qed.

Lemma reachable_valid_game (w : World) (game_id : Z) :
  reachable pedersen w -> valid_game w game_id.
Proof. intros H. apply reachable_world_inv in H. apply H. Qed.

Lemma run_calls_reachable (calls : list (Env * Call)) :
  forall w w',
    reachable pedersen w ->
    Forall (fun ec => well_typed (fst ec) (snd ec)) calls ->
    run_calls pedersen w calls = Some w' ->
    reachable pedersen w'.
Proof.
  induction calls as [|[env c] rest IH]; intros w w' Hr Hty Hrun; simpl in Hrun.
  - congruence.
  - apply Forall_cons in Hty as [Hty Hrest].
    destruct (execute (entry_point pedersen env c) w) as [[[]|msg] w1] eqn:E; [|discriminate].
    eapply IH; [|exact Hrest|exact Hrun].
    eapply reachable_call; eauto.
Qed.

(** *** Atomicity *)


(** *** reveal *)

(** C4.  A [reveal] that goes through was called by the defender of the
    pending attack at [(x, y)]; it marks the cell [coords_to_index x y] as
    revealed for the defender, adds 1 to the hit counter of the attacker
    (the other player) when [is_hit] and nothing otherwise, leaves the
    defender's own counter alone, clears the pending attack, and gives the
    turn to the defender. *)
Theorem reveal_effect (w w' : World) (env : Env) (game_id x y : Z) (is_hit : bool)
    (salt : Z) (proof : list Z) (game game' : Game) (defender attacker : Z) :
  games_read w game_id = game ->
  games_read w' game_id = game' ->
  caller_address env = defender ->
  opponent_of game defender = attacker ->
  valid_game w game_id ->
  execute (reveal pedersen env game_id x y is_hit salt proof) w = (Ok tt, w') ->
  (has_pending_attack game = true /\ pending_attack_x game = x /\ pending_attack_y game = y /\
   current_turn game = defender) /\
  (attacker <> defender /\ (attacker = player1 game \/ attacker = player2 game) /\
   (defender = player1 game \/ defender = player2 game)) /\
  revealed_read w' (game_id, defender, coords_to_index x y) = true /\
  hits_of game' attacker = hits_of game attacker + (if is_hit then 1 else 0) /\
  hits_of game' defender = hits_of game defender /\
  has_pending_attack game' = false /\
  current_turn game' = defender.
Proof.
  intros <- <- <- <- Hvalid E.
  unfold hits_of, opponent_of.
  run_exec E; contra.
  all: destruct Hvalid as [Hd|(Hid & Hk & Hp1 & Hwfo & Hnwfo & Hwfc & Hip & Hpend)];
    [rewrite Hd in *; simpl in *; congruence|].
  all: destruct (Hip ltac:(assumption)) as (Hturn & _);
       destruct (Hnwfo ltac:(congruence)) as (_ & Hne).
  all: read_written; rewrite revealed_read_insert.
  all: zeqb_cases; intuition (try discriminate; try congruence; try lia).
Qed.

(** C1, as the code has it.  [verify_proof] accepts exactly when the replay
    of the siblings from the leaf gives the root, whatever the index and
    the number of siblings.  Cells outside of the board are kept out by
    [attack]: in a well-formed game, a [reveal] that goes through has run
    the verifier on the defender's root at the index of a cell of the
    board, [0 <= index < 100]. *)
Theorem reveal_verifies_board_cell (w w' : World) (env : Env) (game_id x y : Z)
    (is_hit : bool) (salt : Z) (proof : list Z) (game : Game) :
  games_read w game_id = game ->
  valid_game w game_id ->
  execute (reveal pedersen env game_id x y is_hit salt proof) w = (Ok tt, w') ->
  (0 <= x < 10 /\ 0 <= y < 10 /\ 0 <= coords_to_index x y < 100) /\
  verify_proof pedersen (root_of game (caller_address env))
    (compute_leaf pedersen x y (if is_hit then 1 else 0) salt) proof
    (coords_to_index x y) = true /\
  (forall root leaf siblings index,
     verify_proof pedersen root leaf siblings index = true <->
     verify_fold pedersen leaf index siblings = root).
Proof.
  intros <- Hvalid E. unfold root_of.
  split; [|split].
  - run_exec E; contra.
    all: destruct Hvalid as [Hd|(Hid & Hk & Hp1 & Hwfo & Hnwfo & Hwfc & Hip & Hpend)];
      [rewrite Hd in *; simpl in *; congruence|].
    all: destruct (Hpend ltac:(assumption)) as (Hx & Hy);
         unfold coords_to_index, BOARD_SIZE in *; lia.
  - run_exec E; contra.
  - intros root leaf siblings index. unfold verify_proof. apply Z.eqb_eq.
Qed.

(** *** What can touch a game *)

(** A call leaves alone every game but its own; [create_game] leaves alone
    all the games that exist. *)
Lemma other_games_untouched (w w' : World) (env : Env) (c : Call) (r : Result unit)
    (game_id : Z) :
  valid_game w game_id -> id (games_read w game_id) <> 0 ->
  game_of_call c <> Some game_id ->
  execute (entry_point pedersen env c) w = (r, w') ->
  games_read w' game_id = games_read w game_id.
Proof.
  intros Hvalid Hc Hother E.
  destruct c; simpl in Hother; run_exec E;
    try reflexivity; read_written;
    try (rewrite decide_False by congruence; reflexivity).
  destruct Hvalid as [Hd|(Hid & Hk & _)].
  - rewrite Hd in Hc. simpl in Hc. congruence.
  - rewrite decide_False by lia. reflexivity.
Qed.

(** C9, as the code has it.  While a game has a pending attack, a call
    either leaves its record unchanged, or is a [reveal] on it, or is a
    [claim_timeout] on it with the deadline passed, or is a [claim_victory] on
    it by a caller whose hit counter has reached [HITS_TO_WIN]
    ([claim_victory] does not look at the pending attack).  A second
    [attack] on it fails with ['Pending attack exists'] and changes
    nothing. *)
Theorem pending_attack_guard (w w' : World) (env : Env) (c : Call) (r : Result unit)
    (game_id : Z) (game : Game) :
  games_read w game_id = game ->
  valid_game w game_id ->
  has_pending_attack game = true ->
  execute (entry_point pedersen env c) w = (r, w') ->
  (games_read w' game_id = game \/
   (exists x y is_hit salt proof, c = Reveal game_id x y is_hit salt proof) \/
   (c = ClaimTimeout game_id /\
    DEFAULT_TIMEOUT <= block_timestamp env - last_move_time game) \/
   (c = ClaimVictory game_id /\ HITS_TO_WIN <= hits_of game (caller_address env))) /\
  (forall x y, c = Attack game_id x y ->
               status game = InProgress -> r = Panic "Pending attack exists" /\ w' = w).
Proof.
  intros <- Hvalid Hpend E.
  assert (Hid : id (games_read w game_id) <> 0).
  { destruct Hvalid as [Hd|(Hid & Hk & _)]; [rewrite Hd in Hpend; discriminate | lia]. }
  assert (Hst : status (games_read w game_id) <> WaitingForOpponent /\
                status (games_read w game_id) <> WaitingForCommitments).
  { destruct Hvalid as [Hd|(_ & _ & _ & Hwfo & _ & Hwfc & _)];
      [rewrite Hd in Hpend; discriminate|].
    split; intros Hs; [apply Hwfo in Hs as [_ Hs] | apply Hwfc in Hs]; congruence. }
  destruct Hst as [Hst1 Hst2].
  split.
  - destruct (decide (game_of_call c = Some game_id)) as [Hc|Hc];
      [|left; eapply other_games_untouched; eauto].
    destruct c; simpl in Hc; simplify_eq.
    + left. run_exec E; contra.
    + left. run_exec E; contra.
    + left. run_exec E; contra.
    + right. left. eauto 8.
    + unfold hits_of. run_exec E; try (left; reflexivity).
      all: right; right; right; split; [reflexivity|]; unfold HITS_TO_WIN; contra.
    + run_exec E; try (left; reflexivity).
      all: right; right; left; split; [reflexivity|]; unfold DEFAULT_TIMEOUT; contra.
  - intros x y -> Hip. run_exec E; contra. all: split; reflexivity.
Qed.

(** *** A game that nobody joins *)

(** C10.  On a game that is still [WaitingForOpponent], [claim_timeout]
    always fails, and so does every call on that game other than a
    [join_game] by somebody else: its creator has no call that pays the
    stake back.  Hence a [claim_timeout] that goes through is on a game that
    a second player has joined; the pot is not the single stake, and the
    token pays exactly twice the stake to the caller. *)
Theorem claim_timeout_needs_opponent (w : World) (game_id : Z) (game : Game) :
  games_read w game_id = game ->
  valid_game w game_id ->
  (status game = WaitingForOpponent ->
   (forall env, exists msg, execute (claim_timeout env game_id) w = (Panic msg, w)) /\
   (forall env c,
      game_of_call c = Some game_id ->
      (c = JoinGame game_id -> caller_address env = player1 game) ->
      exists msg, execute (entry_point pedersen env c) w = (Panic msg, w))) /\
  (forall env w',
     execute (claim_timeout env game_id) w = (Ok tt, w') ->
     status game <> WaitingForOpponent /\
     player2 game <> 0 /\
     timeout_pot game = 2 * stake_amount game /\
     token_transfers w' =
       Transfer (caller_address env) (2 * stake_amount game) :: token_transfers w).
Proof.
  intros <- Hvalid. split; [intros Hst; split|].
  - intros env.
    destruct (execute (claim_timeout env game_id) w) as [r w'] eqn:E.
    run_exec E; contra; eauto.
  - intros env c Hc Hjoin.
    destruct (execute (entry_point pedersen env c) w) as [r w'] eqn:E.
    destruct c; simpl in Hc; simplify_eq.
    + specialize (Hjoin eq_refl). run_exec E; contra; eauto.
    + run_exec E; contra; eauto.
    + run_exec E; contra; eauto.
    + run_exec E; contra; eauto.
    + run_exec E; contra; eauto.
    + run_exec E; contra; eauto.
  - intros env w' E.
    assert (Hnw : status (games_read w game_id) <> WaitingForOpponent).
    { run_exec E; contra. }
    destruct (valid_game_joined w game_id Hvalid Hnw) as [Hp2 _].
    split; [exact Hnw|]. split; [exact Hp2|].
    rewrite (timeout_pot_joined _ Hp2). split; [lia|].
    run_exec E; contra.
    all: world_fields; f_equal; f_equal; lia.
Qed.

End Contract.

(** * Further properties *)

(** ** The life of a game *)

Lemma revealed_read_insert_other (w : World) (k k' : Z * Z * Z) c g o h t e :
  revealed_read (mkWorld c g (<[k := true]> (revealed_cells w)) o h t e) k' = true <->
  k = k' \/ revealed_read w k' = true.
Proof.
  unfold revealed_read. simpl. rewrite lookup_insert.
  destruct (decide (k = k')) as [->|Hne]; simpl; [tauto|].
  split; [tauto|]. intros [H|H]; [congruence | exact H].
Qed.

Lemma games_read_same (w : World) (k : Z) c r o h t e :
  games_read (mkWorld c (games w) r o h t e) k = games_read w k.
Proof. reflexivity. Qed.

Ltac at_key k :=
  read_written; repeat rewrite games_read_same;
  repeat match goal with
         | |- context [decide (?a = k)] => destruct (decide (a = k)) as [<-|?]
         | H : context [decide (?a = k)] |- _ => destruct (decide (a = k)) as [<-|?]
         end.

(** Unpack the invariant of the game under [k]: it is the never-written
    record, or a game with its facts. *)
Ltac use_valid Hvalid :=
  let Hd := fresh "Hd" in
  destruct Hvalid as [Hd|(?Hid & ?Hk & ?Hp1 & ?Hwfo & ?Hnwfo & ?Hwfc & ?Hip & ?Hpend)];
  [try (rewrite Hd in *; simpl in *)|].

Section GameLifecycle.
Variable pedersen : Z -> Z -> Z.

(** The identity of an existing game is fixed: no call changes its id, its
    creator or its stake, nor its opponent once there is one. *)
Lemma call_keeps_identity (w w' : World) (env : Env) (c : Call) (r : Result unit) (k : Z) :
  valid_game w k ->
  id (games_read w k) <> 0 ->
  execute (entry_point pedersen env c) w = (r, w') ->
  id (games_read w' k) = id (games_read w k) /\
  player1 (games_read w' k) = player1 (games_read w k) /\
  stake_amount (games_read w' k) = stake_amount (games_read w k) /\
  (player2 (games_read w k) <> 0 -> player2 (games_read w' k) = player2 (games_read w k)).
Proof.
  intros Hvalid Hid E.
  destruct c; run_exec E; at_key k;
    try (repeat split; intros; try reflexivity; try congruence; fail).
  all: use_valid Hvalid; try congruence; try lia.
  all: repeat split; intros; world_fields; try reflexivity; try congruence.
  all: try (destruct (Hwfo ltac:(assumption)); congruence).
Qed.

(** A cell that has been revealed stays revealed. *)
Lemma revealed_stays (w w' : World) (env : Env) (c : Call) (r : Result unit)
    (key : Z * Z * Z) :
  revealed_read w key = true ->
  execute (entry_point pedersen env c) w = (r, w') ->
  revealed_read w' key = true.
Proof.
  intros Hrev E.
  destruct c; run_exec E; try assumption.
  all: unfold revealed_read in *; world_fields; rewrite lookup_insert;
       case_decide; simpl; auto.
Qed.

(** A [reveal] that goes through is by a player of a game in progress, and
    marks the cell of the caller's board as revealed. *)
Lemma reveal_marks_cell (w w' : World) (env : Env) (game_id x y : Z) (is_hit : bool)
    (salt : Z) (proof : list Z) :
  valid_game w game_id ->
  execute (reveal pedersen env game_id x y is_hit salt proof) w = (Ok tt, w') ->
  revealed_read w' (game_id, caller_address env, coords_to_index x y) = true /\
  status (games_read w game_id) = InProgress /\
  id (games_read w game_id) <> 0 /\
  (caller_address env = player1 (games_read w game_id) \/
   caller_address env = player2 (games_read w game_id)).
Proof.
  intros Hvalid E.
  run_exec E; contra.
  all: use_valid Hvalid; [congruence|].
  all: destruct (Hip ltac:(assumption)) as (Hturn & _).
  all: repeat split; try assumption.
  all: try (unfold revealed_read; simpl; rewrite lookup_insert_eq; reflexivity).
  all: destruct Hturn; [left|right]; congruence.
Qed.

(** X1.  The phases of a game only move forward.  A call leaves the phase
    of a game as it is, or moves it along one of five edges, each by one
    entry point on that game: [join_game] from waiting for an opponent to
    waiting for the commitments, [commit_board] from there to in progress,
    [claim_victory] from in progress to finished, [claim_timeout] from
    waiting for the commitments or in progress to forfeited. *)
Theorem status_edges (w w' : World) (env : Env) (c : Call) (r : Result unit) (k : Z)
    (game game' : Game) :
  games_read w k = game -> games_read w' k = game' ->
  valid_game w k ->
  execute (entry_point pedersen env c) w = (r, w') ->
  status game' = status game \/
  (status game = WaitingForOpponent /\ status game' = WaitingForCommitments /\
   c = JoinGame k) \/
  (status game = WaitingForCommitments /\ status game' = InProgress /\
   exists root, c = CommitBoard k root) \/
  (status game = InProgress /\ status game' = Finished /\ c = ClaimVictory k) \/
  ((status game = WaitingForCommitments \/ status game = InProgress) /\
   status game' = Forfeited /\ c = ClaimTimeout k).
Proof.
  intros <- <- Hvalid E.
  destruct c; run_exec E; try (left; reflexivity); at_key k; try (left; reflexivity).
  all: try (left; congruence).
  all: try (right; left; repeat split; congruence).
  all: try (right; right; left; repeat split; eauto; congruence).
  all: try (right; right; right; left; repeat split; congruence).
  all: try (right; right; right; right; repeat split; auto; congruence).
  all: use_valid Hvalid; try (left; reflexivity); try lia.
Qed.

(** X2.  A game that is finished or forfeited is never changed again:
    whatever the call, and whether it succeeds or fails, the record of the
    game stays as it is. *)
Theorem terminal_game_frozen (w w' : World) (env : Env) (c : Call) (r : Result unit) (k : Z) :
  valid_game w k ->
  terminal (status (games_read w k)) ->
  execute (entry_point pedersen env c) w = (r, w') ->
  games_read w' k = games_read w k.
Proof.
  intros Hvalid Hterm E. unfold terminal in Hterm.
  destruct c; run_exec E; try reflexivity; at_key k; try reflexivity.
  all: try (exfalso; destruct Hterm; congruence).
  use_valid Hvalid; [destruct Hterm; discriminate | lia].
Qed.

(** X3.  What a call can do to the record of an existing game: the id, the
    creator and the stake stay; the opponent and each committed root stay
    once they are set; each hit counter stays or goes up by one, and no call
    raises both. *)
Theorem game_fields_stable (w w' : World) (env : Env) (c : Call) (r : Result unit) (k : Z)
    (game game' : Game) :
  games_read w k = game -> games_read w' k = game' ->
  valid_game w k ->
  id game <> 0 ->
  execute (entry_point pedersen env c) w = (r, w') ->
  (id game' = id game /\ player1 game' = player1 game /\
   stake_amount game' = stake_amount game) /\
  (player2 game <> 0 -> player2 game' = player2 game) /\
  (player1_root game <> 0 -> player1_root game' = player1_root game) /\
  (player2_root game <> 0 -> player2_root game' = player2_root game) /\
  (player1_hits game <= player1_hits game' <= player1_hits game + 1) /\
  (player2_hits game <= player2_hits game' <= player2_hits game + 1) /\
  (player1_hits game' + player2_hits game' <= player1_hits game + player2_hits game + 1).
Proof.
  intros <- <- Hvalid Hid E.
  destruct c; run_exec E; at_key k;
    try (repeat split; intros; try reflexivity; try lia; try congruence; fail).
  all: use_valid Hvalid; try congruence; try lia.
  all: repeat split; intros; world_fields; try reflexivity; try lia; try congruence.
  all: try (destruct (Hwfo ltac:(assumption)); congruence).
Qed.

(** A property kept by every transaction is kept by a sequence of them. *)
Lemma run_calls_preserves (P : World -> Prop) :
  (forall w w' env c,
     world_inv w -> P w -> well_typed env c ->
     execute (entry_point pedersen env c) w = (Ok tt, w') -> P w') ->
  forall calls w w',
    world_inv w -> P w ->
    Forall (fun ec => well_typed (fst ec) (snd ec)) calls ->
    run_calls pedersen w calls = Some w' ->
    P w' /\ world_inv w'.
Proof.
  intros Hstep. induction calls as [|[env c] rest IH]; intros w w' Hinv HP Hty Hrun;
    simpl in Hrun.
  - simplify_eq. auto.
  - apply Forall_cons in Hty as [Hty Hrest]. simpl in Hty.
    destruct (execute (entry_point pedersen env c) w) as [[[]|msg] w1] eqn:E; [|discriminate].
    apply (IH w1 w'); auto.
    + eapply world_inv_step; eauto.
    + eapply Hstep; eauto.
Qed.

(** X4.  No cell is attacked twice.  Once a player has revealed the cell
    [(x, y)] of their board, then after any further successful calls no
    attack of the opponent, or of anyone but the revealer, on that cell of
    that game goes through. *)
Theorem no_second_attack_on_cell (calls : list (Env * Call)) (w0 w1 w2 : World)
    (env0 : Env) (game_id x y : Z) (is_hit : bool) (salt : Z) (proof : list Z) :
  world_inv w0 ->
  execute (reveal pedersen env0 game_id x y is_hit salt proof) w0 = (Ok tt, w1) ->
  Forall (fun ec => well_typed (fst ec) (snd ec)) calls ->
  run_calls pedersen w1 calls = Some w2 ->
  forall env,
    caller_address env <> caller_address env0 ->
    exists msg, execute (attack env game_id x y) w2 = (Panic msg, w2).
Proof.
  intros Hinv0 Hrev Hty Hrun env Hother.
  set (D := caller_address env0) in *.
  pose (P := fun w : World =>
    revealed_read w (game_id, D, coords_to_index x y) = true /\
    id (games_read w game_id) <> 0 /\
    (D = player1 (games_read w game_id) \/ D = player2 (games_read w game_id)) /\
    player2 (games_read w game_id) <> 0).
  assert (Hinv1 : world_inv w1).
  { destruct (decide (caller_address env0 = 0)) as [Hz|Hnz].
    - (* the zero address is never on turn in a well-formed game *)
      exfalso. pose proof (proj2 Hinv0 game_id) as Hv. unfold valid_game in Hv.
      run_exec Hrev; contra.
      all: destruct Hv as [Hd|(Hid & Hk & Hp1 & Hwfo & Hnwfo & Hwfc & Hip & Hpend)];
        [rewrite Hd in *; simpl in *; congruence|].
      all: destruct (Hip ltac:(assumption)) as (Hturn & _);
           destruct (Hnwfo ltac:(congruence)) as (Hp2 & _).
      all: destruct Hturn; congruence.
    - apply (world_inv_step pedersen w0 w1 env0
               (Reveal game_id x y is_hit salt proof)); auto.
      split; [exact Hnz|].
      pose proof (proj2 Hinv0 game_id) as Hv. unfold valid_game in Hv.
      run_exec Hrev; contra.
      all: destruct Hv as [Hd|(Hid & Hk & Hp1 & Hwfo & Hnwfo & Hwfc & Hip & Hpend)];
        [rewrite Hd in *; simpl in *; congruence|].
      all: destruct (Hpend ltac:(assumption)); unfold BOARD_SIZE in *; lia. }
  assert (HP1 : P w1).
  { pose proof (proj2 Hinv0 game_id) as Hv.
    destruct (reveal_marks_cell w0 w1 env0 game_id x y is_hit salt proof Hv Hrev)
      as (Hr & Hst & Hid0 & Hdef).
    destruct (call_keeps_identity w0 w1 env0 (Reveal game_id x y is_hit salt proof) (Ok tt)
                game_id Hv Hid0 Hrev) as (Hi & Hp1 & _ & Hp2).
    destruct (valid_game_joined w0 game_id Hv ltac:(congruence)) as [Hj _].
    unfold P. fold D in Hr, Hdef. rewrite Hi, Hp1, (Hp2 Hj). auto. }
  assert (HP2 : P w2 /\ world_inv w2).
  { apply (run_calls_preserves P) with (calls := calls) (w := w1); auto.
    intros w w' e c Hi (Hr & Hid & Hpl & Hp2) Ht He.
    destruct (call_keeps_identity w w' e c (Ok tt) game_id (proj2 Hi game_id) Hid He)
      as (Hi' & Hp1' & _ & Hp2').
    unfold P. rewrite Hi', Hp1', (Hp2' Hp2).
    repeat split; auto. eapply revealed_stays; eauto. }
  destruct HP2 as [(Hr & Hid & Hpl & Hp2) Hinv2].
  pose proof (proj2 Hinv2 game_id) as Hv2. unfold valid_game in Hv2.
  destruct (execute (attack env game_id x y) w2) as [res w3] eqn:E.
  run_exec E; eauto.
  all: exfalso.
  all: destruct Hv2 as [Hd|(Hid' & Hk & Hp1 & Hwfo & Hnwfo & Hwfc & Hip & Hpend)];
    [rewrite Hd in *; simpl in *; congruence|].
  all: destruct (Hip ltac:(assumption)) as (Hturn & _);
       destruct (Hnwfo ltac:(congruence)) as (_ & Hne).
  all: destruct Hturn; destruct Hpl; try congruence.
Qed.

End GameLifecycle.

(** ** Timeouts and administration *)

(** X5.  Who may claim a timeout.  After the deadline, and when the pot can be
    paid, a player's [claim_timeout] goes through exactly when the other
    side is the one that owes a move: in progress, when it is not the
    caller's turn; in the commitment phase, when the opponent has not
    committed (whether or not the caller has).  Otherwise it fails with
    ['No timeout to claim']. *)
Theorem claim_timeout_who (w : World) (env : Env) (game_id : Z) (game : Game) :
  games_read w game_id = game ->
  valid_game w game_id ->
  status game = WaitingForCommitments \/ status game = InProgress ->
  caller_address env = player1 game \/ caller_address env = player2 game ->
  DEFAULT_TIMEOUT <= block_timestamp env - last_move_time game < 2 ^ 64 ->
  0 <= stake_amount game * 2 < 2 ^ 256 ->
  strk_accepts env (Transfer (caller_address env) (stake_amount game * 2)) = true ->
  let owes_move :=
    if bool_decide (status game = InProgress)
    then current_turn game <> caller_address env
    else root_of game (opponent_of game (caller_address env)) = 0 in
  (owes_move ->
   execute (claim_timeout env game_id) w = (Ok tt, after_claim_timeout w env game_id)) /\
  (~ owes_move ->
   execute (claim_timeout env game_id) w = (Panic "No timeout to claim", w)).
Proof.
  intros <- Hvalid Hst Hplayer Hel Hstake Hacc owes.
  assert (Hnw : status (games_read w game_id) <> WaitingForOpponent)
    by (destruct Hst; congruence).
  assert (Hid : id (games_read w game_id) <> 0) by (apply valid_game_exists; assumption).
  destruct (valid_game_joined w game_id Hvalid Hnw) as [Hp2 Hne].
  assert (Hp1 : player1 (games_read w game_id) <> 0).
  { destruct Hvalid as [Hd|(_ & _ & H & _)]; [rewrite Hd in Hid; simpl in Hid; congruence|exact H]. }
  assert (Hto : timed_out_player (games_read w game_id) (caller_address env) <> 0 <-> owes).
  { subst owes. unfold timed_out_player, root_of, opponent_of.
    destruct Hst as [Hs|Hs]; rewrite Hs.
    - rewrite bool_decide_eq_true_2 by reflexivity.
      rewrite bool_decide_eq_false_2 by discriminate.
      destruct Hplayer as [Hc|Hc]; rewrite Hc; zeqb_cases; simpl; try tauto; try congruence.
    - rewrite bool_decide_eq_false_2 by discriminate.
      rewrite bool_decide_eq_true_2 by reflexivity.
      assert (Hturn : current_turn (games_read w game_id) <> 0).
      { destruct Hvalid as [Hd|(_ & _ & _ & _ & _ & _ & Hip & _)];
          [rewrite Hd in Hs; discriminate|].
        destruct (Hip Hs) as ([Ht|Ht] & _); congruence. }
      zeqb_cases; simpl; split; intros; congruence. }
  split.
  - intros Ho. apply claim_timeout_success with (game := games_read w game_id); auto.
    + apply Hto. exact Ho.
    + rewrite timeout_pot_joined by assumption. exact Hacc.
  - intros Hno. assert (Hz : timed_out_player (games_read w game_id) (caller_address env) = 0).
    { destruct (Z.eq_dec (timed_out_player (games_read w game_id) (caller_address env)) 0);
        [assumption | tauto]. }
    destruct (execute (claim_timeout env game_id) w) as [r w'] eqn:E.
    run_exec E; contra.
    all: exfalso; destruct Hplayer; destruct Hst; contra.
Qed.

Section Administration.
Variable pedersen : Z -> Z -> Z.

(** X6.  Administration is the owner's.  A call changes the owner only when it
    is [transfer_ownership] by the current owner to a non-zero address, and
    changes the house balance only when it is a [claim_victory], which adds
    the fee of that game, or [withdraw_house_funds] by the owner, which takes
    out no more than the balance and has the token pay it to the owner. *)
Theorem administration_guarded (w w' : World) (env : Env) (c : Call) (r : Result unit) :
  execute (entry_point pedersen env c) w = (r, w') ->
  (owner w' = owner w \/
   (c = TransferOwnership (owner w') /\ caller_address env = owner w /\ owner w' <> 0)) /\
  (house_balance w' = house_balance w \/
   (exists k, c = ClaimVictory k /\
              house_balance w' = house_balance w + house_fee_of (games_read w k)) \/
   (exists amount, c = WithdrawHouseFunds amount /\ caller_address env = owner w /\
                   amount <= house_balance w /\
                   house_balance w' = house_balance w - amount /\
                   token_transfers w' = Transfer (owner w) amount :: token_transfers w)).
Proof.
  intros E. unfold house_fee_of, HOUSE_FEE_BPS.
  destruct c; run_exec E; split; try (left; reflexivity).
  all: try (right; left; eexists; split; reflexivity).
  all: try (right; right; eexists; repeat split; try reflexivity; try assumption; congruence).
  all: try (right; repeat split; congruence).
Qed.

End Administration.

(** ** Solvency *)

Lemma sum_list_app (l1 l2 : list Z) : sum_list (l1 ++ l2) = sum_list l1 + sum_list l2.
Proof. induction l1 as [|a l1 IH]; simpl; [reflexivity | rewrite IH; lia]. Qed.

Lemma sum_seq_ext (f f' : nat -> Z) (n : nat) :
  forall a, (forall i, (a <= i < a + n)%nat -> f' i = f i) ->
            sum_list (map f' (seq a n)) = sum_list (map f (seq a n)).
Proof.
  induction n as [|n IH]; intros a H; [reflexivity|].
  simpl. rewrite (H a) by lia. rewrite (IH (S a)); [reflexivity|].
  intros i Hi. apply H. lia.
Qed.

Lemma sum_seq_update (f f' : nat -> Z) (j : nat) (n : nat) :
  forall a, (a <= j < a + n)%nat ->
            (forall i, i <> j -> f' i = f i) ->
            sum_list (map f' (seq a n)) = sum_list (map f (seq a n)) + f' j - f j.
Proof.
  induction n as [|n IH]; intros a Hj H; [lia|].
  simpl. destruct (decide (a = j)) as [->|Hne].
  - rewrite (sum_seq_ext f f' n (S j)); [lia|]. intros i Hi. apply H. lia.
  - rewrite (H a Hne). rewrite (IH (S a)); [lia | lia | exact H].
Qed.

Lemma total_escrow_update (w w' : World) (k : Z) :
  game_count w' = game_count w ->
  1 <= k <= game_count w ->
  (forall k', k' <> k -> games_read w' k' = games_read w k') ->
  total_escrow w' = total_escrow w + escrow_of (games_read w' k) - escrow_of (games_read w k).
Proof.
  intros Hc Hk Hframe. unfold total_escrow. rewrite Hc.
  rewrite (sum_seq_update (fun i => escrow_of (games_read w (Z.of_nat i)))
                          (fun i => escrow_of (games_read w' (Z.of_nat i)))
                          (Z.to_nat k)).
  - rewrite Z2Nat.id by lia. reflexivity.
  - lia.
  - intros i Hi. rewrite Hframe; [reflexivity|]. lia.
Qed.

Lemma total_escrow_same (w w' : World) :
  game_count w' = game_count w ->
  (forall k', games_read w' k' = games_read w k') ->
  total_escrow w' = total_escrow w.
Proof.
  intros Hc Hframe. unfold total_escrow. rewrite Hc.
  apply sum_seq_ext. intros i _. rewrite Hframe. reflexivity.
Qed.

Lemma total_escrow_new (w w' : World) :
  0 <= game_count w ->
  game_count w' = game_count w + 1 ->
  (forall k', k' <> game_count w + 1 -> games_read w' k' = games_read w k') ->
  total_escrow w' = total_escrow w + escrow_of (games_read w' (game_count w + 1)).
Proof.
  intros H0 Hc Hframe. unfold total_escrow. rewrite Hc.
  replace (Z.to_nat (game_count w + 1)) with (Z.to_nat (game_count w) + 1)%nat by lia.
  rewrite seq_app, map_app, sum_list_app. simpl.
  replace (Z.of_nat (S (Z.to_nat (game_count w)))) with (game_count w + 1) by lia.
  rewrite (sum_seq_ext (fun i => escrow_of (games_read w (Z.of_nat i)))
                       (fun i => escrow_of (games_read w' (Z.of_nat i)))); [lia|].
  intros i Hi. rewrite Hframe; [reflexivity | lia].
Qed.

Section Solvency.
Variable pedersen : Z -> Z -> Z.

Ltac frame_at k :=
  let k' := fresh "k'" in let Hk' := fresh "Hk'" in
  intros k' Hk'; read_written; rewrite ?games_read_same;
  try (rewrite decide_False by congruence); reflexivity.

Lemma conservation_step (w w' : World) (env : Env) (c : Call) :
  world_inv w ->
  execute (entry_point pedersen env c) w = (Ok tt, w') ->
  holdings w' - holdings w =
    (house_balance w' - house_balance w) + (total_escrow w' - total_escrow w).
Proof.
  intros [Hc Hg] E.
  destruct c.
  - (* create_game *)
    run_exec E.
    rewrite (total_escrow_new w); [| exact Hc | reflexivity | frame_at 0].
    unfold holdings. read_written. unfold escrow_of. simpl. lia.
  - pose proof (Hg game_id) as Hv. unfold valid_game in Hv.
    run_exec E. use_valid Hv; [congruence|].
    rewrite (total_escrow_update w _ game_id); [| reflexivity | lia | frame_at 0].
    unfold holdings, escrow_of. read_written.
    repeat match goal with H : status _ = _ |- _ => rewrite H end. simpl. lia.
  - pose proof (Hg game_id) as Hv. unfold valid_game in Hv.
    run_exec E; (use_valid Hv; [congruence|]);
    (rewrite (total_escrow_update w _ game_id); [| reflexivity | lia | frame_at 0]);
    unfold holdings, escrow_of; read_written;
    repeat match goal with H : status _ = _ |- _ => rewrite H end; simpl; lia.
  - pose proof (Hg game_id) as Hv. unfold valid_game in Hv.
    run_exec E; (use_valid Hv; [congruence|]);
    (rewrite (total_escrow_update w _ game_id); [| reflexivity | lia | frame_at 0]);
    unfold holdings, escrow_of; read_written;
    repeat match goal with H : status _ = _ |- _ => rewrite H end; simpl; lia.
  - pose proof (Hg game_id) as Hv. unfold valid_game in Hv.
    run_exec E; (use_valid Hv; [congruence|]);
    (rewrite (total_escrow_update w _ game_id); [| reflexivity | lia | frame_at 0]);
    unfold holdings, escrow_of; read_written;
    repeat match goal with H : status _ = _ |- _ => rewrite H end; simpl; lia.
  - pose proof (Hg game_id) as Hv. unfold valid_game in Hv.
    run_exec E; (use_valid Hv; [congruence|]);
    (rewrite (total_escrow_update w _ game_id); [| reflexivity | lia | frame_at 0]);
    unfold holdings, escrow_of; read_written;
    repeat match goal with H : status _ = _ |- _ => rewrite H end; simpl;
    Z.to_euclidean_division_equations; lia.
  - pose proof (Hg game_id) as Hv. unfold valid_game in Hv.
    run_exec E; (use_valid Hv; [congruence|]);
    (rewrite (total_escrow_update w _ game_id); [| reflexivity | lia | frame_at 0]);
    unfold holdings, escrow_of; read_written;
    repeat match goal with H : status _ = _ |- _ => rewrite H end; simpl;
    try lia.
    all: destruct (Hnwfo ltac:(congruence)); congruence.
  - run_exec E. rewrite (total_escrow_same w); [| reflexivity | intros; reflexivity].
    unfold holdings. simpl. lia.
  - run_exec E. rewrite (total_escrow_same w); [| reflexivity | intros; reflexivity].
    unfold holdings. simpl. lia.
Qed.

(** X7.  Solvency.  In every world that the contract reaches, the tokens it has
    received less those it has paid out are exactly the house balance plus
    the stakes of the games that have not been paid out: one stake for a
    game that waits for an opponent, two for a game that is joined or in
    progress. *)
Theorem contract_solvent (w : World) :
  reachable pedersen w ->
  holdings w = house_balance w + total_escrow w.
Proof.
  induction 1 as [o|w w' env c Hr IH Hty Hex].
  - reflexivity.
  - pose proof (conservation_step w w' env c (reachable_world_inv pedersen w Hr) Hex). lia.
Qed.

End Solvency.

(** ** Hit counters, winners and ids *)

Lemma revealed_count_bounds (w : World) (k d : Z) : 0 <= revealed_count w k d <= 100.
Proof.
  unfold revealed_count.
  assert (H : forall n a, 0 <= sum_list (map (fun i => if revealed_read w (k, d, Z.of_nat i)
                                                   then 1 else 0) (seq a n)) <= Z.of_nat n).
  { induction n as [|n IH]; intros a; [simpl; lia|].
    cbn [seq map sum_list fold_right]. fold sum_list. specialize (IH (S a)).
    unfold sum_list in *. destruct (revealed_read w (k, d, Z.of_nat a)); lia. }
  specialize (H 100%nat 0%nat). lia.
Qed.

Lemma revealed_count_ext (w w' : World) (k d : Z) :
  (forall i, revealed_read w' (k, d, i) = revealed_read w (k, d, i)) ->
  revealed_count w' k d = revealed_count w k d.
Proof.
  intros H. unfold revealed_count. apply sum_seq_ext. intros i _. rewrite H. reflexivity.
Qed.

Lemma revealed_count_mark (w w' : World) (k d idx : Z) :
  0 <= idx < 100 ->
  revealed_read w (k, d, idx) = false ->
  revealed_read w' (k, d, idx) = true ->
  (forall i, i <> idx -> revealed_read w' (k, d, i) = revealed_read w (k, d, i)) ->
  revealed_count w' k d = revealed_count w k d + 1.
Proof.
  intros Hi Hf Ht Hframe. unfold revealed_count.
  rewrite (sum_seq_update
             (fun i => if revealed_read w (k, d, Z.of_nat i) then 1 else 0)
             (fun i => if revealed_read w' (k, d, Z.of_nat i) then 1 else 0)
             (Z.to_nat idx)).
  - rewrite Z2Nat.id by lia. rewrite Hf, Ht. lia.
  - lia.
  - intros i Hne. rewrite Hframe; [reflexivity | lia].
Qed.

Lemma revealed_read_written (w : World) (key key' : Z * Z * Z) c g o h t e :
  revealed_read (mkWorld c g (<[key := true]> (revealed_cells w)) o h t e) key' =
  if decide (key = key') then true else revealed_read w key'.
Proof.
  unfold revealed_read. simpl. rewrite lookup_insert. destruct (decide (key = key')); reflexivity.
Qed.

Lemma revealed_read_same (w : World) (key : Z * Z * Z) c g o h t e :
  revealed_read (mkWorld c g (revealed_cells w) o h t e) key = revealed_read w key.
Proof. reflexivity. Qed.

Lemma revealed_count_same (w : World) (k d : Z) c g o h t e :
  revealed_count (mkWorld c g (revealed_cells w) o h t e) k d = revealed_count w k d.
Proof. reflexivity. Qed.

Section HitCounters.
Variable pedersen : Z -> Z -> Z.

Lemma revealed_count_other_game (w : World) (k k0 d d0 idx : Z) c g o h t e :
  (k0, d0) <> (k, d) ->
  revealed_count (mkWorld c g (<[(k0, d0, idx) := true]> (revealed_cells w)) o h t e) k d
  = revealed_count w k d.
Proof.
  intros Hne. apply revealed_count_ext. intros i. rewrite revealed_read_written.
  rewrite decide_False by congruence. reflexivity.
Qed.

Lemma revealed_count_this (w : World) (k d idx : Z) c g o h t e :
  0 <= idx < 100 ->
  revealed_read w (k, d, idx) = false ->
  revealed_count (mkWorld c g (<[(k, d, idx) := true]> (revealed_cells w)) o h t e) k d
  = revealed_count w k d + 1.
Proof.
  intros Hi Hf. apply revealed_count_mark with (idx := idx); auto.
  - rewrite revealed_read_written, decide_True by reflexivity. reflexivity.
  - intros i Hne. rewrite revealed_read_written, decide_False by congruence. reflexivity.
Qed.

Ltac counts_simpl :=
  repeat first
    [ rewrite revealed_count_same
    | rewrite revealed_read_same ].

Ltac fin :=
  repeat match goal with H : status _ = _ |- _ => rewrite H in * end;
  repeat split; intros; world_fields;
  intuition (try discriminate; try congruence; try lia).

Lemma game_inv2_step (w w' : World) (env : Env) (c : Call) (k : Z) :
  world_inv w -> game_inv2 w k -> well_typed env c ->
  execute (entry_point pedersen env c) w = (Ok tt, w') ->
  game_inv2 w' k.
Proof.
  intros [Hc Hg] Hinv2 [Hcaller Hty] E.
  pose proof (Hg k) as Hv. unfold valid_game in Hv.
  unfold game_inv2 in *. cbv zeta in *.
  destruct Hinv2 as (Hdense & Hwin & Hwinp & Hearly & Hh1 & Hh2 & Hpf).
  destruct c.
  - (* create_game *)
    run_exec E. at_key k; counts_simpl.
    + pose proof (revealed_count_bounds w (game_count w + 1) 0).
      pose proof (revealed_count_bounds w (game_count w + 1) (caller_address env)).
      fin.
    + fin.
  - (* join_game *)
    run_exec E. at_key k; counts_simpl; [|fin].
    pose proof (revealed_count_bounds w game_id (caller_address env)).
    use_valid Hv; [congruence|]. destruct (Hwfo ltac:(assumption)).
    fin.
  - (* commit_board *)
    run_exec E; (at_key k; counts_simpl; [|fin]);
      (use_valid Hv; [congruence|]); fin.
  - (* attack *)
    run_exec E; (at_key k; counts_simpl; [|fin]);
      (use_valid Hv; [congruence|]); fin.
  - (* reveal *)
    run_exec E; at_key k.
    all: try (rewrite !revealed_count_other_game by congruence;
              rewrite ?revealed_read_written; try (rewrite decide_False by congruence);
              fin; fail).
    all: use_valid Hv; [congruence|].
    all: destruct (Hip ltac:(assumption)) as (Hturn & _);
         destruct (Hnwfo ltac:(congruence)) as (Hp2 & Hne);
         destruct (Hpend ltac:(assumption)) as (Hx & Hy).
    all: pose proof (Hpf ltac:(assumption) ltac:(assumption)) as Hfalse.
    all: assert (Hidx : 0 <= coords_to_index (pending_attack_x (games_read w game_id))
                                             (pending_attack_y (games_read w game_id)) < 100)
           by (unfold coords_to_index, BOARD_SIZE in *; lia).
    all: try congruence.
    all: subst x y; rewrite <- ?Heqb2 in Hfalse; world_fields.
    all: match goal with
         | H : caller_address _ = player1 _ |- _ => rewrite <- H in *
         | H : caller_address ?e <> player1 ?g |- _ =>
             let Hc2 := fresh "Hc2" in
             assert (Hc2 : caller_address e = player2 g)
               by (destruct Hturn; congruence);
             rewrite <- Hc2 in *
         end.
    all: rewrite ?revealed_count_this by assumption;
         rewrite ?revealed_count_other_game by congruence.
    all: fin.
  - (* claim_victory *)
    run_exec E; (at_key k; counts_simpl; [|fin]);
      (use_valid Hv; [congruence|]); fin.
  - (* claim_timeout *)
    run_exec E; (at_key k; counts_simpl; [|fin]);
      (use_valid Hv; [congruence|]); fin.
  - run_exec E. at_key k; counts_simpl. tauto.
  - run_exec E. at_key k; counts_simpl. tauto.
Qed.

End HitCounters.

Section ReachableWorlds.
Variable pedersen : Z -> Z -> Z.

Lemma reachable_game_inv2 (w : World) (k : Z) : reachable pedersen w -> game_inv2 w k.
Proof.
  induction 1 as [o|w w' env c Hr IH Hty Hex].
  - unfold game_inv2. cbv zeta.
    change (games_read (constructor o) k) with default_game. simpl.
    pose proof (revealed_count_bounds (constructor o) k 0).
    repeat split; intros; try lia; try tauto; try discriminate.
    destruct H0; discriminate.
  - eapply game_inv2_step; eauto. apply reachable_world_inv with (pedersen := pedersen). exact Hr.
Qed.

(** X8.  Ids are dense and sequential.  In every world that the contract
    reaches, the games created are exactly those under the ids 1 to
    [game_count]: each such id holds a game that carries this id; every
    other id reads as the never-written record, and every operation on it
    fails with ['Game does not exist'], changing nothing. *)
Theorem game_ids_dense (w : World) (k : Z) :
  reachable pedersen w ->
  0 <= game_count w /\
  (1 <= k <= game_count w ->
   id (games_read w k) = k /\ player1 (games_read w k) <> 0) /\
  (~ 1 <= k <= game_count w ->
   games_read w k = default_game /\
   forall env c, game_of_call c = Some k ->
                 execute (entry_point pedersen env c) w = (Panic "Game does not exist", w)).
Proof.
  intros Hr.
  pose proof (reachable_world_inv pedersen w Hr) as [Hc Hg].
  pose proof (reachable_game_inv2 w k Hr) as (Hdense & _).
  pose proof (Hg k) as Hv. unfold valid_game in Hv.
  split; [exact Hc|]. split.
  - intros Hk. specialize (Hdense Hk). split; [exact Hdense|].
    destruct Hv as [Hd|(_ & _ & Hp & _)]; [|exact Hp].
    rewrite Hd in Hdense. simpl in Hdense. lia.
  - intros Hk. assert (Hd : games_read w k = default_game).
    { destruct Hv as [Hd|(_ & Hk' & _)]; [exact Hd | lia]. }
    split; [exact Hd|].
    intros env c Hgc.
    destruct (execute (entry_point pedersen env c) w) as [r w'] eqn:E.
    destruct c; simpl in Hgc; simplify_eq; run_exec E; try reflexivity.
    all: rewrite Hd in *; simpl in *; congruence.
Qed.

(** X9.  A winner is recorded exactly when the game is finished or forfeited,
    and is one of its two players. *)
Theorem winner_is_player (w : World) (k : Z) (game : Game) :
  reachable pedersen w ->
  games_read w k = game ->
  (status game = Finished \/ status game = Forfeited <-> winner game <> 0) /\
  (winner game <> 0 ->
   (winner game = player1 game \/ winner game = player2 game) /\
   player1 game <> 0 /\ player2 game <> 0 /\ player1 game <> player2 game).
Proof.
  intros Hr <-.
  pose proof (reachable_game_inv2 w k Hr) as (_ & Hwin & Hwinp & _).
  pose proof (proj2 (reachable_world_inv pedersen w Hr) k) as Hv.
  split; [exact Hwin|]. intros Hw. split; [apply Hwinp; exact Hw|].
  apply Hwin in Hw.
  destruct Hv as [Hd|(_ & _ & Hp1 & _ & Hnwfo & _)].
  - rewrite Hd in Hw. simpl in Hw. destruct Hw; discriminate.
  - destruct Hnwfo as [Hp2 Hne]; [destruct Hw; congruence|]. auto.
Qed.

(** X10.  The hit counters fit.  In every world that the contract reaches, a
    player's hit counter is at most the number of revealed cells of the
    opponent's board, hence at most 100; so the checked [u8] addition of
    [reveal] never overflows. *)
Theorem hits_bounded (w : World) (k : Z) (game : Game) :
  reachable pedersen w ->
  games_read w k = game ->
  0 <= player1_hits game <= revealed_count w k (player2 game) /\
  0 <= player2_hits game <= revealed_count w k (player1 game) /\
  player1_hits game <= 100 /\ player2_hits game <= 100 /\
  forall env x y is_hit salt proof msg w1,
    reveal pedersen env k x y is_hit salt proof w = (Panic msg, w1) ->
    msg <> "u8_add Overflow".
Proof.
  intros Hr <-.
  pose proof (reachable_game_inv2 w k Hr) as (_ & _ & _ & _ & Hh1 & Hh2 & _).
  pose proof (revealed_count_bounds w k (player2 (games_read w k))).
  pose proof (revealed_count_bounds w k (player1 (games_read w k))).
  split; [exact Hh1|]. split; [exact Hh2|]. split; [lia|]. split; [lia|].
  intros env x y is_hit salt proof msg w1 E.
  run_exec E; try discriminate.
  all: exfalso; lia.
Qed.

End ReachableWorlds.

(** ** Moves *)

Section Moves.
Variable pedersen : Z -> Z -> Z.

(** X11.  An [attack] that goes through was made by the player on turn, at a cell
    of the board that the defender has not revealed, with no attack
    pending; it records the cell as the pending attack and gives the turn to
    the defender, the other player; it changes neither the phase, the hit
    counters, the roots nor the revealed cells. *)
Theorem attack_effect (w w' : World) (env : Env) (game_id x y : Z) (game game' : Game) :
  games_read w game_id = game ->
  games_read w' game_id = game' ->
  valid_game w game_id ->
  execute (attack env game_id x y) w = (Ok tt, w') ->
  (status game = InProgress /\ has_pending_attack game = false /\
   caller_address env = current_turn game /\ x < 10 /\ y < 10 /\
   revealed_read w (game_id, opponent_of game (caller_address env), coords_to_index x y)
     = false) /\
  (has_pending_attack game' = true /\ pending_attack_x game' = x /\
   pending_attack_y game' = y /\
   current_turn game' = opponent_of game (caller_address env) /\
   current_turn game' <> caller_address env /\
   (current_turn game' = player1 game \/ current_turn game' = player2 game)) /\
  (status game' = InProgress /\
   player1_hits game' = player1_hits game /\ player2_hits game' = player2_hits game /\
   player1_root game' = player1_root game /\ player2_root game' = player2_root game /\
   revealed_cells w' = revealed_cells w /\ token_transfers w' = token_transfers w).
Proof.
  intros <- <- Hvalid E. unfold opponent_of.
  run_exec E; contra.
  all: use_valid Hvalid; [congruence|].
  all: destruct (Hip ltac:(assumption)) as (Hturn & _);
       destruct (Hnwfo ltac:(congruence)) as (_ & Hne).
  all: read_written.
  all: repeat split; try assumption; try reflexivity; try congruence; auto.
  all: try (destruct Hturn; congruence).
Qed.

(** X12.  [create_game] in a world that the contract reaches: when it goes
    through, the stake was at least [MIN_STAKE] and the token has moved it
    from the caller to the contract; the id returned is [game_count + 1],
    which no game had; the new game waits for an opponent with the caller as
    [player1]; and no other game is touched. *)
Theorem create_game_fresh (w w' : World) (env : Env) (stake : Z) (new_id : Z) :
  reachable pedersen w ->
  execute (create_game env stake) w = (Ok new_id, w') ->
  MIN_STAKE <= stake /\
  token_transfers w' =
    TransferFrom (caller_address env) (contract_address env) stake :: token_transfers w /\
  new_id = game_count w + 1 /\ game_count w' = new_id /\
  games_read w new_id = default_game /\
  (forall k, k <> new_id -> games_read w' k = games_read w k) /\
  id (games_read w' new_id) = new_id /\
  player1 (games_read w' new_id) = caller_address env /\
  player2 (games_read w' new_id) = 0 /\
  stake_amount (games_read w' new_id) = stake /\
  status (games_read w' new_id) = WaitingForOpponent /\
  last_move_time (games_read w' new_id) = block_timestamp env.
Proof.
  intros Hr E.
  assert (Hd : games_read w (game_count w + 1) = default_game).
  { destruct (reachable_valid_game pedersen w (game_count w + 1) Hr)
      as [Hd|(_ & Hk & _)]; [exact Hd | lia]. }
  unfold_exec_in E. constants_in E.
  repeat split_cond_in E; simplify_eq; world_fields; bool_facts.
  read_written. unfold MIN_STAKE.
  repeat split; try assumption; try reflexivity.
  intros k Hk. rewrite games_read_insert, decide_False by congruence. reflexivity.
Qed.

(** X13.  [join_game]: the creator cannot join their own game, and a game can be
    joined only once.  A join that goes through is on a game that waits for
    an opponent, by another caller, whom it records as [player2]; the token
    has moved exactly the creator's stake from the caller to the contract;
    and the game waits for the commitments. *)
Theorem join_game_effect (w : World) (env : Env) (game_id : Z) (game : Game) :
  games_read w game_id = game ->
  valid_game w game_id ->
  (caller_address env = player1 game -> id game <> 0 ->
   exists msg, execute (join_game env game_id) w = (Panic msg, w)) /\
  (status game <> WaitingForOpponent ->
   execute (join_game env game_id) w = (Panic "Game not joinable", w)) /\
  (forall w',
     execute (join_game env game_id) w = (Ok tt, w') ->
     status game = WaitingForOpponent /\ caller_address env <> player1 game /\
     player2 (games_read w' game_id) = caller_address env /\
     status (games_read w' game_id) = WaitingForCommitments /\
     stake_amount (games_read w' game_id) = stake_amount game /\
     player1 (games_read w' game_id) = player1 game /\
     token_transfers w' =
       TransferFrom (caller_address env) (contract_address env) (stake_amount game)
       :: token_transfers w).
Proof.
  intros <- Hvalid. split; [|split].
  - intros Hc Hid.
    destruct (execute (join_game env game_id) w) as [r w'] eqn:E.
    run_exec E; contra; eauto.
  - intros Hs.
    assert (Hid : id (games_read w game_id) <> 0) by (apply valid_game_exists; assumption).
    destruct (execute (join_game env game_id) w) as [r w'] eqn:E.
    run_exec E; contra.
  - intros w' E.
    run_exec E; contra. read_written. repeat split; auto.
Qed.

(** X14.  Every move restarts the clock.  A [join_game], [commit_board], [attack]
    or [reveal] that goes through stamps the game with the time of the
    block, so that no [claim_timeout] on the game can go through at any
    time before [DEFAULT_TIMEOUT] more seconds have passed. *)
Theorem move_restarts_clock (w w' : World) (env env' : Env) (c : Call) (game_id : Z) :
  game_of_call c = Some game_id ->
  c <> ClaimVictory game_id -> c <> ClaimTimeout game_id ->
  execute (entry_point pedersen env c) w = (Ok tt, w') ->
  last_move_time (games_read w' game_id) = block_timestamp env /\
  (block_timestamp env' < block_timestamp env + DEFAULT_TIMEOUT ->
   exists msg, execute (claim_timeout env' game_id) w' = (Panic msg, w')).
Proof.
  intros Hc Hnv Hnt E.
  assert (Hstamp : last_move_time (games_read w' game_id) = block_timestamp env).
  { destruct c; simpl in Hc; simplify_eq; try congruence; run_exec E; read_written;
      reflexivity. }
  split; [exact Hstamp|].
  intros Hearly.
  destruct (execute (claim_timeout env' game_id) w') as [r w''] eqn:E'.
  clear E. unfold DEFAULT_TIMEOUT in Hearly.
  run_exec E'; eauto.
  all: exfalso; lia.
Qed.

(** X15.  Every game was staked.  In every world that the contract reaches, a
    game that exists holds a stake of at least [MIN_STAKE]. *)
Theorem stake_minimum (w : World) (k : Z) :
  reachable pedersen w ->
  id (games_read w k) <> 0 ->
  MIN_STAKE <= stake_amount (games_read w k).
Proof.
  intros Hr. revert k. induction Hr as [o|w w' env c Hr IH Hty Hex]; intros k Hid.
  - exfalso. apply Hid. reflexivity.
  - pose proof (reachable_valid_game pedersen w k Hr) as Hv.
    destruct (Z.eq_dec (id (games_read w k)) 0) as [Hz|Hnz].
    + (* created by this call *)
      destruct c; run_exec Hex; revert Hid; at_key k; simpl; intros Hid;
        try congruence; try (unfold MIN_STAKE; simpl; lia).
    + destruct (call_keeps_identity pedersen w w' env c (Ok tt) k Hv Hnz Hex)
        as (_ & _ & Hs & _).
      rewrite Hs. apply IH. exact Hnz.
Qed.

End Moves.

(** ** Closing a game *)

Section Closing.
Variable pedersen : Z -> Z -> Z.

Lemma roots_inv_step (w w' : World) (env : Env) (c : Call) (k : Z) :
  roots_inv (games_read w k) ->
  execute (entry_point pedersen env c) w = (Ok tt, w') ->
  roots_inv (games_read w' k).
Proof.
  intros [Hwfo Hwfc] E. unfold roots_inv.
  destruct c; run_exec E; at_key k; try (split; assumption).
  all: repeat match goal with H : status _ = _ |- _ => rewrite H in * end.
  all: split; intros; world_fields; try discriminate; try congruence; auto.
  all: bool_facts; try lia.
  all: try (destruct (Hwfo eq_refl); split; congruence).
  all: try (destruct (Hwfc eq_refl); lia).
  all: destruct (Hwfo eq_refl); auto.
Qed.

Lemma reachable_roots_inv (w : World) (k : Z) :
  reachable pedersen w -> roots_inv (games_read w k).
Proof.
  induction 1 as [o|w w' env c Hr IH Hty Hex].
  - split; intros _; simpl; auto.
  - eapply roots_inv_step; eauto.
Qed.

(** X28.  A joined game can always be closed.  In every world that the
    contract reaches, for a game that waits for the commitments or is in
    progress: once [DEFAULT_TIMEOUT] has passed since the last move, and
    provided the token pays the two stakes, one of the two players can claim
    the timeout: in progress the player who is not on turn, before that a
    player whose opponent has not committed. *)
Theorem timeout_always_available (w : World) (env : Env) (game_id : Z) (game : Game) :
  reachable pedersen w ->
  games_read w game_id = game ->
  status game = WaitingForCommitments \/ status game = InProgress ->
  DEFAULT_TIMEOUT <= block_timestamp env - last_move_time game < 2 ^ 64 ->
  0 <= stake_amount game * 2 < 2 ^ 256 ->
  (forall claimant, strk_accepts env (Transfer claimant (stake_amount game * 2)) = true) ->
  exists claimant,
    (claimant = player1 game \/ claimant = player2 game) /\
    execute (claim_timeout (as_caller env claimant) game_id) w
      = (Ok tt, after_claim_timeout w (as_caller env claimant) game_id).
Proof.
  intros Hr <- Hst Hel Hstake Hacc.
  pose proof (reachable_valid_game pedersen w game_id Hr) as Hvalid.
  pose proof (reachable_roots_inv w game_id Hr) as [_ Hroots].
  assert (Hnw : status (games_read w game_id) <> WaitingForOpponent)
    by (destruct Hst; congruence).
  assert (Hid : id (games_read w game_id) <> 0) by (apply valid_game_exists; assumption).
  destruct (valid_game_joined w game_id Hvalid Hnw) as [Hp2 Hne].
  assert (Hclaim : forall claimant,
            claimant = player1 (games_read w game_id) \/
            claimant = player2 (games_read w game_id) ->
            timed_out_player (games_read w game_id) claimant <> 0 ->
            execute (claim_timeout (as_caller env claimant) game_id) w
              = (Ok tt, after_claim_timeout w (as_caller env claimant) game_id)).
  { intros claimant Hpl Hto.
    apply claim_timeout_success with (game := games_read w game_id); auto.
    rewrite timeout_pot_joined by assumption. apply Hacc. }
  use_valid Hvalid; [congruence|].
  destruct Hst as [Hs|Hs].
  - (* waiting for the commitments *)
    destruct (Z.eq_dec (player2_root (games_read w game_id)) 0) as [Hz|Hnz].
    + exists (player1 (games_read w game_id)). split; [auto|].
      apply Hclaim; [auto|]. unfold timed_out_player. rewrite Hs.
      rewrite bool_decide_eq_true_2 by reflexivity. zeqb_cases; simpl; congruence.
    + destruct (Hroots Hs) as [Hz1|Hz2]; [|contradiction].
      exists (player2 (games_read w game_id)). split; [auto|].
      apply Hclaim; [auto|]. unfold timed_out_player. rewrite Hs.
      rewrite bool_decide_eq_true_2 by reflexivity. zeqb_cases; simpl; congruence.
  - destruct (Hip Hs) as ([Ht|Ht] & _).
    + exists (player2 (games_read w game_id)). split; [auto|].
      apply Hclaim; [auto|]. unfold timed_out_player. rewrite Hs.
      rewrite bool_decide_eq_false_2 by discriminate. zeqb_cases; simpl; congruence.
    + exists (player1 (games_read w game_id)). split; [auto|].
      apply Hclaim; [auto|]. unfold timed_out_player. rewrite Hs.
      rewrite bool_decide_eq_false_2 by discriminate. zeqb_cases; simpl; congruence.
Qed.

End Closing.

(** ** The Merkle library of the frontend *)

Section MerkleLibrary.
Variable pedersen : Z -> Z -> Z.

(** X16.  The verifier of the frontend and the verifier of the contract accept
    the same proofs. *)
Theorem verifyProof_agrees (root leaf : Z) (proof : list Z) (leafIndex : nat) :
  verifyProof pedersen root leaf proof leafIndex =
  verify_proof pedersen root leaf proof (Z.of_nat leafIndex).
Proof.
  unfold verifyProof, verify_proof. f_equal.
  revert leaf leafIndex. induction proof as [|s rest IH]; intros leaf i; [reflexivity|].
  cbn [verifyProof_loop verify_fold].
  rewrite of_nat_parity, of_nat_half. apply IH.
Qed.

(** X17.  Index and coordinates: [indexToCoords] undoes [coordsToIndex] on every
    column [x < 10] (whatever the row), [coordsToIndex] undoes
    [indexToCoords] on every index, and two cells with columns below 10 that
    have the same index are the same cell, in the frontend and in the
    contract. *)
Theorem index_coords_roundtrip (x y x' y' index : nat) :
  (x < 10)%nat ->
  (x' < 10)%nat ->
  indexToCoords (coordsToIndex x y) = (x, y) /\
  coordsToIndex (fst (indexToCoords index)) (snd (indexToCoords index)) = index /\
  (coordsToIndex x y = coordsToIndex x' y' -> x = x' /\ y = y') /\
  (coords_to_index (Z.of_nat x) (Z.of_nat y) = coords_to_index (Z.of_nat x') (Z.of_nat y') ->
   x = x' /\ y = y').
Proof.
  intros Hx Hx'. unfold indexToCoords, coordsToIndex, coords_to_index. cbn [fst snd].
  split; [|split; [|split]].
  - f_equal.
    + rewrite Nat.add_comm, Nat.Div0.mod_add. apply Nat.mod_small. exact Hx.
    + rewrite Nat.add_comm, Nat.div_add by lia. rewrite Nat.div_small by exact Hx. lia.
  - pose proof (Nat.div_mod_eq index 10). lia.
  - lia.
  - lia.
Qed.

Lemma build_levels_widths (d : nat) :
  forall fuel l upper,
    length l = (2 ^ d)%nat ->
    build_levels pedersen fuel l = Some upper ->
    map length upper = widths_above d.
Proof.
  induction d as [|d IH]; intros fuel l upper Hl Hb.
  - destruct fuel; simpl in Hb; rewrite Hl in Hb; simpl in Hb; simplify_eq; reflexivity.
  - assert (Hgt : (1 < length l)%nat).
    { rewrite Hl. simpl. pose proof (Nat.pow_nonzero 2 d). lia. }
    destruct fuel as [|fuel]; simpl in Hb;
      destruct (Nat.leb_spec (length l) 1) as [Hle|_]; try lia; try discriminate.
    destruct (next_level pedersen l) as [nl|] eqn:Hn; simpl in Hb; [|discriminate].
    destruct (build_levels pedersen fuel nl) as [rest|] eqn:Hr; simpl in Hb; [|discriminate].
    simplify_eq.
    pose proof (next_level_length pedersen l nl Hn) as Hlen.
    assert (Hnl : length nl = (2 ^ d)%nat) by (rewrite Hl in Hlen; simpl in Hlen; lia).
    simpl. rewrite Hnl. f_equal. eapply IH; eauto.
Qed.

Lemma is_board_check (board : list (list Z)) :
  (length board =? 10)%nat && forallb (fun row => (length row =? 10)%nat) board = true
  <-> is_board board.
Proof.
  unfold is_board. rewrite andb_true_iff, Nat.eqb_eq, forallb_forall, Forall_forall.
  split; intros [H1 H2]; split; auto; intros r Hr.
  - apply Nat.eqb_eq. apply H2. apply list_elem_of_In. exact Hr.
  - apply Nat.eqb_eq. apply H2. apply list_elem_of_In. exact Hr.
Qed.

Lemma buildMerkleTree_is_board (board : list (list Z)) (salt : Z) (t : MerkleTreeResult) :
  buildMerkleTree pedersen board salt = Some t -> is_board board.
Proof.
  unfold buildMerkleTree. intros H.
  destruct ((length board =? 10)%nat && forallb (fun row => (length row =? 10)%nat) board)
    eqn:Hchk; [|discriminate].
  apply is_board_check. exact Hchk.
Qed.


(** X19.  What [generateProof] returns on a built tree.  For the 128 positions
    [y * 10 + x < 128] it returns the leaf at that position and 7 siblings
    that the verifier accepts against the root; this includes the padding
    positions 100 to 127, whose leaf is 0.  Beyond the bottom level it has
    no leaf to return. *)
Theorem generateProof_domain (board : list (list Z)) (salt : Z) (t : MerkleTreeResult)
    (x y : nat) :
  buildMerkleTree pedersen board salt = Some t ->
  ((coordsToIndex x y < 128)%nat ->
   exists p, generateProof (mt_tree t) x y = Some p /\
             mp_leafIndex p = coordsToIndex x y /\
             length (mp_proof p) = 7%nat /\
             verify_proof pedersen (mt_root t) (mp_leaf p) (mp_proof p)
                          (Z.of_nat (coordsToIndex x y)) = true /\
             ((100 <= coordsToIndex x y)%nat -> mp_leaf p = 0)) /\
  ((128 <= coordsToIndex x y)%nat -> generateProof (mt_tree t) x y = None).
Proof.
  intros Ht. unfold buildMerkleTree in Ht.
  destruct ((length board =? 10)%nat && forallb (fun row => (length row =? 10)%nat) board)
    eqn:Hchk; [|discriminate].
  apply is_board_check in Hchk. simpl in Ht.
  destruct (board_leaves_spec pedersen board salt Hchk) as (leaves & Hleaves & Hlen & _).
  rewrite Hleaves in Ht. cbn [mbind option_bind] in Ht.
  destruct (pad_leaves_spec leaves Hlen) as (Hplen & _).
  destruct (build_levels pedersen (length (pad_leaves leaves)) (pad_leaves leaves))
    as [upper|] eqn:Hupper; [|discriminate].
  cbn [mbind option_bind] in Ht.
  destruct (last (pad_leaves leaves :: upper) ≫= head) as [root|] eqn:Hroot; [|discriminate].
  cbn in Ht. simplify_eq. cbn [mt_tree mt_root].
  set (i := coordsToIndex x y). split.
  - intros Hi.
    destruct (lookup_lt_is_Some_2 (pad_leaves leaves) i ltac:(lia)) as [leaf Hleaf].
    destruct (proof_replay pedersen _ _ _ _ _ Hupper Hleaf)
      as (proof & root' & Hs & Hroot' & Hv & Hpl).
    pose proof (build_levels_widths 7 _ _ _ Hplen Hupper) as Hw.
    assert (Hul : length upper = 7%nat).
    { rewrite <- (length_map length), Hw. reflexivity. }
    exists {| mp_leaf := leaf; mp_proof := proof; mp_leafIndex := i |}.
    cbn [mp_leaf mp_proof mp_leafIndex]. split; [|split; [reflexivity|split; [lia|split]]].
    + unfold generateProof. fold i.
      change ((pad_leaves leaves :: upper) !! 0%nat) with (Some (pad_leaves leaves)).
      cbn [mbind option_bind]. rewrite Hleaf. cbn [mbind option_bind].
      rewrite Hs. reflexivity.
    + unfold verify_proof. rewrite Hv. rewrite Hroot in Hroot'. simplify_eq.
      apply Z.eqb_refl.
    + intros Hpad. unfold pad_leaves in Hleaf.
      rewrite lookup_app_r in Hleaf by lia.
      apply lookup_replicate in Hleaf as [-> _]. reflexivity.
  - intros Hi. unfold generateProof. fold i.
    change ((pad_leaves leaves :: upper) !! 0%nat) with (Some (pad_leaves leaves)).
    cbn [mbind option_bind].
    rewrite (lookup_ge_None_2 (pad_leaves leaves) i) by lia. reflexivity.
Qed.

(** Two replays with the same number of siblings that end in the same hash
    started from the same hash and used the same siblings, unless the hash
    function has a collision. *)
Lemma verify_fold_binding (proof1 : list Z) :
  forall (proof2 : list Z) (index h1 h2 : Z),
    length proof1 = length proof2 ->
    verify_fold pedersen h1 index proof1 = verify_fold pedersen h2 index proof2 ->
    (h1 = h2 /\ proof1 = proof2) \/ collision pedersen.
Proof.
  induction proof1 as [|s1 r1 IH]; intros [|s2 r2] index h1 h2 Hlen Heq;
    simpl in Hlen; try discriminate.
  - left. simpl in Heq. auto.
  - cbn [verify_fold] in Heq.
    assert (Hlen' : length r1 = length r2) by lia.
    destruct (IH r2 (index / 2) _ _ Hlen' Heq) as [[Hstep Hrest]|Hcol]; [|right; exact Hcol].
    destruct (Z.eq_dec h1 h2) as [Hh|Hh]; destruct (Z.eq_dec s1 s2) as [Hs|Hs];
      try (left; split; congruence).
    all: right; destruct (index mod 2 =? 0).
    all: first [ exists h1, s1, h2, s2; split; [tauto | exact Hstep]
               | exists s1, h1, s2, h2; split; [tauto | exact Hstep] ].
Qed.

(** X20.  Binding.  A 7-sibling proof that the verifier accepts against the root
    of a built tree, for a leaf computed as the contract does at a cell of
    the board, opens the committed cell: the value and the salt are those
    of the commitment and the siblings are those of [generateProof], unless
    the hash function has a collision. *)
Theorem commitment_binding (board : list (list Z)) (salt : Z) (t : MerkleTreeResult)
    (x y : nat) (cell value salt' : Z) (proof : list Z) :
  buildMerkleTree pedersen board salt = Some t ->
  (x < 10)%nat -> (y < 10)%nat ->
  board_cell board x y = Some cell ->
  length proof = 7%nat ->
  verify_proof pedersen (mt_root t)
    (compute_leaf pedersen (Z.of_nat x) (Z.of_nat y) value salt') proof
    (coords_to_index (Z.of_nat x) (Z.of_nat y)) = true ->
  (value = cell /\ salt' = salt /\
   exists p, generateProof (mt_tree t) x y = Some p /\ mp_proof p = proof) \/
  collision pedersen.
Proof.
  intros Ht Hx Hy Hcell Hlen Hver.
  pose proof (buildMerkleTree_is_board board salt t Ht) as Hb.
  destruct (build_and_prove pedersen board salt x y Hb Hx Hy)
    as (t' & p & c & Ht' & Hp & Hc & Hli & Hleaf & Hpl & Hv).
  rewrite Ht in Ht'. simplify_eq.
  unfold verify_proof in Hver. apply Z.eqb_eq in Hver.
  rewrite <- coordsToIndex_coords_to_index in Hver.
  rewrite <- Hv in Hver.
  assert (Hll : length proof = length (mp_proof p)) by lia.
  destruct (verify_fold_binding _ _ _ _ _ Hll Hver) as [[Hl Hpr]|Hcol];
    [|right; exact Hcol].
  rewrite Hleaf, computeLeaf_compute_leaf in Hl. unfold compute_leaf in Hl. cbv zeta in Hl.
  destruct (Z.eq_dec value cell) as [Hval|Hval]; destruct (Z.eq_dec salt' salt) as [Hsalt|Hsalt].
  - left. split; [exact Hval|]. split; [exact Hsalt|]. exists p. split; [exact Hp | congruence].
  - right. eexists _, salt', _, salt. split; [right; exact Hsalt | exact Hl].
  - right.
    destruct (Z.eq_dec (pedersen (pedersen (Z.of_nat x) (Z.of_nat y)) value)
                       (pedersen (pedersen (Z.of_nat x) (Z.of_nat y)) cell)) as [He|He].
    + eexists _, value, _, cell. split; [right; exact Hval | exact He].
    + eexists _, salt', _, salt. split; [left; exact He | exact Hl].
  - right. eexists _, salt', _, salt. split; [right; exact Hsalt | exact Hl].
Qed.

End MerkleLibrary.

(** ** The defender's answer *)

Section HonestReveal.
Variable pedersen : Z -> Z -> Z.

(** X21.  An honest defender can always answer.  In every world that the contract
    reaches, for a game in progress with a pending attack at a cell [(x, y)]
    on the caller, whose committed root is the root of the tree of the
    caller's 10x10 board of cells 0 or 1: the arguments that the frontend
    computes make [reveal] go through, and report a hit exactly when the
    cell holds a ship. *)
Theorem honest_reveal_accepted (w : World) (env : Env) (game_id : Z) (game : Game)
    (board : list (list Z)) (salt : Z) (t : MerkleTreeResult) (x y : nat) :
  reachable pedersen w ->
  games_read w game_id = game ->
  status game = InProgress ->
  has_pending_attack game = true ->
  pending_attack_x game = Z.of_nat x -> pending_attack_y game = Z.of_nat y ->
  caller_address env = current_turn game ->
  is_board board -> binary_cells board ->
  buildMerkleTree pedersen board salt = Some t ->
  root_of game (caller_address env) = mt_root t ->
  exists is_hit proof w',
    handleRevealAttack pedersen board salt x y = Some (x, y, is_hit, salt, proof) /\
    (is_hit = true <-> board_cell board x y = Some 1) /\
    execute (reveal pedersen env game_id (Z.of_nat x) (Z.of_nat y) is_hit salt proof) w
      = (Ok tt, w').
Proof.
  intros Hr <- Hst Hpend Hpx Hpy Hturn Hb Hbin Ht Hroot.
  pose proof (reachable_valid_game pedersen w game_id Hr) as Hv.
  pose proof (reachable_game_inv2 pedersen w game_id Hr) as (_ & _ & _ & _ & Hh1 & Hh2 & _).
  pose proof (revealed_count_bounds w game_id (player2 (games_read w game_id))) as Hc2.
  pose proof (revealed_count_bounds w game_id (player1 (games_read w game_id))) as Hc1.
  assert (Hxy : (x < 10)%nat /\ (y < 10)%nat).
  { destruct Hv as [Hd|(_ & _ & _ & _ & _ & _ & _ & Hp)]; [rewrite Hd in Hst; discriminate|].
    destruct (Hp Hpend) as [Hx Hy]. unfold BOARD_SIZE in *. lia. }
  destruct Hxy as [Hx Hy].
  destruct (build_and_prove pedersen board salt x y Hb Hx Hy)
    as (t' & p & c & Ht' & Hp & Hc & Hli & Hleaf & Hpl & Hver).
  rewrite Ht in Ht'. simplify_eq.
  pose proof (binary_cells_cell board x y c Hbin Hc) as Hc01.
  exists (c =? 1), (mp_proof p).
  assert (Hargs : handleRevealAttack pedersen board salt x y
                  = Some (x, y, c =? 1, salt, mp_proof p)).
  { unfold handleRevealAttack. unfold board_cell in Hc.
    destruct (board !! y) as [row|] eqn:Hrow; [|discriminate]. cbn in Hc.
    cbn [mbind option_bind]. rewrite Hc, Ht. cbn [mbind option_bind]. rewrite Hp.
    cbn [mbind option_bind]. destruct Hc01 as [-> | ->]; reflexivity. }
  assert (Hval : (if c =? 1 then 1 else 0) = c) by (destruct Hc01 as [-> | ->]; reflexivity).
  assert (Hok : verify_proof pedersen (root_of (games_read w game_id) (caller_address env))
                  (compute_leaf pedersen (Z.of_nat x) (Z.of_nat y) (if c =? 1 then 1 else 0) salt)
                  (mp_proof p) (coords_to_index (Z.of_nat x) (Z.of_nat y)) = true).
  { rewrite Hval, Hroot. unfold verify_proof.
    rewrite <- coordsToIndex_coords_to_index, <- computeLeaf_compute_leaf, <- Hleaf, Hver.
    apply Z.eqb_refl. }
  unfold root_of in Hok.
  destruct (execute (reveal pedersen env game_id (Z.of_nat x) (Z.of_nat y) (c =? 1) salt
                       (mp_proof p)) w) as [r w'] eqn:E.
  assert (Hid : id (games_read w game_id) <> 0)
    by (apply valid_game_exists; [exact Hv | congruence]).
  exists w'. split; [exact Hargs|]. split.
  { split; intros H; [apply Z.eqb_eq in H; congruence|].
    apply Z.eqb_eq. congruence. }
  run_exec E; contra.
Qed.

End HonestReveal.

(** ** What a reveal proves *)

Section RevealBinding.
Variable pedersen : Z -> Z -> Z.

(** Two openings of the same cell under the same root, with as many
    siblings, carry the same value and salt, or the hash collides. *)
Lemma opening_binds (board : list (list Z)) (salt : Z) (t : MerkleTreeResult)
    (x y : nat) (value salt' : Z) (proof : list Z) :
  buildMerkleTree pedersen board salt = Some t ->
  (x < 10)%nat -> (y < 10)%nat ->
  length proof = 7%nat ->
  verify_proof pedersen (mt_root t)
    (compute_leaf pedersen (Z.of_nat x) (Z.of_nat y) value salt') proof
    (coords_to_index (Z.of_nat x) (Z.of_nat y)) = true ->
  (board_cell board x y = Some value /\ salt' = salt) \/ collision pedersen.
Proof.
  intros Ht Hx Hy Hlen Hver.
  pose proof (buildMerkleTree_is_board pedersen board salt t Ht) as Hb.
  destruct (build_and_prove pedersen board salt x y Hb Hx Hy)
    as (t' & p & c & Ht' & Hp & Hc & Hli & Hleaf & Hpl & Hv).
  rewrite Ht in Ht'. simplify_eq.
  unfold verify_proof in Hver. apply Z.eqb_eq in Hver.
  rewrite <- coordsToIndex_coords_to_index in Hver. rewrite <- Hv in Hver.
  assert (Hll : length proof = length (mp_proof p)) by lia.
  destruct (verify_fold_binding pedersen _ _ _ _ _ Hll Hver) as [[Hl Hpr]|Hcol];
    [|right; exact Hcol].
  rewrite Hleaf, computeLeaf_compute_leaf in Hl. unfold compute_leaf in Hl. cbv zeta in Hl.
  destruct (Z.eq_dec salt' salt) as [Hsalt|Hsalt];
    [|right; eexists _, salt', _, salt; split; [right; exact Hsalt | exact Hl]].
  destruct (Z.eq_dec value c) as [Hval|Hval]; [left; subst; auto|].
  right. subst salt'.
  destruct (Z.eq_dec (pedersen (pedersen (Z.of_nat x) (Z.of_nat y)) value)
                     (pedersen (pedersen (Z.of_nat x) (Z.of_nat y)) c)) as [He|He].
  - eexists _, value, _, c. split; [right; exact Hval | exact He].
  - eexists _, salt, _, salt. split; [left; exact He | exact Hl].
Qed.

(** X29.  With seven siblings the defender cannot lie.  If a [reveal] with a
    proof of seven siblings goes through, on a player whose committed root
    is the root of the tree of a board and a salt, then the cell attacked is
    a cell of the board, the answer [is_hit] is what the board holds there
    (1 for a hit, 0 for a miss) and the salt is the committed one, unless
    the hash function has a collision. *)
Theorem reveal_binding (w w' : World) (env : Env) (game_id x y : Z) (is_hit : bool)
    (salt' : Z) (proof : list Z) (game : Game) (board : list (list Z)) (salt : Z)
    (t : MerkleTreeResult) :
  games_read w game_id = game ->
  valid_game w game_id ->
  buildMerkleTree pedersen board salt = Some t ->
  root_of game (caller_address env) = mt_root t ->
  length proof = 7%nat ->
  execute (reveal pedersen env game_id x y is_hit salt' proof) w = (Ok tt, w') ->
  (0 <= x < 10 /\ 0 <= y < 10 /\
   board_cell board (Z.to_nat x) (Z.to_nat y) = Some (if is_hit then 1 else 0) /\
   salt' = salt) \/
  collision pedersen.
Proof.
  intros <- Hvalid Ht Hroot Hlen E.
  assert (Hfacts : (0 <= x < 10 /\ 0 <= y < 10) /\
                   verify_proof pedersen (root_of (games_read w game_id) (caller_address env))
                     (compute_leaf pedersen x y (if is_hit then 1 else 0) salt') proof
                     (coords_to_index x y) = true).
  { unfold root_of. run_exec E; contra.
    all: use_valid Hvalid; [congruence|].
    all: destruct (Hpend ltac:(assumption)) as [Hx Hy]; unfold BOARD_SIZE in *.
    all: split; [lia | first [assumption | reflexivity]]. }
  destruct Hfacts as [[Hx Hy] Hver]. rewrite Hroot in Hver.
  rewrite <- (Z2Nat.id x), <- (Z2Nat.id y) in Hver by lia.
  destruct (opening_binds board salt t (Z.to_nat x) (Z.to_nat y) _ salt' proof Ht
              ltac:(lia) ltac:(lia) Hlen Hver) as [[Hc Hs]|Hcol]; [left | right; exact Hcol].
  repeat split; try lia; assumption.
Qed.

End RevealBinding.

(** ** Edges of the protocol *)

(** X25.  A commitment of the zero root does not count, but restarts the
    clock.  In the commitment phase, [commit_board] with root 0 by a player
    who has not committed goes through; it changes nothing of the game but
    the time of the last move, so the player can commit again, and no
    [claim_timeout] on the game can go through at any time before
    [DEFAULT_TIMEOUT] more seconds have passed. *)
Theorem zero_root_commit (w : World) (env env' : Env) (game_id : Z) (game : Game) :
  games_read w game_id = game ->
  valid_game w game_id ->
  status game = WaitingForCommitments ->
  caller_address env = player1 game \/ caller_address env = player2 game ->
  root_of game (caller_address env) = 0 ->
  exists w',
    execute (commit_board env game_id 0) w = (Ok tt, w') /\
    games_read w' game_id = set_last_move_time game (block_timestamp env) /\
    root_of (games_read w' game_id) (caller_address env) = 0 /\
    (block_timestamp env' < block_timestamp env + DEFAULT_TIMEOUT ->
     exists msg, execute (claim_timeout env' game_id) w' = (Panic msg, w')).
Proof.
  intros <- Hvalid Hst Hplayer Hroot.
  assert (Hid : id (games_read w game_id) <> 0).
  { apply valid_game_exists; [exact Hvalid | congruence]. }
  assert (Hne : player2 (games_read w game_id) <> player1 (games_read w game_id)).
  { apply valid_game_joined; [exact Hvalid | congruence]. }
  unfold root_of in *.
  destruct (execute (commit_board env game_id 0) w) as [r w'] eqn:E.
  assert (Hw : r = Ok tt /\
               games_read w' game_id
                 = set_last_move_time (games_read w game_id) (block_timestamp env)).
  { run_exec E; contra.
    all: try (exfalso; destruct Hplayer; zeqb_cases; contra; fail).
    all: read_written; zeqb_cases; try lia.
    all: split; [reflexivity|].
    all: destruct (games_read w game_id); simpl in *; subst; reflexivity. }
  destruct Hw as [-> Hg]. exists w'. split; [reflexivity|]. split; [exact Hg|]. split.
  - rewrite Hg. simpl. exact Hroot.
  - intros Hearly.
    destruct (execute (claim_timeout env' game_id) w') as [r' w''] eqn:E'.
    clear E. unfold DEFAULT_TIMEOUT in Hearly.
    run_exec E'; eauto.
    all: exfalso; rewrite Hg in *; simpl in *; lia.
Qed.

Section Equivocation.
Variable pedersen : Z -> Z -> Z.

(** An eighth sibling.  For a cell in an odd column, and a salt that is
    itself the leaf of that cell for a chosen value, the verifier accepts
    that leaf against the root of the tree of any board: the hash of the
    neighbouring pair's first leaf without its salt, followed by the proof
    of position [index / 2]. *)
Lemma verify_proof_eighth_sibling (board : list (list Z)) (s value : Z) (x y : nat) :
  is_board board -> (x < 10)%nat -> (y < 10)%nat -> (x mod 2 = 1)%nat ->
  let salt := compute_leaf pedersen (Z.of_nat x) (Z.of_nat y) value s in
  let j := (coordsToIndex x y / 2)%nat in
  exists t p c,
    buildMerkleTree pedersen board salt = Some t /\
    generateProof (mt_tree t) (j mod 10) (j / 10) = Some p /\
    board_cell board (j mod 10) (j / 10) = Some c /\
    length (mp_proof p) = 7%nat /\
    verify_proof pedersen (mt_root t) salt
      (pedersen (pedersen (Z.of_nat (j mod 10)) (Z.of_nat (j / 10))) c :: mp_proof p)
      (coords_to_index (Z.of_nat x) (Z.of_nat y)) = true.
Proof.
  intros Hb Hx Hy Hodd salt j.
  assert (Hj : (j < 50)%nat).
  { subst j. unfold coordsToIndex. apply Nat.Div0.div_lt_upper_bound. lia. }
  destruct (indexToCoords_spec j ltac:(lia)) as (Hjx & Hjy & Hji).
  unfold indexToCoords in Hjx, Hjy, Hji. cbn [fst snd] in Hjx, Hjy, Hji.
  destruct (build_and_prove pedersen board salt (j mod 10) (j / 10) Hb Hjx Hjy)
    as (t & p & c & Ht & Hp & Hc & Hli & Hleaf & Hpl & Hv).
  exists t, p, c. split; [exact Ht|]. split; [exact Hp|]. split; [exact Hc|].
  split; [exact Hpl|].
  unfold verify_proof. rewrite verify_fold_step.
  rewrite <- coordsToIndex_coords_to_index.
  assert (Hpar : (Z.of_nat (coordsToIndex x y) mod 2 =? 0) = false).
  { rewrite of_nat_parity. apply Nat.eqb_neq. unfold coordsToIndex.
    replace (y * 10 + x)%nat with (x + (y * 5) * 2)%nat by lia.
    rewrite Nat.Div0.mod_add. lia. }
  rewrite Hpar, of_nat_half. fold j.
  rewrite Hji in Hv. rewrite Hleaf in Hv. unfold computeLeaf in Hv. cbv zeta in Hv.
  rewrite Hv. apply Z.eqb_refl.
Qed.

(** X26.  A defender can prepare a second answer.  [reveal] does not check
    the number of siblings.  In every world that the contract reaches, for a
    pending attack on a cell [(x, y)] in an odd column, on a player whose
    committed root is the root of the tree of a 10x10 board built with the
    salt [compute_leaf x y v s], where [v] is 1 or 0 as [is_hit] says:
    [reveal] with [is_hit], the salt [s] and eight siblings goes through,
    whatever the board holds at [(x, y)]. *)
Theorem reveal_equivocation (w : World) (env : Env) (game_id : Z) (game : Game)
    (board : list (list Z)) (s : Z) (is_hit : bool) (t : MerkleTreeResult) (x y : nat) :
  reachable pedersen w ->
  games_read w game_id = game ->
  status game = InProgress ->
  has_pending_attack game = true ->
  pending_attack_x game = Z.of_nat x -> pending_attack_y game = Z.of_nat y ->
  caller_address env = current_turn game ->
  (x mod 2 = 1)%nat ->
  let salt := compute_leaf pedersen (Z.of_nat x) (Z.of_nat y) (if is_hit then 1 else 0) s in
  let j := (coordsToIndex x y / 2)%nat in
  buildMerkleTree pedersen board salt = Some t ->
  root_of game (caller_address env) = mt_root t ->
  exists p c w',
    generateProof (mt_tree t) (j mod 10) (j / 10) = Some p /\
    board_cell board (j mod 10) (j / 10) = Some c /\
    execute (reveal pedersen env game_id (Z.of_nat x) (Z.of_nat y) is_hit s
               (pedersen (pedersen (Z.of_nat (j mod 10)) (Z.of_nat (j / 10))) c :: mp_proof p))
            w = (Ok tt, w').
Proof.
  intros Hr <- Hst Hpend Hpx Hpy Hturn Hodd salt j Ht Hroot.
  pose proof (reachable_valid_game pedersen w game_id Hr) as Hv.
  pose proof (reachable_game_inv2 pedersen w game_id Hr) as (_ & _ & _ & _ & Hh1 & Hh2 & _).
  pose proof (revealed_count_bounds w game_id (player2 (games_read w game_id))) as Hc2.
  pose proof (revealed_count_bounds w game_id (player1 (games_read w game_id))) as Hc1.
  assert (Hxy : (x < 10)%nat /\ (y < 10)%nat).
  { destruct Hv as [Hd|(_ & _ & _ & _ & _ & _ & _ & Hp)]; [rewrite Hd in Hst; discriminate|].
    destruct (Hp Hpend) as [Hx Hy]. unfold BOARD_SIZE in *. lia. }
  destruct Hxy as [Hx Hy].
  pose proof (buildMerkleTree_is_board pedersen board salt t Ht) as Hb.
  destruct (verify_proof_eighth_sibling board s (if is_hit then 1 else 0) x y Hb Hx Hy Hodd)
    as (t' & p & c & Ht' & Hp & Hc & _ & Hok).
  fold salt in Ht'. rewrite Ht in Ht'. injection Ht' as <-.
  fold j in Hp, Hc, Hok. fold salt in Hok. rewrite <- Hroot in Hok.
  exists p, c.
  destruct (execute (reveal pedersen env game_id (Z.of_nat x) (Z.of_nat y) is_hit s
                       (pedersen (pedersen (Z.of_nat (j mod 10)) (Z.of_nat (j / 10))) c
                        :: mp_proof p)) w) as [r w'] eqn:E.
  assert (Hid : id (games_read w game_id) <> 0)
    by (apply valid_game_exists; [exact Hv | congruence]).
  exists w'. split; [exact Hp|]. split; [exact Hc|].
  unfold root_of in Hok. subst salt.
  run_exec E; contra.
Qed.

End Equivocation.

(** *** The salt *)

Lemma shift_or_byte (salt byte : Z) :
  0 <= byte < 256 -> Z.lor (Z.shiftl salt 8) byte = salt * 256 + byte.
Proof.
  intros Hb.
  assert (Hland : Z.land (Z.shiftl salt 8) byte = 0).
  { apply Z.bits_inj'. intros n Hn. rewrite Z.land_spec, Z.bits_0.
    destruct (Z.lt_ge_cases n 8) as [Hlt|Hge].
    - rewrite Z.shiftl_spec_low by lia. reflexivity.
    - destruct (Z.eq_dec byte 0) as [->|Hnz]; [rewrite Z.bits_0; apply andb_false_r|].
      rewrite (Z.bits_above_log2 byte n); [apply andb_false_r | lia |].
      assert (Z.log2 byte < 8) by (apply Z.log2_lt_pow2; lia). lia. }
  rewrite <- Z.lxor_lor by exact Hland.
  rewrite <- Z.add_nocarry_lxor by exact Hland.
  rewrite Z.shiftl_mul_pow2 by lia. reflexivity.
Qed.

Lemma generateSalt_snoc (bytes : list Z) (byte : Z) :
  0 <= byte < 256 ->
  generateSalt (bytes ++ [byte]) = generateSalt bytes * 256 + byte.
Proof.
  intros Hb. unfold generateSalt. rewrite fold_left_app. simpl.
  apply shift_or_byte. exact Hb.
Qed.

Lemma generateSalt_bounds (bytes : list Z) :
  Forall (fun byte => 0 <= byte < 256) bytes ->
  0 <= generateSalt bytes < 256 ^ Z.of_nat (length bytes).
Proof.
  induction bytes as [|byte bytes IH] using rev_ind; intros Hall.
  - simpl. unfold generateSalt. simpl. lia.
  - apply Forall_app in Hall as [Hall Hb]. apply Forall_cons in Hb as [Hb _].
    specialize (IH Hall). rewrite generateSalt_snoc by exact Hb.
    rewrite length_app. simpl length. rewrite Nat2Z.inj_add, Z.pow_add_r by lia.
    change (256 ^ Z.of_nat 1) with 256. nia.
Qed.

Lemma generateSalt_inj (bytes : list Z) :
  forall bytes',
    length bytes' = length bytes ->
    Forall (fun byte => 0 <= byte < 256) bytes ->
    Forall (fun byte => 0 <= byte < 256) bytes' ->
    generateSalt bytes' = generateSalt bytes ->
    bytes' = bytes.
Proof.
  induction bytes as [|byte bytes IH] using rev_ind; intros bytes' Hlen Hall Hall' Heq.
  - destruct bytes'; [reflexivity | discriminate].
  - destruct bytes' as [|b0 rest0] using rev_ind;
      [rewrite length_app in Hlen; simpl in Hlen; lia|].
    clear IHrest0. rename b0 into byte', rest0 into bytes'.
    rewrite !length_app in Hlen. simpl in Hlen.
    apply Forall_app in Hall as [Hall Hb]. apply Forall_cons in Hb as [Hb _].
    apply Forall_app in Hall' as [Hall' Hb']. apply Forall_cons in Hb' as [Hb' _].
    rewrite !generateSalt_snoc in Heq by assumption.
    assert (generateSalt bytes' = generateSalt bytes /\ byte' = byte) as [Hs ->] by lia.
    f_equal. apply IH; auto. lia.
Qed.

(** X27.  The salt.  From the 31 random bytes, [generateSalt] makes a
    number below [2 ^ 248], the bytes in big-endian order: two arrays of
    bytes give the same salt only if they are the same array. *)
Theorem generateSalt_range (bytes bytes' : list Z) :
  length bytes = 31%nat ->
  Forall (fun byte => 0 <= byte < 256) bytes ->
  0 <= generateSalt bytes < 2 ^ 248 /\
  (length bytes' = 31%nat ->
   Forall (fun byte => 0 <= byte < 256) bytes' ->
   generateSalt bytes' = generateSalt bytes -> bytes' = bytes).
Proof.
  intros Hlen Hall. split.
  - pose proof (generateSalt_bounds bytes Hall) as H. rewrite Hlen in H.
    change (256 ^ Z.of_nat 31) with (2 ^ 248) in H. exact H.
  - intros Hlen' Hall' Heq. apply generateSalt_inj; auto. congruence.
Qed.

(** ** The placement of the fleet *)

(** *** Cells of a ship *)

Lemma elem_of_getShipCells (ship : Ship) (x y : Z) :
  (x, y) ∈ getShipCells ship <->
  exists i, 0 <= i < ship_length ship /\
            (x, y) = if ship_horizontal ship
                     then (ship_x ship + i, ship_y ship)
                     else (ship_x ship, ship_y ship + i).
Proof.
  unfold getShipCells. change map with (@fmap list _). rewrite list_elem_of_fmap.
  split; intros (i & H1 & H2).
  - apply elem_of_seqZ in H2. exists i. split; [lia | exact H1].
  - exists i. split; [exact H2|]. apply elem_of_seqZ. lia.
Qed.

Lemma NoDup_getShipCells (ship : Ship) : NoDup (getShipCells ship).
Proof.
  unfold getShipCells. change map with (@fmap list _).
  apply NoDup_fmap_2_strong; [|apply NoDup_seqZ].
  intros i j _ _ H. destruct (ship_horizontal ship); inversion H; lia.
Qed.

Lemma length_getShipCells (ship : Ship) :
  length (getShipCells ship) = Z.to_nat (ship_length ship).
Proof. unfold getShipCells. rewrite length_map, length_seqZ. reflexivity. Qed.

(** *** Reading and writing cells *)

Lemma out_of_board_false (x y : Z) : out_of_board (x, y) = false <-> on_board x y.
Proof. unfold out_of_board, on_board, BOARD_SIZE. split; [intros H|intros [H1 H2]]; lia. Qed.

Lemma at_index_nat {A} (l : list A) (i : Z) : 0 <= i -> at_index l i = l !! Z.to_nat i.
Proof. intros H. unfold at_index. destruct (Z.ltb_spec i 0); [lia | reflexivity]. Qed.

Lemma cell_at_board_cell (board : list (list Z)) (x y : nat) :
  cell_at board (Z.of_nat x) (Z.of_nat y) = board_cell board x y.
Proof.
  unfold cell_at, board_cell. rewrite at_index_nat, Nat2Z.id by lia.
  destruct (board !! y) as [row|]; [|reflexivity]. cbn.
  rewrite at_index_nat, Nat2Z.id by lia. reflexivity.
Qed.

Lemma is_board_row (board : list (list Z)) (y : Z) :
  is_board board -> 0 <= y < 10 ->
  exists row, at_index board y = Some row /\ length row = 10%nat.
Proof.
  intros [Hlen Hrows] Hy. rewrite at_index_nat by lia.
  destruct (lookup_lt_is_Some_2 board (Z.to_nat y) ltac:(lia)) as [row Hrow].
  exists row. split; [exact Hrow|].
  rewrite Forall_forall in Hrows. apply Hrows. eapply list_elem_of_lookup_2. exact Hrow.
Qed.

Lemma is_board_cell_at (board : list (list Z)) (x y : Z) :
  is_board board -> on_board x y -> exists c, cell_at board x y = Some c.
Proof.
  intros Hb [Hx Hy]. destruct (is_board_row board y Hb Hy) as (row & Hrow & Hlen).
  unfold cell_at. rewrite Hrow. cbn. rewrite at_index_nat by lia.
  apply lookup_lt_is_Some_2. lia.
Qed.

(** A write inside a 10x10 board. *)
Lemma write_cell_on_board (v : Z) (board : list (list Z)) (x y : Z) :
  is_board board -> on_board x y ->
  exists b',
    write_cell v board (x, y) = Returns b' /\ is_board b' /\
    cell_at b' x y = Some v /\
    (forall x' y', (x', y') <> (x, y) -> cell_at b' x' y' = cell_at board x' y') /\
    (binary_cells board -> v = 0 \/ v = 1 -> binary_cells b').
Proof.
  intros Hb [Hx Hy]. destruct (is_board_row board y Hb Hy) as (row & Hrow & Hlen).
  unfold write_cell. rewrite Hrow.
  destruct (Z.ltb_spec x 0); [lia|].
  destruct (Z.ltb_spec x (Z.of_nat (length row))); [|lia].
  eexists. split; [reflexivity|].
  rewrite at_index_nat in Hrow by lia.
  destruct Hb as [Hl Hr].
  split; [|split; [|split]].
  - split; [rewrite length_insert; exact Hl|].
    apply Forall_insert; [exact Hr|]. rewrite length_insert. exact Hlen.
  - unfold cell_at. rewrite at_index_nat by lia.
    rewrite list_lookup_insert_eq by lia. cbn.
    rewrite at_index_nat by lia. apply list_lookup_insert_eq. lia.
  - intros x' y' Hne. unfold cell_at, at_index.
    destruct (Z.ltb_spec y' 0); [reflexivity|].
    destruct (decide (Z.to_nat y = Z.to_nat y')) as [Heq|Hney].
    + rewrite <- Heq, list_lookup_insert_eq, Hrow by lia. cbn.
      destruct (Z.ltb_spec x' 0); [reflexivity|].
      apply list_lookup_insert_ne. intros Hex.
      apply Hne. f_equal; lia.
    + rewrite list_lookup_insert_ne by exact Hney. reflexivity.
  - intros Hbin Hv. unfold binary_cells in *.
    apply Forall_insert; [exact Hbin|].
    apply Forall_insert; [|exact Hv].
    rewrite Forall_forall in Hbin. apply Hbin. eapply list_elem_of_lookup_2. exact Hrow.
Qed.

(** Writing the cells of a list, all on the board. *)
Lemma write_cells_on_board (v : Z) (cells : list (Z * Z)) :
  forall board,
    is_board board ->
    (forall x y, (x, y) ∈ cells -> on_board x y) ->
    exists b',
      write_cells v board cells = Returns b' /\ is_board b' /\
      (forall x y, (x, y) ∈ cells -> cell_at b' x y = Some v) /\
      (forall x y, (x, y) ∉ cells -> cell_at b' x y = cell_at board x y) /\
      (binary_cells board -> v = 0 \/ v = 1 -> binary_cells b').
Proof.
  induction cells as [|[x y] rest IH]; intros board Hb Hon.
  - exists board. simpl. split; [reflexivity|]. split; [exact Hb|].
    split; [|split; auto]. intros x y H. inversion H.
  - destruct (write_cell_on_board v board x y Hb (Hon x y ltac:(left)))
      as (b1 & Hw & Hb1 & Hset & Hframe & Hbin1).
    destruct (IH b1 Hb1 ltac:(intros; apply Hon; right; assumption))
      as (b' & Hws & Hb' & Hset' & Hframe' & Hbin').
    exists b'. cbn [write_cells]. rewrite Hw. split; [exact Hws|]. split; [exact Hb'|].
    split; [|split].
    + intros x' y' Hin.
      destruct (decide ((x', y') ∈ rest)) as [Hr|Hnr]; [apply Hset'; exact Hr|].
      rewrite Hframe' by exact Hnr.
      apply elem_of_cons in Hin as [Heq|Hr]; [|contradiction].
      inversion Heq; subst. exact Hset.
    + intros x' y' Hnin. rewrite not_elem_of_cons in Hnin. destruct Hnin as [Hne Hnr].
      rewrite Hframe' by exact Hnr. apply Hframe. exact Hne.
    + intros Hbin Hv. apply Hbin'; [apply Hbin1; assumption | exact Hv].
Qed.

(** *** Counting ship cells *)

Lemma ones_app (l1 l2 : list Z) : ones (l1 ++ l2) = (ones l1 + ones l2)%nat.
Proof. unfold ones. rewrite List.filter_app, length_app. reflexivity. Qed.

Lemma ones_insert (l : list Z) (i : nat) (old v : Z) :
  l !! i = Some old ->
  (ones (<[i := v]> l) + (if (old =? 1)%Z then 1 else 0) =
   ones l + (if (v =? 1)%Z then 1 else 0))%nat.
Proof.
  revert i. induction l as [|a l IH]; intros [|i] H; simpl in H; try discriminate.
  - simplify_eq. unfold ones. simpl. destruct (old =? 1), (v =? 1); simpl; lia.
  - specialize (IH i H). unfold ones in *. simpl. destruct (a =? 1); simpl; lia.
Qed.

Lemma ones_concat_insert (board : list (list Z)) (y : nat) (row row' : list Z) :
  board !! y = Some row ->
  (ones (concat (<[y := row']> board)) + ones row = ones (concat board) + ones row')%nat.
Proof.
  revert y. induction board as [|r board IH]; intros [|y] H; simpl in H; try discriminate.
  - simplify_eq. simpl. rewrite !ones_app. lia.
  - specialize (IH y H). simpl. rewrite !ones_app. lia.
Qed.

Lemma write_cell_count (v old : Z) (board b' : list (list Z)) (x y : Z) :
  on_board x y -> cell_at board x y = Some old ->
  write_cell v board (x, y) = Returns b' ->
  countShipCells b' + (if old =? 1 then 1 else 0) =
  countShipCells board + (if v =? 1 then 1 else 0).
Proof.
  intros [Hx Hy] Hc Hw. unfold cell_at, write_cell in *.
  rewrite at_index_nat in * by lia.
  destruct (board !! Z.to_nat y) as [row|] eqn:Hrow; [|discriminate]. cbn in Hc.
  rewrite at_index_nat in Hc by lia.
  pose proof (lookup_lt_Some _ _ _ Hc) as Hlt.
  destruct (Z.ltb_spec x 0); [lia|].
  destruct (Z.ltb_spec x (Z.of_nat (length row))); [|lia].
  simplify_eq.
  pose proof (ones_insert row (Z.to_nat x) old v Hc) as H1.
  pose proof (ones_concat_insert board (Z.to_nat y) row (<[Z.to_nat x := v]> row) Hrow) as H2.
  unfold countShipCells. fold (ones (concat board)).
  fold (ones (concat (<[Z.to_nat y := <[Z.to_nat x := v]> row]> board))).
  destruct (old =? 1), (v =? 1); lia.
Qed.

Lemma write_cells_count (v old : Z) (cells : list (Z * Z)) :
  NoDup cells ->
  forall board b',
    is_board board ->
    (forall x y, (x, y) ∈ cells -> on_board x y /\ cell_at board x y = Some old) ->
    write_cells v board cells = Returns b' ->
    countShipCells b' + (if old =? 1 then 1 else 0) * Z.of_nat (length cells) =
    countShipCells board + (if v =? 1 then 1 else 0) * Z.of_nat (length cells).
Proof.
  induction 1 as [|[x y] rest Hnin Hnd IH]; intros board b' Hb Hcells Hw.
  - simpl in Hw. simplify_eq. simpl. lia.
  - destruct (Hcells x y ltac:(left)) as [Hon Hold].
    destruct (write_cell_on_board v board x y Hb Hon) as (b1 & Hw1 & Hb1 & _ & Hframe & _).
    cbn [write_cells] in Hw. rewrite Hw1 in Hw.
    pose proof (write_cell_count v old board b1 x y Hon Hold Hw1) as Hc1.
    assert (Hrest : forall x' y', (x', y') ∈ rest ->
                                  on_board x' y' /\ cell_at b1 x' y' = Some old).
    { intros x' y' Hin. destruct (Hcells x' y' ltac:(right; exact Hin)) as [Ho Hc].
      split; [exact Ho|]. rewrite Hframe; [exact Hc|].
      intros Heq. rewrite Heq in Hin. contradiction. }
    specialize (IH b1 b' Hb1 Hrest Hw).
    cbn [length]. rewrite Nat2Z.inj_succ. destruct (old =? 1), (v =? 1); lia.
Qed.

(** Two 10x10 boards with the same cells are the same board. *)
Lemma board_ext (b1 b2 : list (list Z)) :
  is_board b1 -> is_board b2 ->
  (forall x y, on_board x y -> cell_at b1 x y = cell_at b2 x y) ->
  b1 = b2.
Proof.
  intros Hb1 Hb2 Hcells. apply list_eq. intros i.
  destruct (decide (i < 10)%nat) as [Hi|Hi].
  - destruct (is_board_row b1 (Z.of_nat i) Hb1 ltac:(lia)) as (r1 & Hr1 & Hl1).
    destruct (is_board_row b2 (Z.of_nat i) Hb2 ltac:(lia)) as (r2 & Hr2 & Hl2).
    rewrite at_index_nat, Nat2Z.id in Hr1, Hr2 by lia. rewrite Hr1, Hr2. f_equal.
    apply list_eq. intros j.
    destruct (decide (j < 10)%nat) as [Hj|Hj].
    + specialize (Hcells (Z.of_nat j) (Z.of_nat i) ltac:(unfold on_board; lia)).
      rewrite !cell_at_board_cell in Hcells. unfold board_cell in Hcells.
      rewrite Hr1, Hr2 in Hcells. exact Hcells.
    + rewrite !lookup_ge_None_2 by lia. reflexivity.
  - destruct Hb1 as [Hl1 _], Hb2 as [Hl2 _]. rewrite !lookup_ge_None_2 by lia. reflexivity.
Qed.

(** *** Valid placements *)

Lemma cells_free_true (board : list (list Z)) (cells : list (Z * Z)) :
  cells_free board cells = Returns true <->
  forall x y, (x, y) ∈ cells -> cell_at board x y = Some 0.
Proof.
  induction cells as [|[x y] rest IH]; simpl.
  - split; [|reflexivity]. intros _ x y H. inversion H.
  - split.
    + intros H x' y' Hin. unfold cell_at.
      destruct (at_index board y) as [row|] eqn:Hrow; [|discriminate].
      destruct (at_index row x) as [[| |]|] eqn:Hc; try discriminate.
      apply elem_of_cons in Hin as [Heq|Hin].
      * inversion Heq; subst. rewrite Hrow. cbn. exact Hc.
      * apply IH; assumption.
    + intros H. pose proof (H x y ltac:(left)) as Hxy. unfold cell_at in Hxy.
      destruct (at_index board y) as [row|]; [|discriminate]. cbn in Hxy.
      rewrite Hxy. apply IH. intros x' y' Hin. apply H. right. exact Hin.
Qed.

Lemma belongs_to_other_true (ship : Ship) (existingShips : list Ship) (nx ny : Z) :
  belongs_to_other ship existingShips nx ny = true <->
  exists other, other ∈ existingShips /\ ship_id other <> ship_id ship /\
                (nx, ny) ∈ getShipCells other.
Proof.
  unfold belongs_to_other. rewrite existsb_exists. split.
  - intros (other & Hin & H). apply andb_true_iff in H as [Hid Hc].
    apply negb_true_iff, String.eqb_neq in Hid.
    apply existsb_exists in Hc as ([ox oy] & Hco & Heq).
    apply andb_true_iff in Heq as [Hx Hy]. apply Z.eqb_eq in Hx, Hy. subst.
    exists other. rewrite !list_elem_of_In. auto.
  - intros (other & Hin & Hid & Hc). exists other. rewrite <- list_elem_of_In.
    split; [exact Hin|]. apply andb_true_iff. split.
    + apply negb_true_iff, String.eqb_neq. exact Hid.
    + apply existsb_exists. exists (nx, ny). rewrite <- list_elem_of_In.
      split; [exact Hc|]. rewrite !Z.eqb_refl. reflexivity.
Qed.

Lemma neighbours_clear_true (ship : Ship) (existingShips : list Ship) (x y : Z) :
  neighbours_clear ship existingShips (x, y) = true <->
  forall nx ny,
    Z.abs (nx - x) <= 1 -> Z.abs (ny - y) <= 1 -> (nx, ny) <> (x, y) ->
    on_board nx ny ->
    belongs_to_other ship existingShips nx ny = false.
Proof.
  unfold neighbours_clear. cbn [forallb]. cbv beta zeta.
  change (-1 =? 0) with false. change (0 =? 0) with true. change (1 =? 0) with false.
  cbn [andb]. unfold BOARD_SIZE.
  split.
  - intros H nx ny Hx Hy Hne [Hbx Hby].
    assert (Hdx : nx = x + -1 \/ nx = x + 0 \/ nx = x + 1) by lia.
    assert (Hdy : ny = y + -1 \/ ny = y + 0 \/ ny = y + 1) by lia.
    repeat match goal with
           | Hc : _ && _ = true |- _ => apply andb_true_iff in Hc; destruct Hc
           end.
    destruct Hdx as [->| [->| ->]], Hdy as [->| [->| ->]];
      try (exfalso; apply Hne; f_equal; lia);
      repeat match goal with
             | Hc : (if ?c then _ else _) = true |- _ =>
                 let E := fresh in
                 destruct c eqn:E; [|lia]
             end;
      apply negb_true_iff; assumption.
  - intros H.
    repeat (apply andb_true_iff; split); try reflexivity.
    all: match goal with
         | |- (if ?c then _ else _) = true =>
             let E := fresh in destruct c eqn:E; [|reflexivity]
         end.
    all: apply negb_true_iff, H; unfold on_board; try lia.
    all: intros Heq; inversion Heq; lia.
Qed.

Lemma cells_free_returns (board : list (list Z)) (cells : list (Z * Z)) :
  is_board board -> (forall x y, (x, y) ∈ cells -> on_board x y) ->
  exists r, cells_free board cells = Returns r.
Proof.
  intros Hb. induction cells as [|[x y] rest IH]; intros Hon; [eexists; reflexivity|].
  destruct (Hon x y ltac:(left)) as [Hx Hy].
  destruct (is_board_row board y Hb Hy) as (row & Hrow & Hlen).
  cbn [cells_free]. rewrite Hrow.
  destruct (at_index row x) as [[| |]|]; try (eexists; reflexivity).
  apply IH. intros x' y' Hin. apply Hon. right. exact Hin.
Qed.

Lemma existsb_out_of_board (cells : list (Z * Z)) :
  existsb out_of_board cells = false <-> forall x y, (x, y) ∈ cells -> on_board x y.
Proof.
  split.
  - intros Hout x y Hin. apply out_of_board_false.
    destruct (out_of_board (x, y)) eqn:Ho; [|reflexivity].
    assert (existsb out_of_board cells = true); [|congruence].
    apply existsb_exists. exists (x, y). rewrite <- list_elem_of_In. auto.
  - intros Hon. destruct (existsb out_of_board cells) eqn:Ho; [|reflexivity].
    apply existsb_exists in Ho as ([x y] & Hin & Ho).
    apply list_elem_of_In in Hin. apply Hon, out_of_board_false in Hin. congruence.
Qed.

(** A placement that [isValidPlacement] accepts is on the board, on free
    cells, and apart from the other ships. *)
Lemma isValidPlacement_sound (ship : Ship) (board : list (list Z)) (existingShips : list Ship) :
  isValidPlacement ship board existingShips = Returns true ->
  (forall x y, (x, y) ∈ getShipCells ship -> on_board x y /\ cell_at board x y = Some 0) /\
  (forall other x y ox oy,
     other ∈ existingShips -> ship_id other <> ship_id ship ->
     (x, y) ∈ getShipCells ship -> (ox, oy) ∈ getShipCells other ->
     on_board ox oy -> (ox, oy) <> (x, y) ->
     2 <= Z.abs (ox - x) \/ 2 <= Z.abs (oy - y)).
Proof.
  unfold isValidPlacement. cbv zeta. intros H.
  destruct (existsb out_of_board (getShipCells ship)) eqn:Hout; [discriminate|].
  destruct (cells_free board (getShipCells ship)) as [[|]| |] eqn:Hfree; try discriminate.
  injection H as Hadj.
  rewrite cells_free_true in Hfree. rewrite forallb_forall in Hadj.
  rewrite existsb_out_of_board in Hout.
  split.
  - intros x y Hin. split; [apply Hout | apply Hfree]; exact Hin.
  - intros other x y ox oy Hother Hid Hin Hoin Hon Hne.
    specialize (Hadj (x, y) ltac:(apply list_elem_of_In; exact Hin)).
    rewrite neighbours_clear_true in Hadj.
    destruct (Z_le_gt_dec (Z.abs (ox - x)) 1) as [Hx|Hx]; [|left; lia].
    destruct (Z_le_gt_dec (Z.abs (oy - y)) 1) as [Hy|Hy]; [|right; lia].
    specialize (Hadj ox oy Hx Hy Hne Hon).
    assert (belongs_to_other ship existingShips ox oy = true); [|congruence].
    apply belongs_to_other_true. eauto.
Qed.

Lemma isValidPlacement_returns (ship : Ship) (board : list (list Z))
    (existingShips : list Ship) :
  is_board board ->
  exists valid, isValidPlacement ship board existingShips = Returns valid.
Proof.
  intros Hb. unfold isValidPlacement. cbv zeta.
  destruct (existsb out_of_board (getShipCells ship)) eqn:Hout; [eexists; reflexivity|].
  rewrite existsb_out_of_board in Hout.
  destruct (cells_free_returns board (getShipCells ship) Hb Hout) as ([|] & ->);
    eexists; reflexivity.
Qed.

(** X22.  What [isValidPlacement] decides.  It returns [true] exactly when
    every cell of the ship is on the board and holds 0, and no cell of an
    existing ship with another id that is on the board lies next to a cell
    of the ship, diagonals included, without being that cell; a ship of
    [existingShips] with the same id, or cells of one outside the board, are
    not looked at.  On a 10x10 board it never throws. *)
Theorem isValidPlacement_spec (ship : Ship) (board : list (list Z)) (existingShips : list Ship) :
  (isValidPlacement ship board existingShips = Returns true <->
   (forall x y, (x, y) ∈ getShipCells ship ->
                (0 <= x < 10 /\ 0 <= y < 10) /\ cell_at board x y = Some 0) /\
   (forall other x y ox oy,
      other ∈ existingShips -> ship_id other <> ship_id ship ->
      (x, y) ∈ getShipCells ship -> (ox, oy) ∈ getShipCells other ->
      0 <= ox < 10 /\ 0 <= oy < 10 -> (ox, oy) <> (x, y) ->
      2 <= Z.abs (ox - x) \/ 2 <= Z.abs (oy - y))) /\
  (is_board board ->
   exists valid, isValidPlacement ship board existingShips = Returns valid).
Proof.
  split; [split; [apply isValidPlacement_sound|]|].
  - intros [Hcells Hadj]. unfold isValidPlacement. cbv zeta.
    assert (Hout : existsb out_of_board (getShipCells ship) = false).
    { apply existsb_out_of_board. intros x y Hin. apply Hcells. exact Hin. }
    rewrite Hout.
    assert (Hfree : cells_free board (getShipCells ship) = Returns true).
    { apply cells_free_true. intros x y Hin. apply Hcells. exact Hin. }
    rewrite Hfree. f_equal. apply forallb_forall. intros [x y] Hin.
    apply list_elem_of_In in Hin.
    apply neighbours_clear_true. intros nx ny Hx Hy Hne Hon.
    destruct (belongs_to_other ship existingShips nx ny) eqn:Hb; [|reflexivity].
    apply belongs_to_other_true in Hb as (other & Ho & Hid & Hc).
    specialize (Hadj other x y nx ny Ho Hid Hin Hc Hon Hne). lia.
  - apply isValidPlacement_returns.
Qed.

(** Placing a ship on a valid position, and taking it off again. *)
Lemma place_then_remove (ship : Ship) (board : list (list Z)) :
  is_board board ->
  (forall x y, (x, y) ∈ getShipCells ship -> on_board x y /\ cell_at board x y = Some 0) ->
  exists b',
    placeShip board ship = Returns b' /\ is_board b' /\
    (forall x y, (x, y) ∈ getShipCells ship -> cell_at b' x y = Some 1) /\
    (forall x y, (x, y) ∉ getShipCells ship -> cell_at b' x y = cell_at board x y) /\
    (binary_cells board -> binary_cells b') /\
    countShipCells b' = countShipCells board + Z.max 0 (ship_length ship) /\
    removeShip b' ship = Returns board.
Proof.
  intros Hb Hcells. unfold placeShip, removeShip.
  destruct (write_cells_on_board 1 (getShipCells ship) board Hb
              ltac:(intros x y Hin; apply Hcells; exact Hin))
    as (b' & Hw & Hb' & Hset & Hframe & Hbin).
  exists b'. split; [exact Hw|]. split; [exact Hb'|]. split; [exact Hset|].
  split; [exact Hframe|]. split; [intros; apply Hbin; auto|]. split.
  - pose proof (write_cells_count 1 0 (getShipCells ship) (NoDup_getShipCells ship)
                  board b' Hb Hcells Hw) as Hc.
    rewrite length_getShipCells in Hc. change (0 =? 1) with false in Hc.
    change (1 =? 1) with true in Hc. lia.
  - destruct (write_cells_on_board 0 (getShipCells ship) b' Hb'
                ltac:(intros x y Hin; apply Hcells; exact Hin))
      as (b'' & Hw' & Hb'' & Hset' & Hframe' & _).
    rewrite Hw'. f_equal. apply board_ext; [exact Hb'' | exact Hb |].
    intros x y _.
    destruct (decide ((x, y) ∈ getShipCells ship)) as [Hin|Hnin].
    + rewrite Hset' by exact Hin. symmetry. apply Hcells. exact Hin.
    + rewrite Hframe', Hframe by exact Hnin. reflexivity.
Qed.

(** X23.  Placing a ship and taking it off again.  On a 10x10 board, a
    placement that [isValidPlacement] accepts makes [placeShip] return the
    10x10 board that holds 1 on the cells of the ship and is the old board
    elsewhere, with as many more ship cells as the ship is long; and
    [removeShip] on that board gives the old board back. *)
Theorem placeShip_removeShip (ship : Ship) (board : list (list Z)) (existingShips : list Ship) :
  is_board board ->
  isValidPlacement ship board existingShips = Returns true ->
  exists newBoard,
    placeShip board ship = Returns newBoard /\ is_board newBoard /\
    (forall x y, (x < 10)%nat -> (y < 10)%nat ->
       board_cell newBoard x y =
       if decide ((Z.of_nat x, Z.of_nat y) ∈ getShipCells ship)
       then Some 1 else board_cell board x y) /\
    (binary_cells board -> binary_cells newBoard) /\
    countShipCells newBoard = countShipCells board + Z.max 0 (ship_length ship) /\
    removeShip newBoard ship = Returns board.
Proof.
  intros Hb Hvalid. apply isValidPlacement_sound in Hvalid as [Hcells _].
  destruct (place_then_remove ship board Hb Hcells)
    as (b' & Hpl & Hb' & Hset & Hframe & Hbin & Hcount & Hrem).
  exists b'. split; [exact Hpl|]. split; [exact Hb'|]. split; [|auto].
  intros x y Hx Hy. rewrite <- !cell_at_board_cell.
  destruct (decide ((Z.of_nat x, Z.of_nat y) ∈ getShipCells ship)) as [Hin|Hnin];
    [apply Hset | apply Hframe]; assumption.
Qed.

(** *** The board of a list of ships *)





Lemma createEmptyBoard_board :
  is_board createEmptyBoard /\ binary_cells createEmptyBoard /\
  forall x y, on_board x y -> cell_at createEmptyBoard x y = Some 0.
Proof.
  split; [|split].
  - split; [reflexivity|]. repeat constructor.
  - unfold binary_cells. repeat (constructor; [repeat (constructor; [left; reflexivity|]); constructor|]).
    constructor.
  - intros x y [Hx Hy]. unfold cell_at, createEmptyBoard, BOARD_SIZE.
    rewrite at_index_nat by lia. rewrite lookup_replicate_2 by lia. cbn.
    rewrite at_index_nat by lia. rewrite lookup_replicate_2 by lia. reflexivity.
Qed.

(** *** The placement screen *)













Section Screen.
Variable pedersen : Z -> Z -> Z.


End Screen.

(** * The properties on the game played out *)

Ltac eval_valid_game :=
  unfold valid_game, game_inv; right; vm_compute;
  repeat split; intros; try discriminate; try reflexivity; auto.

(** The position with Alice at seven hits and Bob's attack pending is one
    that the contract reaches. *)
Lemma demo_seven_hits_reachable : reachable toy_hash demo_seven_hits.
Proof.
  apply run_calls_reachable with (calls := (demo_setup ++ demo_rounds ++ demo_last_moves)%list)
                                 (w := constructor 99).
  - constructor.
  - cbv [demo_setup demo_rounds demo_last_moves demo_round demo_attack demo_reveal app].
    repeat (apply List.Forall_cons; [split; [discriminate | simpl; try exact I; lia]|]).
    apply List.Forall_nil.
  - vm_compute. reflexivity.
Qed.

(** The opening of the game: created, joined, one root committed, both
    committed (at an odd timestamp, so that Alice moves first), Alice's first
    attack, Bob's reveal of a hit. *)
Lemma demo_game_opening :
  status (games_read demo_created 1) = WaitingForOpponent /\
  status (games_read demo_joined 1) = WaitingForCommitments /\
  status (games_read demo_one_root 1) = WaitingForCommitments /\
  status (games_read demo_started 1) = InProgress /\
  current_turn (games_read demo_started 1) = alice /\
  has_pending_attack (games_read demo_attacked 1) = true /\
  current_turn (games_read demo_attacked 1) = bob /\
  player1_hits (games_read demo_revealed 1) = 1 /\
  has_pending_attack (games_read demo_revealed 1) = false /\
  current_turn (games_read demo_revealed 1) = bob.
Proof. repeat split; vm_compute; reflexivity. Qed.

Lemma demo_board_is_board : is_board demo_board.
Proof. split; [reflexivity | repeat constructor]. Qed.

Lemma demo_board_binary : binary_cells demo_board.
Proof.
  unfold binary_cells, demo_board.
  repeat (apply List.Forall_cons; [repeat (apply List.Forall_cons; [auto|]); apply List.Forall_nil|]).
  apply List.Forall_nil.
Qed.

Lemma merkle_roundtrip_witness :
  is_board demo_board /\ binary_cells demo_board /\ (43 < 100)%nat /\
  exists t p,
    buildMerkleTree toy_hash demo_board alice_salt = Some t /\
    generateProof (mt_tree t) (fst (indexToCoords 43)) (snd (indexToCoords 43)) = Some p /\
    verify_proof toy_hash (mt_root t) (mp_leaf p) (mp_proof p) 43 = true.
Proof.
  split; [exact demo_board_is_board|]. split; [exact demo_board_binary|]. split; [lia|].
  destruct (merkle_roundtrip toy_hash demo_board alice_salt 43
              demo_board_is_board demo_board_binary ltac:(lia))
    as (t & p & c & Ht & Hp & _ & _ & _ & _ & _ & _ & Hv).
  exists t, p. repeat split; assumption.
Defined.

(** C1 as stated fails: the verifier accepts the one-sibling proof of the
    two-leaf tree of the source's own test, accepts an empty proof at index
    100, and accepts, at index 100, the seven-sibling proof that
    [generateProof] gives for the padding leaf 100 of a real tree. *)
Lemma verify_proof_accepts_padding :
  verify_proof toy_hash simple_root simple_leaf0 [simple_leaf1] 0 = true /\
  verify_proof toy_hash simple_root simple_root [] 100 = true /\
  (t ← buildMerkleTree toy_hash demo_board alice_salt;
   p ← generateProof (mt_tree t) 0 10;
   Some (mp_leafIndex p, mp_leaf p, length (mp_proof p),
         verify_proof toy_hash (mt_root t) (mp_leaf p) (mp_proof p) 100))
  = Some (100%nat, 0, 7%nat, true).
Proof. repeat split; vm_compute; reflexivity. Qed.

Lemma reveal_verifies_board_cell_witness :
  valid_game demo_attacked 1 /\
  0 <= coords_to_index 0 0 < 100 /\
  verify_proof toy_hash (root_of (games_read demo_attacked 1) bob)
    (compute_leaf toy_hash 0 0 1 bob_salt) (demo_proof bob_salt 0 0)
    (coords_to_index 0 0) = true.
Proof.
  assert (Hv : valid_game demo_attacked 1) by eval_valid_game.
  split; [exact Hv|].
  assert (He : execute (reveal toy_hash (demo_env bob 111) 1 0 0 true bob_salt
                          (demo_proof bob_salt 0 0)) demo_attacked = (Ok tt, demo_revealed))
    by (vm_compute; reflexivity).
  destruct (reveal_verifies_board_cell toy_hash demo_attacked demo_revealed (demo_env bob 111)
              1 0 0 true bob_salt (demo_proof bob_salt 0 0) (games_read demo_attacked 1)
              eq_refl Hv He)
    as ((_ & _ & Hi) & Hp & _).
  split; [exact Hi | exact Hp].
Defined.

Lemma reveal_effect_witness :
  valid_game demo_attacked 1 /\
  revealed_read demo_revealed (1, bob, coords_to_index 0 0) = true /\
  hits_of (games_read demo_revealed 1) alice = hits_of (games_read demo_attacked 1) alice + 1 /\
  hits_of (games_read demo_revealed 1) bob = hits_of (games_read demo_attacked 1) bob /\
  has_pending_attack (games_read demo_revealed 1) = false /\
  current_turn (games_read demo_revealed 1) = bob.
Proof.
  assert (Hv : valid_game demo_attacked 1) by eval_valid_game.
  split; [exact Hv|].
  assert (He : execute (reveal toy_hash (demo_env bob 111) 1 0 0 true bob_salt
                          (demo_proof bob_salt 0 0)) demo_attacked = (Ok tt, demo_revealed))
    by (vm_compute; reflexivity).
  destruct (reveal_effect toy_hash demo_attacked demo_revealed (demo_env bob 111) 1 0 0 true
              bob_salt (demo_proof bob_salt 0 0)
              (games_read demo_attacked 1) (games_read demo_revealed 1) bob alice
              eq_refl eq_refl eq_refl ltac:(vm_compute; reflexivity) Hv He)
    as (_ & _ & Hr & Ha & Hd & Hp & Ht).
  repeat split; assumption.
Defined.

Lemma commit_board_once_witness :
  valid_game demo_one_root 1 /\
  execute (commit_board (demo_env alice 104) 1 500) demo_one_root
    = (Panic "Already committed", demo_one_root) /\
  exists w',
    execute (commit_board (demo_env bob 103) 1 (demo_root bob_salt)) demo_one_root = (Ok tt, w') /\
    root_of (games_read w' 1) bob = demo_root bob_salt /\
    (status (games_read w' 1) = InProgress <->
       player1_root (games_read w' 1) <> 0 /\ player2_root (games_read w' 1) <> 0).
Proof.
  assert (Hv : valid_game demo_one_root 1) by eval_valid_game.
  assert (Hs : status (games_read demo_one_root 1) = WaitingForCommitments)
    by (vm_compute; reflexivity).
  assert (Ha : caller_address (demo_env alice 104) = player1 (games_read demo_one_root 1) \/
               caller_address (demo_env alice 104) = player2 (games_read demo_one_root 1))
    by (left; vm_compute; reflexivity).
  assert (Hb : caller_address (demo_env bob 103) = player1 (games_read demo_one_root 1) \/
               caller_address (demo_env bob 103) = player2 (games_read demo_one_root 1))
    by (right; vm_compute; reflexivity).
  split; [exact Hv|]. split.
  - apply (proj2 (commit_board_once demo_one_root (demo_env alice 104) 1 500
                    (games_read demo_one_root 1) eq_refl Hv Hs Ha)).
    vm_compute. discriminate.
  - destruct (proj1 (commit_board_once demo_one_root (demo_env bob 103) 1
                       (demo_root bob_salt) (games_read demo_one_root 1) eq_refl Hv Hs Hb))
      as (w' & He & Hr & _ & Hiff & _); [vm_compute; reflexivity|].
    exists w'. split; [exact He|]. split; [exact Hr | exact Hiff].
Defined.


Lemma claim_victory_threshold_witness :
  valid_game demo_six_hits 1 /\ valid_game demo_seven_hits 1 /\
  hits_of (games_read demo_six_hits 1) alice = HITS_TO_WIN - 1 /\
  hits_of (games_read demo_seven_hits 1) alice = HITS_TO_WIN /\
  execute (claim_victory (demo_env alice 171) 1) demo_six_hits
    = (Panic "Not enough hits to win", demo_six_hits) /\
  exists w', execute (claim_victory (demo_env alice 173) 1) demo_seven_hits = (Ok tt, w') /\
             status (games_read w' 1) = Finished /\ winner (games_read w' 1) = alice.
Proof.
  assert (Hv6 : valid_game demo_six_hits 1) by eval_valid_game.
  assert (Hv7 : valid_game demo_seven_hits 1) by eval_valid_game.
  assert (Hh6 : hits_of (games_read demo_six_hits 1) alice = HITS_TO_WIN - 1)
    by (vm_compute; reflexivity).
  assert (Hh7 : hits_of (games_read demo_seven_hits 1) alice = HITS_TO_WIN)
    by (vm_compute; reflexivity).
  assert (Hs6 : status (games_read demo_six_hits 1) = InProgress) by (vm_compute; reflexivity).
  assert (Hs7 : status (games_read demo_seven_hits 1) = InProgress) by (vm_compute; reflexivity).
  assert (Hp6 : caller_address (demo_env alice 171) = player1 (games_read demo_six_hits 1) \/
                caller_address (demo_env alice 171) = player2 (games_read demo_six_hits 1))
    by (left; vm_compute; reflexivity).
  assert (Hp7 : caller_address (demo_env alice 173) = player1 (games_read demo_seven_hits 1) \/
                caller_address (demo_env alice 173) = player2 (games_read demo_seven_hits 1))
    by (left; vm_compute; reflexivity).
  assert (Hpay : victory_payable demo_seven_hits (demo_env alice 173)
                   (games_read demo_seven_hits 1)).
  { unfold victory_payable. vm_compute. repeat split; intros; try discriminate; reflexivity. }
  split; [exact Hv6|]. split; [exact Hv7|]. split; [exact Hh6|]. split; [exact Hh7|]. split.
  - exact (proj1 (proj2 (claim_victory_threshold demo_six_hits (demo_env alice 171) 1
                           (games_read demo_six_hits 1) eq_refl Hv6 Hs6 Hp6)) Hh6).
  - exact (proj2 (proj2 (claim_victory_threshold demo_seven_hits (demo_env alice 173) 1
                           (games_read demo_seven_hits 1) eq_refl Hv7 Hs7 Hp7)) Hh7 Hpay).
Defined.

Lemma claim_victory_payout_witness :
  valid_game demo_seven_hits 1 /\
  stake_amount (games_read demo_seven_hits 1) = 1000000000000000000 /\
  exists w', execute (claim_victory (demo_env alice 173) 1) demo_seven_hits = (Ok tt, w') /\
             token_transfers w' =
               Transfer alice 1980000000000000000 :: token_transfers demo_seven_hits /\
             house_balance w' = house_balance demo_seven_hits + 20000000000000000.
Proof.
  assert (Hv7 : valid_game demo_seven_hits 1) by eval_valid_game.
  assert (Hs7 : status (games_read demo_seven_hits 1) = InProgress) by (vm_compute; reflexivity).
  assert (Hp7 : caller_address (demo_env alice 173) = player1 (games_read demo_seven_hits 1) \/
                caller_address (demo_env alice 173) = player2 (games_read demo_seven_hits 1))
    by (left; vm_compute; reflexivity).
  assert (Hh7 : HITS_TO_WIN <= hits_of (games_read demo_seven_hits 1)
                                 (caller_address (demo_env alice 173)))
    by (vm_compute; discriminate).
  assert (Hst : stake_amount (games_read demo_seven_hits 1) = 1000000000000000000)
    by (vm_compute; reflexivity).
  assert (Hh0 : 0 <= house_balance demo_seven_hits) by (vm_compute; discriminate).
  assert (Hh1 : house_balance demo_seven_hits + 20000000000000000 < 2 ^ 256)
    by (vm_compute; reflexivity).
  split; [exact Hv7|]. split; [exact Hst|].
  destruct (claim_victory_payout demo_seven_hits (demo_env alice 173) 1
              (games_read demo_seven_hits 1) eq_refl Hv7 Hs7 Hp7 Hh7 Hst Hh0 Hh1 eq_refl)
    as (_ & _ & _ & _ & w' & He & Ht & Hb & _).
  exists w'. split; [exact He|]. split; [exact Ht | exact Hb].
Defined.

Lemma claim_timeout_boundary_witness :
  valid_game demo_attacked 1 /\
  timed_out_player (games_read demo_attacked 1) alice = bob /\
  last_move_time (games_read demo_attacked 1) = 110 /\
  execute (claim_timeout (demo_env alice (110 + 86399)) 1) demo_attacked
    = (Panic "Timeout not reached", demo_attacked) /\
  exists w', execute (claim_timeout (demo_env alice (110 + 86400)) 1) demo_attacked = (Ok tt, w') /\
             status (games_read w' 1) = Forfeited /\ winner (games_read w' 1) = alice.
Proof.
  assert (Hv : valid_game demo_attacked 1) by eval_valid_game.
  assert (Hs : status (games_read demo_attacked 1) = WaitingForCommitments \/
               status (games_read demo_attacked 1) = InProgress)
    by (right; vm_compute; reflexivity).
  assert (Hp : forall now,
             caller_address (demo_env alice now) = player1 (games_read demo_attacked 1) \/
             caller_address (demo_env alice now) = player2 (games_read demo_attacked 1))
    by (intros now; left; vm_compute; reflexivity).
  assert (Ht : timed_out_player (games_read demo_attacked 1) alice = bob)
    by (vm_compute; reflexivity).
  assert (Hz : forall now,
             timed_out_player (games_read demo_attacked 1) (caller_address (demo_env alice now))
             <> 0)
    by (intros now; vm_compute; discriminate).
  split; [exact Hv|]. split; [exact Ht|]. split; [vm_compute; reflexivity|]. split.
  - destruct (proj1 (proj2 (claim_timeout_boundary demo_attacked (demo_env alice (110 + 86399)) 1
                              (games_read demo_attacked 1) eq_refl Hv Hs (Hp _) (Hz _))))
      as (msg & He & Hm); [vm_compute; reflexivity|].
    rewrite He, Hm; [reflexivity | vm_compute; discriminate].
  - destruct (proj2 (proj2 (claim_timeout_boundary demo_attacked (demo_env alice (110 + 86400)) 1
                              (games_read demo_attacked 1) eq_refl Hv Hs (Hp _) (Hz _))))
      as (w' & He & Hst & Hw & _);
      [vm_compute; reflexivity | vm_compute; split; [discriminate | reflexivity] | reflexivity|].
    exists w'. split; [exact He|]. split; [exact Hst | exact Hw].
Defined.

(** C9 as stated fails: in the position reached with Alice at seven hits and
    Bob's attack on her still pending, Alice's [claim_victory] goes through
    and finishes the game. *)
Lemma claim_victory_during_pending_attack :
  has_pending_attack (games_read demo_seven_hits 1) = true /\
  status (games_read demo_seven_hits 1) = InProgress /\
  fst (execute (claim_victory (demo_env alice 173) 1) demo_seven_hits) = Ok tt /\
  status (games_read (snd (execute (claim_victory (demo_env alice 173) 1) demo_seven_hits)) 1)
    = Finished /\
  games_read (snd (execute (claim_victory (demo_env alice 173) 1) demo_seven_hits)) 1
    <> games_read demo_seven_hits 1.
Proof. repeat split; try (vm_compute; reflexivity). vm_compute. discriminate. Qed.

Lemma pending_attack_guard_witness :
  valid_game demo_attacked 1 /\
  has_pending_attack (games_read demo_attacked 1) = true /\
  execute (entry_point toy_hash (demo_env bob 111) (Attack 1 3 3)) demo_attacked
    = (Panic "Pending attack exists", demo_attacked) /\
  (games_read demo_attacked 1 = games_read demo_attacked 1 \/
   (exists x y is_hit salt proof, Attack 1 3 3 = Reveal 1 x y is_hit salt proof) \/
   (Attack 1 3 3 = ClaimTimeout 1 /\
    DEFAULT_TIMEOUT <= block_timestamp (demo_env bob 111)
                       - last_move_time (games_read demo_attacked 1)) \/
   (Attack 1 3 3 = ClaimVictory 1 /\
    HITS_TO_WIN <= hits_of (games_read demo_attacked 1) (caller_address (demo_env bob 111)))).
Proof.
  assert (Hv : valid_game demo_attacked 1) by eval_valid_game.
  assert (Hp : has_pending_attack (games_read demo_attacked 1) = true)
    by (vm_compute; reflexivity).
  assert (He : execute (entry_point toy_hash (demo_env bob 111) (Attack 1 3 3)) demo_attacked
               = (Panic "Pending attack exists", demo_attacked)) by (vm_compute; reflexivity).
  split; [exact Hv|]. split; [exact Hp|]. split; [exact He|].
  exact (proj1 (pending_attack_guard toy_hash demo_attacked demo_attacked (demo_env bob 111)
                  (Attack 1 3 3) (Panic "Pending attack exists") 1
                  (games_read demo_attacked 1) eq_refl Hv Hp He)).
Defined.

Lemma claim_timeout_needs_opponent_witness :
  valid_game demo_created 1 /\
  status (games_read demo_created 1) = WaitingForOpponent /\
  (exists msg, execute (claim_timeout (demo_env alice 1000000) 1) demo_created
               = (Panic msg, demo_created)) /\
  valid_game demo_attacked 1 /\
  execute (claim_timeout (demo_env alice (110 + 86400)) 1) demo_attacked
    = (Ok tt, after_claim_timeout demo_attacked (demo_env alice (110 + 86400)) 1) /\
  token_transfers (after_claim_timeout demo_attacked (demo_env alice (110 + 86400)) 1)
    = Transfer alice (2 * stake_amount (games_read demo_attacked 1))
      :: token_transfers demo_attacked.
Proof.
  assert (Hv : valid_game demo_created 1) by eval_valid_game.
  assert (Hs : status (games_read demo_created 1) = WaitingForOpponent)
    by (vm_compute; reflexivity).
  assert (Hv' : valid_game demo_attacked 1) by eval_valid_game.
  assert (He : execute (claim_timeout (demo_env alice (110 + 86400)) 1) demo_attacked
               = (Ok tt, after_claim_timeout demo_attacked (demo_env alice (110 + 86400)) 1))
    by (vm_compute; reflexivity).
  split; [exact Hv|]. split; [exact Hs|]. split; [|split; [exact Hv'|split; [exact He|]]].
  - exact (proj1 (proj1 (claim_timeout_needs_opponent toy_hash demo_created 1
                           (games_read demo_created 1) eq_refl Hv) Hs)
                 (demo_env alice 1000000)).
  - exact (proj2 (proj2 (proj2 (proj2 (claim_timeout_needs_opponent toy_hash demo_attacked 1
                           (games_read demo_attacked 1) eq_refl Hv')
                         (demo_env alice (110 + 86400)) _ He)))).
Defined.

Ltac demo_typed :=
  cbv [demo_setup demo_rounds demo_last_moves demo_round demo_attack demo_reveal app take];
  repeat (apply List.Forall_cons; [split; [discriminate | simpl; try exact I; lia]|]);
  apply List.Forall_nil.

Ltac demo_reachable cs :=
  apply (run_calls_reachable toy_hash cs (constructor 99));
  [ constructor | demo_typed | vm_compute; reflexivity ].

Lemma demo_started_reachable : reachable toy_hash demo_started.
Proof. demo_reachable demo_setup. Qed.

Lemma demo_attacked_reachable : reachable toy_hash demo_attacked.
Proof. demo_reachable (demo_setup ++ [demo_attack alice 110 0 0])%list. Qed.

Lemma demo_finished_reachable : reachable toy_hash demo_finished.
Proof.
  demo_reachable (demo_setup ++ demo_rounds ++ demo_last_moves ++
                  [(demo_env alice 173, ClaimVictory 1)])%list.
Qed.

Lemma demo_tree_built (salt : Z) :
  salt = alice_salt \/ salt = bob_salt ->
  buildMerkleTree toy_hash demo_board salt = Some (demo_tree salt).
Proof. intros [-> | ->]; vm_compute; reflexivity. Qed.

Lemma status_edges_witness :
  valid_game demo_one_root 1 /\
  status (games_read demo_one_root 1) = WaitingForCommitments /\
  status (games_read demo_started 1) = InProgress /\
  exists root, CommitBoard 1 (demo_root bob_salt) = CommitBoard 1 root.
Proof.
  assert (Hv : valid_game demo_one_root 1) by eval_valid_game.
  assert (He : execute (entry_point toy_hash (demo_env bob 103)
                          (CommitBoard 1 (demo_root bob_salt))) demo_one_root
               = (Ok tt, demo_started)) by (vm_compute; reflexivity).
  assert (Hs : status (games_read demo_started 1) <> status (games_read demo_one_root 1))
    by (vm_compute; discriminate).
  split; [exact Hv|].
  destruct (status_edges toy_hash demo_one_root demo_started (demo_env bob 103)
              (CommitBoard 1 (demo_root bob_salt)) (Ok tt) 1
              (games_read demo_one_root 1) (games_read demo_started 1)
              eq_refl eq_refl Hv He)
    as [H|[(_ & _ & H)|[(H1 & H2 & H3)|[(_ & _ & H)|(_ & _ & H)]]]];
    [contradiction | discriminate H | | discriminate H | discriminate H].
  split; [exact H1|]. split; [exact H2 | exact H3].
Defined.

Lemma terminal_game_frozen_witness :
  valid_game demo_finished 1 /\
  terminal (status (games_read demo_finished 1)) /\
  game_count demo_second_game = 2 /\
  games_read demo_second_game 1 = games_read demo_finished 1.
Proof.
  assert (Hv : valid_game demo_finished 1) by eval_valid_game.
  assert (Ht : terminal (status (games_read demo_finished 1)))
    by (left; vm_compute; reflexivity).
  assert (He : execute (entry_point toy_hash (demo_env bob 174)
                          (CreateGame 2000000000000000000)) demo_finished
               = (Ok tt, demo_second_game)) by (vm_compute; reflexivity).
  split; [exact Hv|]. split; [exact Ht|]. split; [vm_compute; reflexivity|].
  exact (terminal_game_frozen toy_hash demo_finished demo_second_game (demo_env bob 174)
           (CreateGame 2000000000000000000) (Ok tt) 1 Hv Ht He).
Defined.

Lemma game_fields_stable_witness :
  valid_game demo_attacked 1 /\
  id (games_read demo_revealed 1) = id (games_read demo_attacked 1) /\
  player2 (games_read demo_revealed 1) = player2 (games_read demo_attacked 1) /\
  player1_root (games_read demo_revealed 1) = player1_root (games_read demo_attacked 1) /\
  player1_hits (games_read demo_revealed 1) <= player1_hits (games_read demo_attacked 1) + 1.
Proof.
  assert (Hv : valid_game demo_attacked 1) by eval_valid_game.
  assert (Hid : id (games_read demo_attacked 1) <> 0) by (vm_compute; discriminate).
  assert (He : execute (entry_point toy_hash (demo_env bob 111)
                          (Reveal 1 0 0 true bob_salt (demo_proof bob_salt 0 0))) demo_attacked
               = (Ok tt, demo_revealed)) by (vm_compute; reflexivity).
  destruct (game_fields_stable toy_hash demo_attacked demo_revealed (demo_env bob 111)
              (Reveal 1 0 0 true bob_salt (demo_proof bob_salt 0 0)) (Ok tt) 1
              (games_read demo_attacked 1) (games_read demo_revealed 1)
              eq_refl eq_refl Hv Hid He)
    as ((Hi & _ & _) & Hp2 & Hr1 & _ & (_ & Hh1) & _).
  split; [exact Hv|]. split; [exact Hi|].
  split; [apply Hp2; vm_compute; discriminate|].
  split; [apply Hr1; vm_compute; discriminate | exact Hh1].
Defined.

Lemma no_second_attack_on_cell_witness :
  world_inv demo_attacked /\
  exists msg,
    execute (attack (demo_env alice 114) 1 0 0) demo_round_one = (Panic msg, demo_round_one).
Proof.
  assert (Hinv : world_inv demo_attacked)
    by (apply (reachable_world_inv toy_hash); exact demo_attacked_reachable).
  assert (He : execute (reveal toy_hash (demo_env bob 111) 1 0 0 true bob_salt
                          (demo_proof bob_salt 0 0)) demo_attacked
               = (Ok tt, demo_revealed)) by (vm_compute; reflexivity).
  assert (Hty : Forall (fun ec => well_typed (fst ec) (snd ec))
                       [demo_attack bob 112 0 1; demo_reveal alice 113 alice_salt 0 1])
    by demo_typed.
  assert (Hrun : run_calls toy_hash demo_revealed
                   [demo_attack bob 112 0 1; demo_reveal alice 113 alice_salt 0 1]
                 = Some demo_round_one) by (vm_compute; reflexivity).
  split; [exact Hinv|].
  apply (no_second_attack_on_cell toy_hash
           [demo_attack bob 112 0 1; demo_reveal alice 113 alice_salt 0 1]
           demo_attacked demo_revealed demo_round_one (demo_env bob 111) 1 0 0 true bob_salt
           (demo_proof bob_salt 0 0) Hinv He Hty Hrun (demo_env alice 114)).
  vm_compute. discriminate.
Defined.

Lemma claim_timeout_who_witness :
  valid_game demo_attacked 1 /\
  execute (claim_timeout (demo_env alice 86510) 1) demo_attacked
    = (Ok tt, after_claim_timeout demo_attacked (demo_env alice 86510) 1) /\
  execute (claim_timeout (demo_env bob 86510) 1) demo_attacked
    = (Panic "No timeout to claim", demo_attacked).
Proof.
  assert (Hv : valid_game demo_attacked 1) by eval_valid_game.
  assert (Hs : status (games_read demo_attacked 1) = WaitingForCommitments \/
               status (games_read demo_attacked 1) = InProgress)
    by (right; vm_compute; reflexivity).
  assert (Ha : caller_address (demo_env alice 86510) = player1 (games_read demo_attacked 1) \/
               caller_address (demo_env alice 86510) = player2 (games_read demo_attacked 1))
    by (left; vm_compute; reflexivity).
  assert (Hb : caller_address (demo_env bob 86510) = player1 (games_read demo_attacked 1) \/
               caller_address (demo_env bob 86510) = player2 (games_read demo_attacked 1))
    by (right; vm_compute; reflexivity).
  assert (Ht : DEFAULT_TIMEOUT
               <= 86510 - last_move_time (games_read demo_attacked 1) < 2 ^ 64)
    by (vm_compute; split; [discriminate | reflexivity]).
  assert (Hst : 0 <= stake_amount (games_read demo_attacked 1) * 2 < 2 ^ 256)
    by (vm_compute; split; [discriminate | reflexivity]).
  split; [exact Hv|]. split.
  - apply (proj1 (claim_timeout_who demo_attacked (demo_env alice 86510) 1
                    (games_read demo_attacked 1) eq_refl Hv Hs Ha Ht Hst eq_refl)).
    vm_compute. discriminate.
  - apply (proj2 (claim_timeout_who demo_attacked (demo_env bob 86510) 1
                    (games_read demo_attacked 1) eq_refl Hv Hs Hb Ht Hst eq_refl)).
    vm_compute. intros H. apply H. reflexivity.
Defined.

Lemma administration_guarded_witness :
  owner demo_finished = owner demo_seven_hits /\
  house_balance demo_finished
    = house_balance demo_seven_hits + house_fee_of (games_read demo_seven_hits 1).
Proof.
  assert (He : execute (entry_point toy_hash (demo_env alice 173) (ClaimVictory 1))
                 demo_seven_hits = (Ok tt, demo_finished)) by (vm_compute; reflexivity).
  assert (Hh : house_balance demo_finished <> house_balance demo_seven_hits)
    by (vm_compute; discriminate).
  destruct (administration_guarded toy_hash demo_seven_hits demo_finished (demo_env alice 173)
              (ClaimVictory 1) (Ok tt) He) as [Ho Hb].
  split.
  - destruct Ho as [Ho|(Hc & _)]; [exact Ho | discriminate Hc].
  - destruct Hb as [Hb|[(k & Hc & Hb)|(amount & Hc & _)]];
      [destruct (Hh Hb) | | discriminate Hc].
    injection Hc as <-. exact Hb.
Defined.

Lemma contract_solvent_witness :
  holdings demo_seven_hits = house_balance demo_seven_hits + total_escrow demo_seven_hits /\
  holdings demo_finished = house_balance demo_finished + total_escrow demo_finished.
Proof.
  split.
  - exact (contract_solvent toy_hash demo_seven_hits demo_seven_hits_reachable).
  - exact (contract_solvent toy_hash demo_finished demo_finished_reachable).
Defined.

Lemma game_ids_dense_witness :
  id (games_read demo_seven_hits 1) = 1 /\
  execute (entry_point toy_hash (demo_env bob 180) (JoinGame 5)) demo_seven_hits
    = (Panic "Game does not exist", demo_seven_hits).
Proof.
  assert (Hc : game_count demo_seven_hits = 1) by (vm_compute; reflexivity).
  split.
  - destruct (game_ids_dense toy_hash demo_seven_hits 1 demo_seven_hits_reachable)
      as (_ & Hin & _).
    apply Hin. rewrite Hc. lia.
  - destruct (game_ids_dense toy_hash demo_seven_hits 5 demo_seven_hits_reachable)
      as (_ & _ & Hout).
    destruct Hout as [_ Hfail]; [rewrite Hc; lia|].
    apply Hfail. reflexivity.
Defined.

Lemma winner_is_player_witness :
  winner (games_read demo_finished 1) = player1 (games_read demo_finished 1) \/
  winner (games_read demo_finished 1) = player2 (games_read demo_finished 1).
Proof.
  destruct (winner_is_player toy_hash demo_finished 1 (games_read demo_finished 1)
              demo_finished_reachable eq_refl) as [_ Hw].
  apply Hw. vm_compute. discriminate.
Defined.

Lemma hits_bounded_witness :
  player1_hits (games_read demo_seven_hits 1)
    <= revealed_count demo_seven_hits 1 (player2 (games_read demo_seven_hits 1)) /\
  player1_hits (games_read demo_seven_hits 1) <= 100.
Proof.
  destruct (hits_bounded toy_hash demo_seven_hits 1 (games_read demo_seven_hits 1)
              demo_seven_hits_reachable eq_refl) as ((_ & H1) & _ & H2 & _).
  split; [exact H1 | exact H2].
Defined.

Lemma attack_effect_witness :
  valid_game demo_started 1 /\
  has_pending_attack (games_read demo_attacked 1) = true /\
  current_turn (games_read demo_attacked 1) = opponent_of (games_read demo_started 1) alice /\
  player1_hits (games_read demo_attacked 1) = player1_hits (games_read demo_started 1).
Proof.
  assert (Hv : valid_game demo_started 1) by eval_valid_game.
  assert (He : execute (attack (demo_env alice 110) 1 0 0) demo_started = (Ok tt, demo_attacked))
    by (vm_compute; reflexivity).
  destruct (attack_effect demo_started demo_attacked (demo_env alice 110) 1 0 0
              (games_read demo_started 1) (games_read demo_attacked 1) eq_refl eq_refl Hv He)
    as (_ & (Hp & _ & _ & Ht & _) & (_ & Hh & _)).
  split; [exact Hv|]. split; [exact Hp|]. split; [exact Ht | exact Hh].
Defined.

Lemma create_game_fresh_witness :
  MIN_STAKE <= 1000000000000000000 /\
  game_count demo_created = 1 /\
  games_read (constructor 99) 1 = default_game /\
  status (games_read demo_created 1) = WaitingForOpponent.
Proof.
  assert (He : execute (create_game (demo_env alice 100) 1000000000000000000) (constructor 99)
               = (Ok 1, demo_created)) by (vm_compute; reflexivity).
  destruct (create_game_fresh toy_hash (constructor 99) demo_created (demo_env alice 100)
              1000000000000000000 1 (reachable_deployed toy_hash 99) He)
    as (Hm & _ & _ & Hc & Hd & _ & _ & _ & _ & _ & Hs & _).
  split; [exact Hm|]. split; [exact Hc|]. split; [exact Hd | exact Hs].
Defined.

Lemma join_game_effect_witness :
  valid_game demo_created 1 /\
  player2 (games_read demo_joined 1) = bob /\
  status (games_read demo_joined 1) = WaitingForCommitments /\
  exists msg, execute (join_game (demo_env alice 101) 1) demo_created = (Panic msg, demo_created).
Proof.
  assert (Hv : valid_game demo_created 1) by eval_valid_game.
  assert (He : execute (join_game (demo_env bob 101) 1) demo_created = (Ok tt, demo_joined))
    by (vm_compute; reflexivity).
  split; [exact Hv|].
  destruct (join_game_effect demo_created (demo_env bob 101) 1 (games_read demo_created 1)
              eq_refl Hv) as (_ & _ & Hok).
  destruct (Hok demo_joined He) as (_ & _ & Hp2 & Hs & _).
  split; [exact Hp2|]. split; [exact Hs|].
  destruct (join_game_effect demo_created (demo_env alice 101) 1 (games_read demo_created 1)
              eq_refl Hv) as (Hself & _).
  apply Hself; [reflexivity | vm_compute; discriminate].
Defined.

Lemma move_restarts_clock_witness :
  last_move_time (games_read demo_attacked 1) = 110 /\
  exists msg,
    execute (claim_timeout (demo_env alice 86509) 1) demo_attacked = (Panic msg, demo_attacked).
Proof.
  assert (He : execute (entry_point toy_hash (demo_env alice 110) (Attack 1 0 0)) demo_started
               = (Ok tt, demo_attacked)) by (vm_compute; reflexivity).
  destruct (move_restarts_clock toy_hash demo_started demo_attacked (demo_env alice 110)
              (demo_env alice 86509) (Attack 1 0 0) 1 eq_refl
              ltac:(discriminate) ltac:(discriminate) He) as [Hstamp Hearly].
  split; [exact Hstamp|].
  apply Hearly. vm_compute. reflexivity.
Defined.

Lemma stake_minimum_witness :
  MIN_STAKE <= stake_amount (games_read demo_seven_hits 1).
Proof.
  apply (stake_minimum toy_hash demo_seven_hits 1 demo_seven_hits_reachable).
  vm_compute. discriminate.
Defined.

Lemma index_coords_roundtrip_witness :
  indexToCoords (coordsToIndex 3 4) = (3%nat, 4%nat) /\
  coordsToIndex (fst (indexToCoords 43)) (snd (indexToCoords 43)) = 43%nat.
Proof.
  destruct (index_coords_roundtrip 3 4 5 6 43 ltac:(lia) ltac:(lia)) as (H1 & H2 & _).
  split; [exact H1 | exact H2].
Defined.


Lemma generateProof_domain_witness :
  (exists p, generateProof (mt_tree (demo_tree alice_salt)) 0 10 = Some p /\
             mp_leaf p = 0 /\ length (mp_proof p) = 7%nat /\
             verify_proof toy_hash (mt_root (demo_tree alice_salt)) (mp_leaf p) (mp_proof p)
                          (Z.of_nat (coordsToIndex 0 10)) = true) /\
  generateProof (mt_tree (demo_tree alice_salt)) 8 12 = None.
Proof.
  split.
  - destruct (generateProof_domain toy_hash demo_board alice_salt (demo_tree alice_salt) 0 10
                (demo_tree_built alice_salt ltac:(left; reflexivity))) as [Hin _].
    destruct (Hin ltac:(unfold coordsToIndex; lia)) as (p & Hp & _ & Hl & Hv & Hpad).
    exists p. split; [exact Hp|]. split; [apply Hpad; unfold coordsToIndex; lia|].
    split; [exact Hl | exact Hv].
  - destruct (generateProof_domain toy_hash demo_board alice_salt (demo_tree alice_salt) 8 12
                (demo_tree_built alice_salt ltac:(left; reflexivity))) as [_ Hout].
    apply Hout. unfold coordsToIndex. lia.
Defined.

Lemma commitment_binding_witness :
  (1 = 1 /\ bob_salt = bob_salt /\
   exists p, generateProof (mt_tree (demo_tree bob_salt)) 0 0 = Some p /\
             mp_proof p = demo_proof bob_salt 0 0) \/
  collision toy_hash.
Proof.
  apply (commitment_binding toy_hash demo_board bob_salt (demo_tree bob_salt) 0 0 1 1 bob_salt
           (demo_proof bob_salt 0 0)
           (demo_tree_built bob_salt ltac:(right; reflexivity))
           ltac:(lia) ltac:(lia)).
  - vm_compute. reflexivity.
  - vm_compute. reflexivity.
  - vm_compute. reflexivity.
Defined.

Lemma honest_reveal_accepted_witness :
  exists is_hit proof w',
    handleRevealAttack toy_hash demo_board bob_salt 0 0 = Some (0%nat, 0%nat, is_hit, bob_salt, proof) /\
    (is_hit = true <-> board_cell demo_board 0 0 = Some 1) /\
    execute (reveal toy_hash (demo_env bob 111) 1 (Z.of_nat 0) (Z.of_nat 0) is_hit bob_salt proof)
      demo_attacked = (Ok tt, w').
Proof.
  apply (honest_reveal_accepted toy_hash demo_attacked (demo_env bob 111) 1
           (games_read demo_attacked 1) demo_board bob_salt (demo_tree bob_salt) 0 0
           demo_attacked_reachable eq_refl).
  - vm_compute. reflexivity.
  - vm_compute. reflexivity.
  - vm_compute. reflexivity.
  - vm_compute. reflexivity.
  - vm_compute. reflexivity.
  - exact demo_board_is_board.
  - exact demo_board_binary.
  - apply demo_tree_built. right. reflexivity.
  - vm_compute. reflexivity.
Defined.

Lemma isValidPlacement_spec_witness :
  is_board createEmptyBoard /\
  exists valid, isValidPlacement demo_carrier createEmptyBoard [] = Returns valid.
Proof.
  split; [apply createEmptyBoard_board|].
  apply (proj2 (isValidPlacement_spec demo_carrier createEmptyBoard [])).
  apply createEmptyBoard_board.
Defined.

Lemma placeShip_removeShip_witness :
  is_board createEmptyBoard /\
  exists newBoard,
    placeShip createEmptyBoard demo_carrier = Returns newBoard /\
    countShipCells newBoard = countShipCells createEmptyBoard + Z.max 0 5 /\
    removeShip newBoard demo_carrier = Returns createEmptyBoard.
Proof.
  split; [apply createEmptyBoard_board|].
  destruct (placeShip_removeShip demo_carrier createEmptyBoard []
              ltac:(apply createEmptyBoard_board) ltac:(vm_compute; reflexivity))
    as (newBoard & Hp & _ & _ & _ & Hc & Hr).
  exists newBoard. split; [exact Hp|]. split; [exact Hc | exact Hr].
Defined.



Lemma zero_root_commit_witness :
  valid_game demo_joined 1 /\
  exists w',
    execute (commit_board (demo_env bob 102) 1 0) demo_joined = (Ok tt, w') /\
    games_read w' 1 = set_last_move_time (games_read demo_joined 1) 102 /\
    exists msg, execute (claim_timeout (demo_env alice 86501) 1) w' = (Panic msg, w').
Proof.
  assert (Hv : valid_game demo_joined 1) by eval_valid_game.
  split; [exact Hv|].
  destruct (zero_root_commit demo_joined (demo_env bob 102) (demo_env alice 86501) 1
              (games_read demo_joined 1) eq_refl Hv
              ltac:(vm_compute; reflexivity) ltac:(right; vm_compute; reflexivity)
              ltac:(vm_compute; reflexivity))
    as (w' & He & Hg & _ & Hearly).
  exists w'. split; [exact He|]. split; [exact Hg|].
  apply Hearly. vm_compute. reflexivity.
Defined.

Lemma cheat_attacked_reachable : reachable toy_hash cheat_attacked.
Proof.
  apply (run_calls_reachable toy_hash cheat_calls (constructor 99)).
  - constructor.
  - cbv [cheat_calls demo_attack].
    repeat (apply List.Forall_cons; [split; [discriminate | simpl; try exact I; lia]|]).
    apply List.Forall_nil.
  - vm_compute. reflexivity.
Qed.

Lemma reveal_equivocation_witness :
  board_cell demo_board 1 0 = Some 1 /\
  exists p c w',
    generateProof (mt_tree cheat_tree) 0 0 = Some p /\
    board_cell demo_board 0 0 = Some c /\
    execute (reveal toy_hash (demo_env bob 111) 1 (Z.of_nat 1) (Z.of_nat 0) false 777
               (toy_hash (toy_hash (Z.of_nat 0) (Z.of_nat 0)) c :: mp_proof p))
            cheat_attacked = (Ok tt, w').
Proof.
  split; [reflexivity|].
  apply (reveal_equivocation toy_hash cheat_attacked (demo_env bob 111) 1
           (games_read cheat_attacked 1) demo_board 777 false cheat_tree 1 0
           cheat_attacked_reachable eq_refl).
  - vm_compute. reflexivity.
  - vm_compute. reflexivity.
  - vm_compute. reflexivity.
  - vm_compute. reflexivity.
  - vm_compute. reflexivity.
  - reflexivity.
  - vm_compute. reflexivity.
  - vm_compute. reflexivity.
Defined.

Lemma generateSalt_range_witness :
  0 <= generateSalt (replicate 31 255) < 2 ^ 248.
Proof.
  apply (generateSalt_range (replicate 31 255) []).
  - reflexivity.
  - apply Forall_replicate. lia.
Defined.

Lemma timeout_always_available_witness :
  exists claimant,
    (claimant = player1 (games_read demo_attacked 1) \/
     claimant = player2 (games_read demo_attacked 1)) /\
    execute (claim_timeout (as_caller (demo_env 0 86510) claimant) 1) demo_attacked
      = (Ok tt, after_claim_timeout demo_attacked (as_caller (demo_env 0 86510) claimant) 1).
Proof.
  apply (timeout_always_available toy_hash demo_attacked (demo_env 0 86510) 1
           (games_read demo_attacked 1) demo_attacked_reachable eq_refl).
  - right. vm_compute. reflexivity.
  - vm_compute. split; [discriminate | reflexivity].
  - vm_compute. split; [discriminate | reflexivity].
  - intros claimant. reflexivity.
Defined.

Lemma reveal_binding_witness :
  valid_game demo_attacked 1 /\
  ((0 <= 0 < 10 /\ 0 <= 0 < 10 /\
    board_cell demo_board (Z.to_nat 0) (Z.to_nat 0) = Some (if true then 1 else 0) /\
    bob_salt = bob_salt) \/
   collision toy_hash).
Proof.
  assert (Hv : valid_game demo_attacked 1) by eval_valid_game.
  split; [exact Hv|].
  apply (reveal_binding toy_hash demo_attacked demo_revealed (demo_env bob 111) 1 0 0 true
           bob_salt (demo_proof bob_salt 0 0) (games_read demo_attacked 1) demo_board bob_salt
           (demo_tree bob_salt) eq_refl Hv (demo_tree_built bob_salt ltac:(right; reflexivity))).
  - vm_compute. reflexivity.
  - vm_compute. reflexivity.
  - vm_compute. reflexivity.
Defined.
